(** * gago: the crossover operators of [crossover.go]

    A shallow embedding of [CrossPoint.Apply], [CrossUniformF.Apply] and
    [CrossPMX.Apply] together with the Go runtime behaviour they rely on
    (slices, [copy], run-time panics, the [math/rand] source), followed by
    the properties of the three operators.

    Conventions.  A Go [int] is a [Z]: the only integers computed are
    lengths, indices and [nbGenes - 2], far from the 64-bit bounds.  A slice
    is a [list] whose capacity is its length.  A method that mutates its
    [*rand.Rand] takes the source and returns the new one.  [float64] is the
    kernel's binary64 type, every operation rounded on its own; what a
    float64 computation is worth as a real number is read off the IEEE 754
    specification of that type. *)

From Stdlib Require Import String ZArith List Bool Lia.
From Stdlib Require Import Sorting.Permutation Sorting.Sorted Lists.Finite.
From Stdlib Require Import Floats Reals Lra.
Import ListNotations.

Local Open Scope Z_scope.

(** ** Run-time failures

    None of the three [Apply] methods returns an [error]; the only way a call
    can fail is a Go run-time panic.  [result] makes that outcome explicit. *)

Inductive panic : Set :=
| SliceBounds      (* slice bounds out of range *)
| IndexRange       (* index out of range *)
| TypeAssertion    (* interface conversion: value is not a float64 *)
| IntnArg.         (* invalid argument to Intn *)

Inductive result (A : Type) : Type :=
| Ok (a : A)
| Panic (e : panic).

Arguments Ok {A} a.
Arguments Panic {A} e.

Definition bind {A B : Type} (c : result A) (k : A -> result B) : result B :=
  match c with
  | Ok a => k a
  | Panic e => Panic e
  end.

Notation "x <- c ;; k" := (bind c (fun x => k))
  (at level 61, c at next level, right associativity).
Notation "' p <- c ;; k" := (bind c (fun x => let 'p := x in k))
  (at level 61, p pattern, c at next level, right associativity).

(** ** The arithmetic of gene values

    [CrossUniformF] computes on [float64].  The operations it uses are kept
    behind an interface: what does not depend on how they round is proved
    for any arithmetic, and the program's own is the instance [ieee754],
    IEEE 754 binary64. *)

Class Float64Arith (F : Type) : Type := {
  fadd : F -> F -> F;
  fsub : F -> F -> F;
  fmul : F -> F -> F;
  fone : F;
  feqb : F -> F -> bool
}.

#[export] Instance ieee754 : Float64Arith float := {
  fadd := PrimFloat.add;
  fsub := PrimFloat.sub;
  fmul := PrimFloat.mul;
  fone := 1%float;
  feqb := PrimFloat.eqb
}.

(** ** Slices *)

Definition len {A : Type} (l : list A) : Z := Z.of_nat (length l).

(** [l[i]] *)
Definition index {A : Type} (l : list A) (i : Z) : result A :=
  if i <? 0 then Panic IndexRange
  else match nth_error l (Z.to_nat i) with
       | Some x => Ok x
       | None => Panic IndexRange
       end.

Definition update {A : Type} (l : list A) (i : nat) (x : A) : list A :=
  firstn i l ++ x :: skipn (S i) l.

(** [l[i] = x] *)
Definition setIndex {A : Type} (l : list A) (i : Z) (x : A) : result (list A) :=
  if (0 <=? i) && (i <? len l) then Ok (update l (Z.to_nat i) x)
  else Panic IndexRange.

(** [l[a:b]] on a slice whose capacity is its length, as [make] allocates
    it.  Go checks [b] against the capacity, so a slice with spare capacity
    accepts a [b] beyond its length; this definition refuses it.  The
    properties below never slice a genome beyond its length. *)
Definition slice {A : Type} (l : list A) (a b : Z) : result (list A) :=
  if (0 <=? a) && (a <=? b) && (b <=? len l)
  then Ok (firstn (Z.to_nat (b - a)) (skipn (Z.to_nat a) l))
  else Panic SliceBounds.

(** The contents of [dst] after [copy(dst, src)]: the first
    [min(len(dst), len(src))] elements are overwritten. *)
Definition copy {A : Type} (dst src : list A) : list A :=
  let n := Nat.min (length dst) (length src) in
  firstn n src ++ skipn n dst.

(** The contents of [dst] after [copy(dst[a:b], src[a:b])]: the window
    [dst[a:b]] shares its storage with [dst]. *)
Definition copySlice {A : Type} (dst src : list A) (a b : Z) : result (list A) :=
  d <- slice dst a b ;;
  s <- slice src a b ;;
  Ok (firstn (Z.to_nat a) dst ++ copy d s ++ skipn (Z.to_nat a + length d) dst).

(** [for i := i0; i < i0 + n; i++ { s = body(i, s) }] *)
Fixpoint forLoop {St : Type} (n : nat) (i : Z) (body : Z -> St -> result St) (s : St)
  : result St :=
  match n with
  | O => Ok s
  | S n' => s' <- body i s ;; forLoop n' (i + 1) body s'
  end.

(** [sort.Ints]: ascending order. *)
Fixpoint insertInt (x : Z) (l : list Z) : list Z :=
  match l with
  | [] => [x]
  | y :: t => if x <=? y then x :: y :: t else y :: insertInt x t
  end.

Fixpoint sortInts (l : list Z) : list Z :=
  match l with
  | [] => []
  | x :: t => insertInt x (sortInts t)
  end.

Section Gago.

Context {F : Type} {FA : Float64Arith F}.

(** ** Gene values: the dynamic values held by a [[]interface{}] genome *)

Inductive value : Type :=
| Nil                 (* the zero value of [interface{}] *)
| Int (n : Z)
| Float (x : F)
| Str (s : string).

(** [==] on interface values: same dynamic type and equal values. *)
Definition value_eqb (a b : value) : bool :=
  match a, b with
  | Nil, Nil => true
  | Int m, Int n => m =? n
  | Float x, Float y => feqb x y
  | Str s, Str t => String.eqb s t
  | _, _ => false
  end.

(** Values whose [==] is plain equality (no float among them). *)
Definition is_token (v : value) : bool :=
  match v with
  | Float _ => false
  | _ => true
  end.

(** [v.(float64)] *)
Definition assertFloat64 (v : value) : result F :=
  match v with
  | Float x => Ok x
  | _ => Panic TypeAssertion
  end.

(** Modelled from the spec: the [Individual] type is declared outside
    [crossover.go]; section 3 gives it a genome and a fitness-validity flag. *)
Record Individual : Type := {
  Genome : list value;
  fitnessValid : bool
}.

(** ** The random source

    [*rand.Rand] is an oracle: a tape of integer answers, a tape of float
    answers and the number of answers consumed so far.  Every sequence of
    outcomes of the real generator is some tape. *)

Record Rand : Type := {
  ints : nat -> Z;
  floats : nat -> F;
  pos : nat
}.

Definition advance (r : Rand) : Rand :=
  {| ints := ints r; floats := floats r; pos := S (pos r) |}.

(** [rng.Intn(n)]: panics when [n <= 0], otherwise a value of [[0, n)]. *)
Definition Intn (r : Rand) (n : Z) : result (Z * Rand) :=
  if n <=? 0 then Panic IntnArg
  else Ok (ints r (pos r) mod n, advance r).

(** [rng.Float64()] *)
Definition Float64 (r : Rand) : F * Rand :=
  (floats r (pos r), advance r).

(** The value returned by the [i]-th successive call of [rng.Float64()]. *)
Definition nthFloat64 (i : nat) (r : Rand) : F :=
  fst (Float64 (Nat.iter i (fun r' => snd (Float64 r')) r)).

(** ** Helpers declared outside [crossover.go] *)

(** Modelled from the spec: [makeIndividual] is missing from the sources;
    section 4.1: a genome of exactly [length] unpopulated slots, fitness
    marked invalid.  The spec describes no draw from [rng]. *)
Definition makeIndividual (nbGenes : Z) (rng : Rand) : Individual :=
  {| Genome := repeat Nil (Z.to_nat nbGenes); fitnessValid := false |}.

(** The error value of [randomInts]. *)
Inductive error : Set :=
| ErrTooManyInts.     (* k > highExclusive - lowInclusive *)

(** [k] values taken out of [pool] one after the other, each at the position
    given by the next integer answer of the source. *)
Fixpoint sample (k : nat) (pool : list Z) (r : Rand) : list Z * Rand :=
  match k, pool with
  | S k', _ :: _ =>
      let j := Z.to_nat (ints r (pos r) mod len pool) in
      let '(xs, r') := sample k' (firstn j pool ++ skipn (S j) pool) (advance r) in
      (nth j pool 0 :: xs, r')
  | _, _ => ([], r)
  end.

(** Modelled from the spec: [randomInts] is missing from the sources;
    section 4.2: [k] pairwise distinct integers of [[lo, hi)] in no
    particular order, and an error when [k > hi - lo].  The values are drawn
    without replacement from the range, one answer of the source per value:
    the answers decide which values come out and in which order.  Section
    4.2 says neither what comes back beside the error nor what a negative
    [k] does; here the error comes with the nil slice and an untouched
    source, and a negative [k] draws nothing.  [CrossPoint_Apply_with]
    leaves both open. *)
Definition randomInts (k lo hi : Z) (rng : Rand) : (list Z * option error) * Rand :=
  if k >? hi - lo then (([], Some ErrTooManyInts), rng)
  else
    let pool := map (fun i => lo + Z.of_nat i) (seq 0 (Z.to_nat (hi - lo))) in
    let '(xs, rng') := sample (Z.to_nat k) pool rng in
    ((xs, None), rng').

Fixpoint getIndexFrom (i : Z) (element : value) (array : list value) : Z :=
  match array with
  | [] => -1
  | v :: rest => if value_eqb v element then i else getIndexFrom (i + 1) element rest
  end.

(** Modelled from the spec: [getIndex] is missing from the sources;
    section 4.3: a linear scan returning the position of the first element
    equal to [element].  The result is assigned to an [int] in
    [CrossPMX.Apply]; for an absent element it is [-1], which no slice
    accepts as an index. *)
Definition getIndex (element : value) (array : list value) : Z :=
  getIndexFrom 0 element array.

(** ** CrossPoint *)

Record CrossPoint : Type := { NbPoints : Z }.

(** One iteration of the copying loop; the state is the two offspring
    genomes and the switch [s]. *)
Definition crossPointBody (points : list Z) (g1 g2 : list value) (i : Z)
  (st : list value * list value * bool) : result (list value * list value * bool) :=
  let '(o1, o2, s) := st in
  a <- index points i ;;
  b <- index points (i + 1) ;;
  '(o1, o2) <-
    (if s then
       o1' <- copySlice o1 g1 a b ;;
       o2' <- copySlice o2 g2 a b ;;
       Ok (o1', o2')
     else
       o1' <- copySlice o1 g2 a b ;;
       o2' <- copySlice o2 g1 a b ;;
       Ok (o1', o2')) ;;
  (* s = !true *)
  Ok (o1, o2, negb true).

Definition CrossPoint_Apply (cross : CrossPoint) (p1 p2 : Individual) (rng : Rand)
  : result (Individual * Individual * Rand) :=
  let '((points, _), rng) := randomInts (NbPoints cross) 0 (len (Genome p1)) rng in
  let nbGenes := len (Genome p1) in
  let o1 := makeIndividual nbGenes rng in
  let o2 := makeIndividual nbGenes rng in
  let s := true in
  let points := sortInts points in
  let points := [0] ++ points in
  let points := points ++ [nbGenes] in
  '(g1, g2, _) <- forLoop (Z.to_nat (len points - 1)) 0
                    (crossPointBody points (Genome p1) (Genome p2))
                    (Genome o1, Genome o2, s) ;;
  Ok ({| Genome := g1; fitnessValid := fitnessValid o1 |},
      {| Genome := g2; fitnessValid := fitnessValid o2 |}, rng).

(** The same method with the callee that is not in [crossover.go] left
    open: [helper] stands for any implementation of [randomInts], handing
    back a slice, an error and the source.  [CrossPoint_Apply] is this
    definition at the modelled [randomInts]. *)
Definition CrossPoint_Apply_with
  (helper : Z -> Z -> Z -> Rand -> (list Z * option error) * Rand)
  (cross : CrossPoint) (p1 p2 : Individual) (rng : Rand)
  : result (Individual * Individual * Rand) :=
  let '((points, _), rng) := helper (NbPoints cross) 0 (len (Genome p1)) rng in
  let nbGenes := len (Genome p1) in
  let o1 := makeIndividual nbGenes rng in
  let o2 := makeIndividual nbGenes rng in
  let s := true in
  let points := sortInts points in
  let points := [0] ++ points in
  let points := points ++ [nbGenes] in
  '(g1, g2, _) <- forLoop (Z.to_nat (len points - 1)) 0
                    (crossPointBody points (Genome p1) (Genome p2))
                    (Genome o1, Genome o2, s) ;;
  Ok ({| Genome := g1; fitnessValid := fitnessValid o1 |},
      {| Genome := g2; fitnessValid := fitnessValid o2 |}, rng).

(** A helper that hands back what [helper] does, with the error [err] in
    place of its own. *)
Definition withError (err : option error)
  (helper : Z -> Z -> Z -> Rand -> (list Z * option error) * Rand)
  (k lo hi : Z) (rng : Rand) : (list Z * option error) * Rand :=
  let '((points, _), rng) := helper k lo hi rng in ((points, err), rng).

(** ** CrossUniformF *)

Record CrossUniformF : Type := {}.

Definition crossUniformFBody (g1 g2 : list value) (i : Z)
  (st : list value * list value * Rand) : result (list value * list value * Rand) :=
  let '(o1, o2, rng) := st in
  let '(p, rng) := Float64 rng in
  v1 <- index g1 i ;; x1 <- assertFloat64 v1 ;;
  v2 <- index g2 i ;; x2 <- assertFloat64 v2 ;;
  o1 <- setIndex o1 i (Float (fadd (fmul p x1) (fmul (fsub fone p) x2))) ;;
  w1 <- index g1 i ;; y1 <- assertFloat64 w1 ;;
  w2 <- index g2 i ;; y2 <- assertFloat64 w2 ;;
  o2 <- setIndex o2 i (Float (fadd (fmul (fsub fone p) y1) (fmul p y2))) ;;
  Ok (o1, o2, rng).

Definition CrossUniformF_Apply (cross : CrossUniformF) (p1 p2 : Individual) (rng : Rand)
  : result (Individual * Individual * Rand) :=
  let nbGenes := len (Genome p1) in
  let o1 := makeIndividual nbGenes rng in
  let o2 := makeIndividual nbGenes rng in
  '(g1, g2, rng) <- forLoop (Z.to_nat nbGenes) 0
                      (crossUniformFBody (Genome p1) (Genome p2))
                      (Genome o1, Genome o2, rng) ;;
  Ok ({| Genome := g1; fitnessValid := fitnessValid o1 |},
      {| Genome := g2; fitnessValid := fitnessValid o2 |}, rng).

(** ** CrossPMX *)

Record CrossPMX : Type := {}.

(** [rng.Intn(nbGenes-2) + 1] *)
Definition pmxPoint (nbGenes : Z) (rng : Rand) : result (Z * Rand) :=
  '(r, rng) <- Intn rng (nbGenes - 2) ;;
  Ok (r + 1, rng).

(** [o[a], o[i] = o[i], g[i]] after [a = getIndex(g[i], o)] *)
Definition pmxSwap (g o : list value) (i : Z) : result (list value) :=
  gi <- index g i ;;
  let a := getIndex gi o in
  x <- index o i ;;
  y <- index g i ;;
  o <- setIndex o a x ;;
  setIndex o i y.

Definition crossPMXBody (g1 g2 : list value) (i : Z)
  (st : list value * list value) : result (list value * list value) :=
  let '(o1, o2) := st in
  o1 <- pmxSwap g2 o1 i ;;
  o2 <- pmxSwap g1 o2 i ;;
  Ok (o1, o2).

Definition CrossPMX_Apply (c : CrossPMX) (p1 p2 : Individual) (rng : Rand)
  : result (Individual * Individual * Rand) :=
  let nbGenes := len (Genome p1) in
  let o1 := makeIndividual nbGenes rng in
  let o2 := makeIndividual nbGenes rng in
  let g1 := copy (Genome o1) (Genome p1) in
  let g2 := copy (Genome o2) (Genome p2) in
  '(p, rng) <- pmxPoint nbGenes rng ;;
  '(g1, g2) <- forLoop (Z.to_nat p) 0
                 (crossPMXBody (Genome p1) (Genome p2)) (g1, g2) ;;
  Ok ({| Genome := g1; fitnessValid := fitnessValid o1 |},
      {| Genome := g2; fitnessValid := fitnessValid o2 |}, rng).

End Gago.

Arguments value F : clear implicits.
Arguments Individual F : clear implicits.
Arguments Rand F : clear implicits.

(** ** Notions used to state the properties *)

(** The boundary markers of [CrossPoint.Apply]: [0], the sorted points, and
    the genome length. *)
Definition boundaries (points : list Z) (nbGenes : Z) : list Z :=
  ([0] ++ sortInts points) ++ [nbGenes].

(** The first boundary marker after [0]: the smallest point, or the genome
    length when there is no point. *)
Definition firstCut (points : list Z) (nbGenes : Z) : nat :=
  Z.to_nat (hd nbGenes (sortInts points)).

Section Invariants.

Context {F : Type} {FA : Float64Arith F}.

(** Genes that pass the assertion [.(float64)]. *)
Definition is_float64 (v : value F) : bool :=
  match v with
  | Float _ => true
  | _ => false
  end.

(** Loop invariant of [CrossPoint.Apply]: before segment [i], the
    positions below boundary [i] hold the genes of [T1] and [T2]. *)
Definition crossPointInv (bs : list Z) (T1 T2 : list (value F)) (n : nat) (i : Z)
  (st : list (value F) * list (value F) * bool) : Prop :=
  let '(o1, o2, s) := st in
  length o1 = n /\ length o2 = n /\ s = (i =? 0) /\
  exists b : nat,
    nth_error bs (Z.to_nat i) = Some (Z.of_nat b) /\
    forall k, (k < b)%nat ->
              nth_error o1 k = nth_error T1 k /\ nth_error o2 k = nth_error T2 k.

(** Loop invariant of [CrossPMX.Apply]: before iteration [i], the offspring
    are permutations of the parents and agree with the other parent below
    [i]. *)
Definition crossPMXInv (g1 g2 : list (value F)) (i : Z)
  (st : list (value F) * list (value F)) : Prop :=
  let '(o1, o2) := st in
  Permutation o1 g1 /\ Permutation o2 g2 /\
  forall k, (k < Z.to_nat i)%nat ->
            nth_error o1 k = nth_error g2 k /\ nth_error o2 k = nth_error g1 k.

(** Loop invariant of [CrossUniformF.Apply]: before iteration [i], the
    positions below [i] hold the blends and [i] values have been drawn. *)
Definition crossUniformFInv (g1 g2 : list (value F)) (rng : Rand F) (i : Z)
  (st : list (value F) * list (value F) * Rand F) : Prop :=
  let '(o1, o2, r) := st in
  length o1 = length g1 /\ length o2 = length g1 /\
  r = Nat.iter (Z.to_nat i) advance rng /\
  forall k a b, (k < Z.to_nat i)%nat ->
    nth_error g1 k = Some (Float a) -> nth_error g2 k = Some (Float b) ->
    let p := nthFloat64 k rng in
    nth_error o1 k = Some (Float (fadd (fmul p a) (fmul (fsub fone p) b)))
    /\ nth_error o2 k = Some (Float (fadd (fmul (fsub fone p) a) (fmul p b))).

(** An individual whose genome is cut down to its first [n] genes. *)
Definition cutGenome (n : nat) (p : Individual F) : Individual F :=
  {| Genome := firstn n (Genome p); fitnessValid := fitnessValid p |}.

(** The outcome of an [Apply] with the two offspring exchanged. *)
Definition exchange (r : result (Individual F * Individual F * Rand F))
  : result (Individual F * Individual F * Rand F) :=
  match r with
  | Ok (o1, o2, rng) => Ok (o2, o1, rng)
  | Panic e => Panic e
  end.

End Invariants.

(** ** float64 numbers as real numbers

    The kernel's [float] is specified by [Prim2SF], which maps it to the
    sign, mantissa and exponent of IEEE 754 binary64, and by the functions
    of [SpecFloat], which round an exact result to the format.  The
    definitions below say what such a number is worth and how far a rounding
    may move it. *)

(** After [k] shifts of the mantissa [m]: the quotient, the round bit and
    the sticky bit account for [m] exactly. *)
Definition shrInv (m k : Z) (mrs : shr_record) : Prop :=
  0 <= shr_m mrs
  /\ exists t, 0 <= t < 2 ^ k
               /\ shr_s mrs = negb (t =? 0)
               /\ 2 * m = 2 * shr_m mrs * 2 ^ k + (if shr_r mrs then 2 ^ k else 0) + t.

(** The outcome [z] of rounding [m * 2^e] with sign [s]: an overflow, for
    an exponent or a magnitude beyond the format, or a zero or finite number
    [m' * 2^e'] that is [m * 2^e] itself, or within the relative error
    [2^-53] of it, or, below the normal range, within half the least
    positive number [2^-1074]. *)
Definition rounded (s : bool) (m : positive) (e : Z) (z : spec_float) : Prop :=
  (z = S754_infinity s /\ (971 < e \/ 1024 <= Zpos (digits2_pos m) + e))
  \/ exists m' e' : Z,
       (m' = 0 /\ z = S754_zero s
        \/ exists p, m' = Zpos p /\ z = S754_finite s p e')
       /\ e <= e'
       /\ (m' * 2 ^ (e' - e) = Zpos m
           \/ Z.abs (m' * 2 ^ (e' - e) - Zpos m) * 2 ^ 53 <= Zpos m
           \/ (e < -1074
               /\ 2 * Z.abs (m' * 2 ^ (e' - e) - Zpos m) <= 2 ^ (-1074 - e))).

Definition sgn (s : bool) : R := if s then (-1)%R else 1%R.

(** The real number a finite binary64 number denotes (0 for the others). *)
Definition SF2R (x : spec_float) : R :=
  match x with
  | S754_finite s m e => (sgn s * IZR (Zpos m) * powerRZ 2 e)%R
  | _ => 0%R
  end.

Definition SFfinite (x : spec_float) : bool :=
  match x with
  | S754_finite _ _ _ | S754_zero _ => true
  | _ => false
  end.

(** The unit roundoff and the underflow threshold of binary64. *)
Definition u64 : R := powerRZ 2 (-53).
Definition eta64 : R := powerRZ 2 (-1075).

(** The real number a [float64] denotes, and whether it is a number at all
    (neither an infinity nor a NaN). *)
Definition F2R (x : float) : R := SF2R (Prim2SF x).
Definition finite64 (x : float) : bool := SFfinite (Prim2SF x).

(** A finite number of the format: the exponent is in range, the mantissa
    has at most 53 bits, exactly 53 above the least exponent. *)
Definition SFcanonical (x : spec_float) : Prop :=
  match x with
  | S754_finite _ m e =>
      (-1074 <= e <= 971)%Z /\ (Zpos m < 2 ^ 53)%Z
      /\ (e = (-1074)%Z \/ (2 ^ 52 <= Zpos m)%Z)
  | _ => True
  end.

(** How far the sum of the two offspring genes may be from the sum of the
    parents' genes [a] and [b]: eight units of relative rounding error and
    eight of underflow. *)
Definition roundingBound (a b : float) : R :=
  (powerRZ 2 (-50) * (Rabs (F2R a) + Rabs (F2R b)) + powerRZ 2 (-1072))%R.

(** How far an offspring gene may be outside the interval spanned by the
    parents' genes [a] and [b]: four units of relative rounding error and
    four of underflow. *)
Definition intervalSlack (a b : float) : R :=
  (powerRZ 2 (-51) * (Rabs (F2R a) + Rabs (F2R b)) + powerRZ 2 (-1073))%R.

(** ** Inputs of the concrete runs *)

Definition individual (g : list (value float)) : Individual float :=
  {| Genome := g; fitnessValid := true |}.

(** A source whose every integer answer is [z] and every float answer [x]. *)
Definition constRand (z : Z) (x : float) : Rand float :=
  {| ints := fun _ => z; floats := fun _ => x; pos := 0 |}.

Definition ints4a : list (value float) := [Int 1; Int 2; Int 3; Int 4].
Definition ints4b : list (value float) := [Int 5; Int 6; Int 7; Int 8].
Definition tour5 : list (value float) := [Int 1; Int 2; Int 3; Int 4; Int 5].

(** [tour5] reversed, with the city 9 in place of the city 5. *)
Definition tour5x : list (value float) := [Int 9; Int 4; Int 3; Int 2; Int 1].

(** 0.1, 0.2 and 0.3 as float64 *)
Definition f0_1 : float := 0x1.999999999999ap-4%float.
Definition f0_2 : float := 0x1.999999999999ap-3%float.
Definition f0_3 : float := 0x1.3333333333333p-2%float.

(** * Properties *)

(** ** The [result] monad and the loop rule *)

Lemma bind_Ok {A B : Type} (c : result A) (k : A -> result B) (a : A) :
  c = Ok a -> bind c k = k a.
Proof. intros ->. reflexivity. Qed.

(** Total-correctness rule for [forLoop]: an invariant that every iteration
    re-establishes without panicking holds when the loop returns. *)
Lemma forLoop_inv {St : Type} (I : Z -> St -> Prop) (body : Z -> St -> result St) :
  forall (n : nat) (i0 : Z) (s0 : St),
    I i0 s0 ->
    (forall i s, i0 <= i < i0 + Z.of_nat n -> I i s ->
                 exists s', body i s = Ok s' /\ I (i + 1) s') ->
    exists s', forLoop n i0 body s0 = Ok s' /\ I (i0 + Z.of_nat n) s'.
Proof.
  induction n as [|n IH]; intros i0 s0 H0 Hstep.
  - exists s0. split; [reflexivity|]. now replace (i0 + Z.of_nat 0) with i0 by lia.
  - destruct (Hstep i0 s0 ltac:(lia) H0) as (s1 & Hb & H1).
    destruct (IH (i0 + 1) s1 H1) as (s' & Hl & H').
    + intros i s Hi. apply Hstep. lia.
    + exists s'. split.
      * cbn [forLoop]. now rewrite (bind_Ok _ _ _ Hb).
      * now replace (i0 + Z.of_nat (S n)) with (i0 + 1 + Z.of_nat n) by lia.
Qed.

(** ** Slices *)

Lemma nth_error_ext {A : Type} (l l' : list A) :
  length l = length l' ->
  (forall k, (k < length l)%nat -> nth_error l k = nth_error l' k) ->
  l = l'.
Proof.
  revert l'. induction l as [|x l IH]; intros [|y l'] Hlen Hnth; try discriminate.
  - reflexivity.
  - f_equal.
    + specialize (Hnth 0%nat ltac:(cbn; lia)). now inversion Hnth.
    + apply IH; [now inversion Hlen|].
      intros k Hk. apply (Hnth (S k)). cbn. lia.
Qed.

Lemma index_Ok {A : Type} (l : list A) (i : nat) (x : A) :
  nth_error l i = Some x -> index l (Z.of_nat i) = Ok x.
Proof.
  intros H. unfold index.
  destruct (Z.ltb_spec (Z.of_nat i) 0); [lia|].
  now rewrite Nat2Z.id, H.
Qed.

Lemma nth_error_lt {A : Type} (l : list A) (i : nat) :
  (i < length l)%nat -> exists x, nth_error l i = Some x.
Proof.
  intros H. destruct (nth_error l i) eqn:E; [eauto|].
  apply nth_error_None in E. lia.
Qed.

Lemma length_update {A : Type} (l : list A) (i : nat) (x : A) :
  (i < length l)%nat -> length (update l i x) = length l.
Proof.
  intros H. unfold update.
  rewrite length_app, length_firstn. cbn [length]. rewrite length_skipn. lia.
Qed.

Lemma nth_error_update {A : Type} (l : list A) (i k : nat) (x : A) :
  (i < length l)%nat ->
  nth_error (update l i x) k = if Nat.eqb k i then Some x else nth_error l k.
Proof.
  intros H. unfold update.
  assert (Hf : length (firstn i l) = i) by (rewrite length_firstn; lia).
  destruct (Nat.eqb_spec k i) as [->|Hne].
  - rewrite nth_error_app2 by lia. now rewrite Hf, Nat.sub_diag.
  - destruct (Nat.lt_ge_cases k i) as [Hlt|Hge].
    + rewrite nth_error_app1 by lia. now rewrite nth_error_firstn, (proj2 (Nat.ltb_lt _ _) Hlt).
    + rewrite nth_error_app2 by lia. rewrite Hf.
      destruct (k - i)%nat as [|m] eqn:E; [lia|]. cbn [nth_error].
      rewrite nth_error_skipn. f_equal. lia.
Qed.

Lemma setIndex_Ok {A : Type} (l : list A) (i : nat) (x : A) :
  (i < length l)%nat -> setIndex l (Z.of_nat i) x = Ok (update l i x).
Proof.
  intros H. unfold setIndex, len.
  destruct (Z.leb_spec 0 (Z.of_nat i)); [|lia].
  destruct (Z.ltb_spec (Z.of_nat i) (Z.of_nat (length l))); [|lia].
  cbn. now rewrite Nat2Z.id.
Qed.

Lemma update_middle {A : Type} (l1 l2 : list A) (x y : A) :
  update (l1 ++ x :: l2) (length l1) y = l1 ++ y :: l2.
Proof.
  unfold update.
  rewrite firstn_app, firstn_all, Nat.sub_diag, firstn_O, app_nil_r.
  f_equal. f_equal.
  replace (S (length l1)) with (length (l1 ++ [x])) by (rewrite length_app; cbn; lia).
  change (x :: l2) with ([x] ++ l2). rewrite app_assoc.
  rewrite skipn_app, skipn_all, Nat.sub_diag. reflexivity.
Qed.

Lemma copy_same_length {A : Type} (dst src : list A) :
  length dst = length src -> copy dst src = src.
Proof.
  intros H. unfold copy. rewrite H, Nat.min_id, firstn_all.
  rewrite <- H, skipn_all. apply app_nil_r.
Qed.

(** [copy(dst[a:b], src[a:b])] on two slices of one length: no panic, the
    length is kept, and exactly the window [[a, b)] is taken from [src]. *)
Lemma copySlice_spec {A : Type} (dst src : list A) (a b : nat) :
  length src = length dst -> (a <= b <= length dst)%nat ->
  exists r, copySlice dst src (Z.of_nat a) (Z.of_nat b) = Ok r
            /\ length r = length dst
            /\ forall k, nth_error r k =
                         if (Nat.leb a k && Nat.ltb k b)%bool
                         then nth_error src k else nth_error dst k.
Proof.
  intros Hlen Hab. unfold copySlice, slice, len.
  rewrite Hlen.
  destruct (Z.leb_spec 0 (Z.of_nat a)); [|lia].
  destruct (Z.leb_spec (Z.of_nat a) (Z.of_nat b)); [|lia].
  destruct (Z.leb_spec (Z.of_nat b) (Z.of_nat (length dst))); [|lia].
  cbn [andb bind].
  replace (Z.to_nat (Z.of_nat b - Z.of_nat a)) with (b - a)%nat by lia.
  rewrite Nat2Z.id.
  set (d := firstn (b - a) (skipn a dst)).
  set (s := firstn (b - a) (skipn a src)).
  assert (Hd : length d = (b - a)%nat)
    by (unfold d; rewrite length_firstn, length_skipn; lia).
  assert (Hs : length s = (b - a)%nat)
    by (unfold s; rewrite length_firstn, length_skipn; lia).
  rewrite copy_same_length by lia. rewrite Hd.
  replace (a + (b - a))%nat with b by lia.
  assert (Hf : length (firstn a dst) = a) by (rewrite length_firstn; lia).
  eexists. split; [reflexivity|]. split.
  - rewrite !length_app, Hf, Hs, length_skipn. lia.
  - intros k.
    destruct (Nat.leb_spec a k) as [Hak|Hak]; cbn [andb].
    + rewrite nth_error_app2 by lia. rewrite Hf.
      destruct (Nat.ltb_spec k b) as [Hkb|Hkb].
      * rewrite nth_error_app1 by lia. unfold s.
        rewrite nth_error_firstn, (proj2 (Nat.ltb_lt _ _)) by lia.
        rewrite nth_error_skipn. f_equal. lia.
      * rewrite nth_error_app2 by lia. rewrite Hs, nth_error_skipn. f_equal. lia.
    + rewrite nth_error_app1 by lia.
      now rewrite nth_error_firstn, (proj2 (Nat.ltb_lt _ _) Hak).
Qed.

Lemma index_Ok_inv {A : Type} (l : list A) (i : Z) (x : A) :
  index l i = Ok x -> 0 <= i /\ nth_error l (Z.to_nat i) = Some x.
Proof.
  unfold index. destruct (Z.ltb_spec i 0); [discriminate|].
  destruct (nth_error l (Z.to_nat i)); [|discriminate].
  intros [= ->]. split; [lia|reflexivity].
Qed.

Lemma slice_firstn {A : Type} (l : list A) (n : nat) (a b : Z) :
  b <= Z.of_nat n -> slice (firstn n l) a b = slice l a b.
Proof.
  intros Hb. unfold slice, len. rewrite length_firstn.
  destruct (Z.leb_spec 0 a); cbn [andb]; [|reflexivity].
  destruct (Z.leb_spec a b); cbn [andb]; [|reflexivity].
  destruct (Z.leb_spec b (Z.of_nat (length l)));
    destruct (Z.leb_spec b (Z.of_nat (Nat.min n (length l)))); try lia; [|reflexivity].
  f_equal. rewrite skipn_firstn_comm, firstn_firstn. f_equal. lia.
Qed.

(** Two loop bodies that agree on the indices visited give the same loop. *)
Lemma forLoop_ext {St : Type} (body body' : Z -> St -> result St) :
  forall (n : nat) (i0 : Z) (s : St),
    (forall i st, i0 <= i < i0 + Z.of_nat n -> body i st = body' i st) ->
    forLoop n i0 body s = forLoop n i0 body' s.
Proof.
  induction n as [|n IH]; intros i0 s H; cbn [forLoop]; [reflexivity|].
  rewrite (H i0 s) by lia.
  destruct (body' i0 s) as [s'|e]; cbn [bind]; [|reflexivity].
  apply IH. intros i st Hi. apply H. lia.
Qed.

(** ** [sort.Ints] *)

Lemma insertInt_perm (x : Z) (l : list Z) : Permutation (insertInt x l) (x :: l).
Proof.
  induction l as [|y t IH]; cbn.
  - reflexivity.
  - destruct (x <=? y); [reflexivity|].
    rewrite IH. apply perm_swap.
Qed.

Lemma sortInts_perm (l : list Z) : Permutation (sortInts l) l.
Proof.
  induction l as [|x t IH]; cbn.
  - reflexivity.
  - rewrite insertInt_perm. now constructor.
Qed.

Lemma insertInt_sorted (x : Z) (l : list Z) :
  StronglySorted Z.le l -> StronglySorted Z.le (insertInt x l).
Proof.
  induction 1 as [|y t Hs IH Hall]; cbn.
  - repeat constructor.
  - destruct (Z.leb_spec x y) as [Hxy|Hxy].
    + constructor; [now constructor|].
      constructor; [assumption|].
      eapply Forall_impl; [|exact Hall]. cbn. intros; lia.
    + constructor; [assumption|].
      eapply Permutation_Forall; [symmetry; apply insertInt_perm|].
      constructor; [lia|assumption].
Qed.

Lemma sortInts_sorted (l : list Z) : StronglySorted Z.le (sortInts l).
Proof.
  induction l as [|x t IH]; cbn; [constructor|now apply insertInt_sorted].
Qed.

Lemma sorted_nth_error (l : list Z) :
  StronglySorted Z.le l ->
  forall i j a b, (i <= j)%nat ->
    nth_error l i = Some a -> nth_error l j = Some b -> a <= b.
Proof.
  induction 1 as [|y t Hs IH Hall]; intros i j a b Hij Hi Hj.
  - now destruct i.
  - destruct i as [|i], j as [|j]; cbn in Hi, Hj.
    + inversion Hi; inversion Hj; lia.
    + inversion Hi; subst. apply nth_error_In in Hj.
      rewrite Forall_forall in Hall. now apply Hall.
    + lia.
    + eapply IH; [|eassumption|eassumption]. lia.
Qed.

Lemma boundaries_sorted (points : list Z) (n : Z) :
  0 <= n -> Forall (fun x => 0 <= x < n) points ->
  StronglySorted Z.le (boundaries points n).
Proof.
  intros Hn Hall. unfold boundaries. cbn [app].
  assert (Hs : Forall (fun x => 0 <= x < n) (sortInts points))
    by (eapply Permutation_Forall; [symmetry; apply sortInts_perm|assumption]).
  constructor.
  - pose proof (sortInts_sorted points) as Hsorted.
    induction Hsorted as [|y t Hst IH Hle]; cbn.
    + repeat constructor.
    + inversion Hs; subst. constructor; [now apply IH|].
      apply Forall_app. split; [assumption|]. constructor; [lia|constructor].
  - apply Forall_app. split.
    + eapply Forall_impl; [|exact Hs]. cbn. intros; lia.
    + constructor; [assumption|constructor].
Qed.

Section GagoFacts.

Context {F : Type} {FA : Float64Arith F}.

(** ** The random source *)

Lemma iter_advance_pos (k : nat) (r : Rand F) :
  pos (Nat.iter k advance r) = (pos r + k)%nat
  /\ ints (Nat.iter k advance r) = ints r
  /\ floats (Nat.iter k advance r) = floats r.
Proof.
  induction k as [|k IH]; simpl Nat.iter.
  - repeat split. lia.
  - destruct IH as (Hp & Hi & Hf). unfold advance at 1 3 5. cbn [pos ints floats].
    rewrite Hp. repeat split; try assumption. lia.
Qed.

Lemma nthFloat64_tape (i : nat) (r : Rand F) :
  nthFloat64 i r = floats r (pos r + i)%nat.
Proof.
  unfold nthFloat64, Float64. cbn [fst snd].
  change (fun r' : Rand F => advance r') with (@advance F).
  destruct (iter_advance_pos i r) as (Hp & _ & Hf).
  now rewrite Hf, Hp.
Qed.

Lemma Intn_range (r : Rand F) (n : Z) :
  0 < n -> exists v, Intn r n = Ok (v, advance r) /\ 0 <= v < n.
Proof.
  intros Hn. unfold Intn.
  destruct (Z.leb_spec n 0); [lia|].
  eexists. split; [reflexivity|]. apply Z.mod_pos_bound. lia.
Qed.

(** ** [randomInts] meets the contract of section 4.2 *)

Lemma sample_spec (k : nat) :
  forall (pool : list Z) (r : Rand F),
    (k <= length pool)%nat -> NoDup pool ->
    exists xs, sample k pool r = (xs, Nat.iter k advance r)
               /\ length xs = k /\ NoDup xs /\ incl xs pool.
Proof.
  induction k as [|k IH]; intros pool r Hk Hnd.
  - exists []. cbn. repeat split; [constructor|apply incl_nil_l].
  - destruct pool as [|y pool']; [cbn in Hk; lia|].
    cbn [sample]. set (pool := y :: pool') in *.
    set (j := Z.to_nat (ints r (pos r) mod len pool)).
    assert (Hj : (j < length pool)%nat).
    { unfold j, len.
      pose proof (Z.mod_pos_bound (ints r (pos r)) (Z.of_nat (length pool))
                    ltac:(cbn; lia)). lia. }
    destruct (nth_error_lt pool j Hj) as (x & Hx).
    destruct (nth_error_split pool j Hx) as (l1 & l2 & Hpool & Hl1).
    assert (Hrest : firstn j pool ++ skipn (S j) pool = l1 ++ l2).
    { rewrite Hpool, <- Hl1. f_equal.
      - rewrite firstn_app, firstn_all, Nat.sub_diag. cbn. apply app_nil_r.
      - replace (S (length l1)) with (length (l1 ++ [x]))
          by (rewrite length_app; cbn; lia).
        change (x :: l2) with ([x] ++ l2). rewrite app_assoc.
        now rewrite skipn_app, skipn_all, Nat.sub_diag. }
    assert (Hnth : nth j pool 0 = x) by (now apply nth_error_nth).
    rewrite Hrest, Hnth.
    rewrite Hpool in Hnd. pose proof (NoDup_remove _ _ _ Hnd) as (Hnd' & Hnotin).
    destruct (IH (l1 ++ l2) (advance r)) as (xs & Hs & Hlen & Hndx & Hincl).
    { assert (Hlenp : length pool = S (length (l1 ++ l2)))
        by (rewrite Hpool, !length_app; cbn; lia).
      lia. }
    { assumption. }
    rewrite Hs. exists (x :: xs).
    split; [|split; [|split]].
    + f_equal. symmetry. apply Nat.iter_succ_r.
    + cbn. lia.
    + constructor; [|assumption]. intros Hin. apply Hnotin. now apply Hincl.
    + intros z [<-|Hz].
      * rewrite Hpool. apply in_elt.
      * rewrite Hpool. apply Hincl in Hz.
        apply in_app_or in Hz. apply in_or_app. cbn. tauto.
Qed.

(** A satisfiable request: [k] pairwise distinct values of [[lo, hi)] and no
    error; one oracle answer is consumed per value. *)
Lemma randomInts_spec (k lo hi : Z) (rng : Rand F) :
  0 <= k <= hi - lo ->
  exists xs, randomInts k lo hi rng = ((xs, None), Nat.iter (Z.to_nat k) advance rng)
             /\ len xs = k /\ NoDup xs /\ Forall (fun x => lo <= x < hi) xs.
Proof.
  intros Hk. unfold randomInts.
  destruct (Z.gtb_spec k (hi - lo)); [lia|].
  set (pool := map (fun i => lo + Z.of_nat i) (seq 0 (Z.to_nat (hi - lo)))).
  destruct (sample_spec (Z.to_nat k) pool rng) as (xs & Hs & Hlen & Hnd & Hincl).
  - unfold pool. rewrite length_map, length_seq. lia.
  - unfold pool. apply Finite.Injective_map_NoDup; [|apply seq_NoDup].
    intros a b. lia.
  - rewrite Hs. exists xs. split; [reflexivity|]. unfold len.
    split; [lia|]. split; [assumption|].
    apply Forall_forall. intros x Hx. apply Hincl in Hx.
    unfold pool in Hx. apply in_map_iff in Hx as (i & <- & Hi).
    apply in_seq in Hi. lia.
Qed.

(** An unsatisfiable request: the error, the nil slice, the source untouched. *)
Lemma randomInts_error (k lo hi : Z) (rng : Rand F) :
  k > hi - lo -> randomInts k lo hi rng = (([], Some ErrTooManyInts), rng).
Proof.
  intros Hk. unfold randomInts.
  destruct (Z.gtb_spec k (hi - lo)); [reflexivity|lia].
Qed.

(** Whatever is asked, the points handed back lie in the range. *)
Lemma randomInts_range (k lo hi : Z) (rng : Rand F) :
  Forall (fun x => lo <= x < hi) (fst (fst (randomInts k lo hi rng))).
Proof.
  destruct (Z_gt_le_dec k (hi - lo)) as [Hgt|Hle].
  - rewrite randomInts_error by assumption. constructor.
  - destruct (Z_lt_le_dec k 0) as [Hneg|Hpos].
    + unfold randomInts. destruct (Z.gtb_spec k (hi - lo)); [lia|].
      replace (Z.to_nat k) with 0%nat by lia. cbn. constructor.
    + destruct (randomInts_spec k lo hi rng ltac:(lia)) as (xs & -> & _ & _ & H).
      exact H.
Qed.

(** ** CrossPoint: the boundary markers *)

Lemma length_boundaries (points : list Z) (n : Z) :
  length (boundaries points n) = S (S (length points)).
Proof.
  unfold boundaries. rewrite !length_app. cbn.
  rewrite (Permutation_length (sortInts_perm points)). lia.
Qed.

Lemma boundaries_first (points : list Z) (n : Z) :
  nth_error (boundaries points n) 0 = Some 0.
Proof. reflexivity. Qed.

Lemma boundaries_second (points : list Z) (n : Z) :
  nth_error (boundaries points n) 1 = Some (hd n (sortInts points)).
Proof. unfold boundaries. cbn. now destruct (sortInts points). Qed.

Lemma boundaries_last (points : list Z) (n : Z) :
  nth_error (boundaries points n) (S (length points)) = Some n.
Proof.
  unfold boundaries. rewrite nth_error_app2.
  - rewrite length_app. cbn [length].
    rewrite (Permutation_length (sortInts_perm points)).
    now replace (S (length points) - (1 + length points))%nat with 0%nat by lia.
  - rewrite length_app. cbn [length].
    rewrite (Permutation_length (sortInts_perm points)). lia.
Qed.

Lemma boundaries_range (points : list Z) (n : Z) :
  0 <= n -> Forall (fun x => 0 <= x < n) points ->
  Forall (fun x => 0 <= x <= n) (boundaries points n).
Proof.
  intros Hn Hall. unfold boundaries.
  apply Forall_app. split; [apply Forall_app; split|].
  - constructor; [lia|constructor].
  - eapply Permutation_Forall; [symmetry; apply sortInts_perm|].
    eapply Forall_impl; [|exact Hall]. cbn. intros; lia.
  - constructor; [lia|constructor].
Qed.

(** The genome [firstn c g ++ skipn c g'], read position by position. *)
Lemma nth_error_cut {A : Type} (g g' : list A) (c k : nat) :
  length g' = length g -> (c <= length g)%nat ->
  nth_error (firstn c g ++ skipn c g') k =
  if Nat.ltb k c then nth_error g k else nth_error g' k.
Proof.
  intros Hlen Hc.
  assert (Hf : length (firstn c g) = c) by (rewrite length_firstn; lia).
  destruct (Nat.ltb_spec k c) as [Hk|Hk].
  - rewrite nth_error_app1 by lia.
    now rewrite nth_error_firstn, (proj2 (Nat.ltb_lt _ _) Hk).
  - rewrite nth_error_app2 by lia. rewrite Hf, nth_error_skipn. f_equal. lia.
Qed.

Lemma length_cut {A : Type} (g g' : list A) (c : nat) :
  length g' = length g -> (c <= length g)%nat ->
  length (firstn c g ++ skipn c g') = length g.
Proof.
  intros Hlen Hc. rewrite length_app, length_firstn, length_skipn. lia.
Qed.

(** ** CrossPoint: what the copying loop computes

    The switch is assigned [!true] after every segment, so it is [true] for
    the first segment only: whatever the number of points, the loop performs
    a one-point crossover at the smallest boundary after [0]. *)

Lemma crossPoint_loop (points : list Z) (g1 g2 : list (value F)) :
  length g2 = length g1 ->
  Forall (fun x => 0 <= x < len g1) points ->
  let c := firstCut points (len g1) in
  let bs := boundaries points (len g1) in
  forLoop (Z.to_nat (len bs - 1)) 0 (crossPointBody bs g1 g2)
          (repeat Nil (length g1), repeat Nil (length g1), true)
  = Ok (firstn c g1 ++ skipn c g2, firstn c g2 ++ skipn c g1, false).
Proof.
  intros Hlen Hall c bs.
  set (n := length g1).
  set (T1 := firstn c g1 ++ skipn c g2).
  set (T2 := firstn c g2 ++ skipn c g1).
  assert (Hn0 : 0 <= len g1) by (unfold len; lia).
  pose proof (boundaries_sorted points (len g1) Hn0 Hall) as Hsorted.
  pose proof (boundaries_range points (len g1) Hn0 Hall) as Hrange.
  pose proof (length_boundaries points (len g1)) as Hlbs.
  pose proof (boundaries_second points (len g1)) as Hsecond.
  fold bs in Hsorted, Hrange, Hlbs, Hsecond.
  rewrite Forall_forall in Hrange.
  assert (Hc : (c <= n)%nat /\ hd (len g1) (sortInts points) = Z.of_nat c).
  { apply nth_error_In, Hrange in Hsecond. unfold c, firstCut, n, len in *. lia. }
  destruct Hc as (Hcn & Hcz). rewrite Hcz in Hsecond.
  assert (HT1 : forall k, nth_error T1 k =
                          if Nat.ltb k c then nth_error g1 k else nth_error g2 k)
    by (intros k; apply nth_error_cut; [assumption|exact Hcn]).
  assert (HT2 : forall k, nth_error T2 k =
                          if Nat.ltb k c then nth_error g2 k else nth_error g1 k)
    by (intros k; apply nth_error_cut; [now symmetry|rewrite Hlen; exact Hcn]).
  destruct (forLoop_inv (crossPointInv bs T1 T2 n) (crossPointBody bs g1 g2)
              (Z.to_nat (len bs - 1)) 0
              (repeat Nil n, repeat Nil n, true)) as (st & Hloop & Hinv).
  - (* before the first segment *)
    cbn. rewrite !repeat_length. repeat split.
    exists 0%nat. split; [reflexivity|]. intros k Hk. lia.
  - (* one segment *)
    intros i [[o1 o2] s] Hi (Ho1 & Ho2 & Hs & b & Hb & Hdone).
    unfold len in Hi. rewrite Hlbs in Hi.
    remember (Z.to_nat i) as j eqn:Hj.
    assert (Hij : i = Z.of_nat j) by lia. subst i. clear Hj.
    assert (Hjlt : (S j < length bs)%nat) by lia.
    destruct (nth_error_lt bs (S j) Hjlt) as (bz & Hbz).
    pose proof (Hrange _ (nth_error_In _ _ Hbz)) as Hbzr.
    pose proof (Hrange _ (nth_error_In _ _ Hb)) as Hbr.
    pose proof (sorted_nth_error bs Hsorted j (S j) _ _ ltac:(lia) Hb Hbz) as Hle.
    remember (Z.to_nat bz) as b' eqn:Hb'.
    assert (Hbz' : bz = Z.of_nat b') by lia. subst bz. clear Hb'.
    unfold crossPointBody.
    rewrite (bind_Ok _ _ _ (index_Ok bs j _ Hb)).
    replace (Z.of_nat j + 1) with (Z.of_nat (S j)) by lia.
    rewrite (bind_Ok _ _ _ (index_Ok bs (S j) _ Hbz)).
    assert (Hbb : (b <= b' <= n)%nat) by (unfold n, len in *; lia).
    destruct j as [|j].
    + (* the first segment: parent 1 into offspring 1 *)
      cbn in Hs. subst s.
      assert (b = 0%nat) by (cbn in Hb; injection Hb; lia). subst b.
      assert (b' = c) by (rewrite Hsecond in Hbz; injection Hbz; lia). subst b'.
      destruct (copySlice_spec o1 g1 0 c) as (r1 & Hr1 & Hl1 & Hn1); [lia|lia|].
      destruct (copySlice_spec o2 g2 0 c) as (r2 & Hr2 & Hl2 & Hn2); [lia|lia|].
      rewrite (bind_Ok _ _ _ Hr1). rewrite (bind_Ok _ _ _ Hr2). cbn [bind negb].
      eexists. split; [reflexivity|].
      cbn. repeat split; try lia.
      exists c. split; [exact Hsecond|].
      intros k Hk. rewrite Hn1, Hn2, HT1, HT2.
      cbn [Nat.leb andb]. now rewrite (proj2 (Nat.ltb_lt _ _) Hk).
    + (* every later segment: parent 2 into offspring 1 *)
      assert (s = false) by (rewrite Hs; apply Z.eqb_neq; lia). subst s.
      pose proof (sorted_nth_error bs Hsorted 1 (S j) _ _ ltac:(lia) Hsecond Hb) as Hcb.
      destruct (copySlice_spec o1 g2 b b') as (r1 & Hr1 & Hl1 & Hn1); [lia|lia|].
      destruct (copySlice_spec o2 g1 b b') as (r2 & Hr2 & Hl2 & Hn2); [lia|lia|].
      rewrite (bind_Ok _ _ _ Hr1). rewrite (bind_Ok _ _ _ Hr2). cbn [bind negb].
      eexists. split; [reflexivity|].
      unfold crossPointInv. repeat split; try lia.
      exists b'. split.
      { replace (Z.to_nat (Z.of_nat (S (S j)))) with (S (S j)) by lia. exact Hbz. }
      intros k Hk. rewrite Hn1, Hn2, HT1, HT2.
      destruct (Nat.leb_spec b k) as [Hbk|Hbk]; cbn [andb].
      { rewrite (proj2 (Nat.ltb_lt _ _) Hk).
        destruct (Nat.ltb_spec k c); [lia|]. split; reflexivity. }
      { destruct (Hdone k Hbk) as (H1 & H2). now rewrite H1, H2, HT1, HT2. }
  - (* after the last segment *)
    rewrite Hloop. destruct st as [[o1 o2] s].
    destruct Hinv as (Ho1 & Ho2 & Hs & b & Hb & Hdone).
    unfold len in Hb, Hs. rewrite Hlbs in Hb, Hs.
    replace (Z.to_nat (0 + Z.of_nat (Z.to_nat (Z.of_nat (S (S (length points))) - 1))))
      with (S (length points)) in Hb by lia.
    pose proof (boundaries_last points (len g1)) as Hlast. fold bs in Hlast.
    rewrite Hlast in Hb.
    assert (b = n) by (unfold len, n in *; injection Hb; lia). subst b.
    assert (Es : s = false) by (rewrite Hs; apply Z.eqb_neq; lia).
    assert (E1 : o1 = T1).
    { apply nth_error_ext.
      - unfold T1. rewrite length_cut; [exact Ho1|assumption|exact Hcn].
      - intros k Hk. apply Hdone. lia. }
    assert (E2 : o2 = T2).
    { apply nth_error_ext.
      - unfold T2. rewrite length_cut; [lia|now symmetry|lia].
      - intros k Hk. apply Hdone. lia. }
    rewrite E1, E2, Es. reflexivity.
Qed.

(** [CrossPoint.Apply] on two parents of one length never panics, whatever
    [NbPoints] is: the error of [randomInts] is dropped, and the offspring
    are the one-point crossover of the parents at the first cut. *)
Lemma CrossPoint_Apply_spec (cross : CrossPoint) (p1 p2 : Individual F) (rng : Rand F) :
  length (Genome p2) = length (Genome p1) ->
  let r := randomInts (NbPoints cross) 0 (len (Genome p1)) rng in
  let c := firstCut (fst (fst r)) (len (Genome p1)) in
  CrossPoint_Apply cross p1 p2 rng =
  Ok ({| Genome := firstn c (Genome p1) ++ skipn c (Genome p2);
         fitnessValid := false |},
      {| Genome := firstn c (Genome p2) ++ skipn c (Genome p1);
         fitnessValid := false |},
      snd r).
Proof.
  intros Hlen r c.
  pose proof (randomInts_range (NbPoints cross) 0 (len (Genome p1)) rng) as Hrange.
  fold r in Hrange. unfold CrossPoint_Apply. fold r.
  destruct r as [[points err] rng'] eqn:Er. cbn [fst snd] in *.
  unfold makeIndividual. cbn [Genome fitnessValid].
  replace (Z.to_nat (len (Genome p1))) with (length (Genome p1))
    by (unfold len; lia).
  change (([0] ++ sortInts points) ++ [len (Genome p1)])
    with (boundaries points (len (Genome p1))).
  rewrite (crossPoint_loop points (Genome p1) (Genome p2) Hlen Hrange).
  reflexivity.
Qed.

(** ** CrossPoint with any [randomInts]

    What [CrossPoint.Apply] does depends on its helper through the slice
    handed back only; the error is assigned to the blank identifier. *)

Lemma CrossPoint_Apply_with_randomInts
  (cross : CrossPoint) (p1 p2 : Individual F) (rng : Rand F) :
  CrossPoint_Apply cross p1 p2 rng = CrossPoint_Apply_with randomInts cross p1 p2 rng.
Proof. reflexivity. Qed.

Lemma CrossPoint_Apply_withError
  (helper : Z -> Z -> Z -> Rand F -> (list Z * option error) * Rand F)
  (err : option error) (cross : CrossPoint) (p1 p2 : Individual F) (rng : Rand F) :
  CrossPoint_Apply_with (withError err helper) cross p1 p2 rng
  = CrossPoint_Apply_with helper cross p1 p2 rng.
Proof.
  unfold CrossPoint_Apply_with, withError.
  now destruct (helper (NbPoints cross) 0 (len (Genome p1)) rng) as [[points e] rng'].
Qed.

Lemma firstCut_le (points : list Z) (n : nat) :
  Forall (fun x => 0 <= x < Z.of_nat n) points ->
  (firstCut points (Z.of_nat n) <= n)%nat.
Proof.
  intros Hall.
  pose proof (boundaries_range points (Z.of_nat n) ltac:(lia) Hall) as Hb.
  rewrite Forall_forall in Hb.
  pose proof (Hb _ (nth_error_In _ _ (boundaries_second points _))).
  unfold firstCut. lia.
Qed.

(** Points inside the genome and parents of one length: a one-point
    crossover at the first cut, whatever error came with the points. *)
Lemma CrossPoint_Apply_with_spec
  (helper : Z -> Z -> Z -> Rand F -> (list Z * option error) * Rand F)
  (cross : CrossPoint) (p1 p2 : Individual F) (rng : Rand F)
  (points : list Z) (err : option error) (rng' : Rand F) :
  helper (NbPoints cross) 0 (len (Genome p1)) rng = ((points, err), rng') ->
  Forall (fun x => 0 <= x < len (Genome p1)) points ->
  length (Genome p2) = length (Genome p1) ->
  let c := firstCut points (len (Genome p1)) in
  CrossPoint_Apply_with helper cross p1 p2 rng =
  Ok ({| Genome := firstn c (Genome p1) ++ skipn c (Genome p2);
         fitnessValid := false |},
      {| Genome := firstn c (Genome p2) ++ skipn c (Genome p1);
         fitnessValid := false |},
      rng').
Proof.
  intros Hh Hrange Hlen c. unfold CrossPoint_Apply_with. rewrite Hh.
  unfold makeIndividual. cbn [Genome fitnessValid].
  replace (Z.to_nat (len (Genome p1))) with (length (Genome p1))
    by (unfold len; lia).
  change (([0] ++ sortInts points) ++ [len (Genome p1)])
    with (boundaries points (len (Genome p1))).
  rewrite (crossPoint_loop points (Genome p1) (Genome p2) Hlen Hrange).
  reflexivity.
Qed.

(** The copying loop reads its second parent below the last boundary
    marker only. *)
Lemma crossPoint_loop_firstn (bs : list Z) (g1 g2 : list (value F)) (n : nat) :
  Forall (fun x => x <= Z.of_nat n) bs ->
  forall (k : nat) (i : Z) (st : list (value F) * list (value F) * bool),
    forLoop k i (crossPointBody bs g1 g2) st
    = forLoop k i (crossPointBody bs g1 (firstn n g2)) st.
Proof.
  intros Hall k i st. rewrite Forall_forall in Hall.
  apply forLoop_ext. intros j [[o1 o2] s] _. unfold crossPointBody.
  destruct (index bs j) as [a|] eqn:Ea; cbn [bind]; [|reflexivity].
  destruct (index bs (j + 1)) as [b|] eqn:Eb; cbn [bind]; [|reflexivity].
  apply index_Ok_inv in Eb. destruct Eb as (_ & Eb).
  pose proof (Hall _ (nth_error_In _ _ Eb)) as Hbn.
  unfold copySlice. now rewrite (slice_firstn g2 n a b Hbn).
Qed.

(** Points inside the genome and a parent2 at least as long as parent1: the
    call returns, and the offspring are the one-point crossover of parent1
    and the first genes of parent2. *)
Lemma CrossPoint_Apply_with_longer
  (helper : Z -> Z -> Z -> Rand F -> (list Z * option error) * Rand F)
  (cross : CrossPoint) (p1 p2 : Individual F) (rng : Rand F)
  (points : list Z) (err : option error) (rng' : Rand F) :
  helper (NbPoints cross) 0 (len (Genome p1)) rng = ((points, err), rng') ->
  Forall (fun x => 0 <= x < len (Genome p1)) points ->
  (length (Genome p1) <= length (Genome p2))%nat ->
  let n := length (Genome p1) in
  let c := firstCut points (len (Genome p1)) in
  CrossPoint_Apply_with helper cross p1 p2 rng =
  Ok ({| Genome := firstn c (Genome p1) ++ skipn c (firstn n (Genome p2));
         fitnessValid := false |},
      {| Genome := firstn c (firstn n (Genome p2)) ++ skipn c (Genome p1);
         fitnessValid := false |},
      rng').
Proof.
  intros Hh Hrange Hlen n c.
  assert (Hcut : length (Genome (cutGenome n p2)) = length (Genome p1))
    by (cbn [cutGenome Genome]; rewrite length_firstn; lia).
  pose proof (CrossPoint_Apply_with_spec helper cross p1 (cutGenome n p2) rng
                points err rng' Hh Hrange Hcut) as Hspec.
  cbn [cutGenome Genome] in Hspec. fold c in Hspec. rewrite <- Hspec.
  unfold CrossPoint_Apply_with. rewrite Hh. cbn [cutGenome Genome].
  change (([0] ++ sortInts points) ++ [len (Genome p1)])
    with (boundaries points (len (Genome p1))).
  rewrite (crossPoint_loop_firstn (boundaries points (len (Genome p1)))
             (Genome p1) (Genome p2) n); [reflexivity|].
  assert (Hn0 : 0 <= len (Genome p1)) by (unfold len; lia).
  eapply Forall_impl; [|exact (boundaries_range points _ Hn0 Hrange)].
  cbn. unfold len, n. intros; lia.
Qed.

(** ** CrossPMX: lookup and swap *)

Lemma value_eqb_token (v w : value F) :
  is_token v = true -> (value_eqb v w = true <-> v = w).
Proof.
  destruct v, w; cbn; intros Htok; try discriminate;
    try (split; [discriminate|intros H; discriminate H]).
  - tauto.
  - rewrite Z.eqb_eq. split; [now intros ->|now intros [= ->]].
  - rewrite String.eqb_eq. split; [now intros ->|now intros [= ->]].
Qed.

(** [getIndex] finds the first position of a present token. *)
Lemma getIndexFrom_spec (y : value F) (l : list (value F)) :
  Forall (fun v => is_token v = true) l -> In y l ->
  forall i, exists a : nat,
      getIndexFrom i y l = i + Z.of_nat a
      /\ nth_error l a = Some y
      /\ forall k, (k < a)%nat -> nth_error l k <> Some y.
Proof.
  induction 1 as [|v l Hv Hl IH]; intros Hin i; [destruct Hin|].
  cbn [getIndexFrom].
  destruct (value_eqb v y) eqn:E.
  - apply (value_eqb_token v y Hv) in E. subst v.
    exists 0%nat. repeat split; [lia|]. intros k Hk. lia.
  - assert (Hne : v <> y).
    { intros ->. rewrite (proj2 (value_eqb_token y y Hv) eq_refl) in E. discriminate. }
    destruct Hin as [->|Hin]; [contradiction|].
    destruct (IH Hin (i + 1)) as (a & Ha & Hnth & Hfirst).
    exists (S a). repeat split.
    + rewrite Ha. lia.
    + exact Hnth.
    + intros [|k] Hk; cbn.
      * intros [= ->]. contradiction.
      * apply Hfirst. lia.
Qed.

(** Exchanging the contents of two positions permutes the slice. *)
Lemma swap_Permutation {A : Type} (l : list A) (i a : nat) (x y : A) :
  (i < a)%nat -> nth_error l i = Some x -> nth_error l a = Some y ->
  Permutation (update (update l a x) i y) l.
Proof.
  intros Hia Hx Hy.
  destruct (nth_error_split l i Hx) as (l1 & l2' & Hl & Hl1).
  assert (Hy' : nth_error l2' (a - i - 1) = Some y).
  { rewrite Hl in Hy. rewrite nth_error_app2 in Hy by lia.
    rewrite Hl1 in Hy.
    replace (a - i)%nat with (S (a - i - 1)) in Hy by lia. exact Hy. }
  destruct (nth_error_split l2' _ Hy') as (l2 & l3 & Hl2' & Hl2).
  subst l2'. subst l.
  assert (Ha : a = length (l1 ++ x :: l2)).
  { rewrite length_app. cbn. lia. }
  assert (E : update (l1 ++ x :: l2 ++ y :: l3) a x = l1 ++ x :: l2 ++ x :: l3).
  { rewrite Ha.
    change (l1 ++ x :: l2 ++ y :: l3) with (l1 ++ (x :: l2) ++ y :: l3).
    rewrite app_assoc, update_middle, <- app_assoc. reflexivity. }
  rewrite E, <- Hl1, update_middle.
  apply Permutation_app_head.
  rewrite <- !Permutation_middle. apply perm_swap.
Qed.

(** One half of an iteration of the PMX loop: the value [y] of the other
    parent is brought to position [i]; the positions before [i] stay. *)
Lemma pmxSwap_spec (g o : list (value F)) (i : nat) (y : value F) :
  nth_error g i = Some y ->
  Forall (fun v => is_token v = true) o -> In y o ->
  (i < length o)%nat ->
  (forall k, (k < i)%nat -> nth_error o k <> Some y) ->
  exists o', pmxSwap g o (Z.of_nat i) = Ok o'
             /\ Permutation o' o
             /\ nth_error o' i = Some y
             /\ forall k, (k < i)%nat -> nth_error o' k = nth_error o k.
Proof.
  intros Hy Htok Hin Hi Hbefore.
  destruct (getIndexFrom_spec y o Htok Hin 0) as (a & Ha & Hnth & Hfirst).
  assert (Hia : (i <= a)%nat).
  { destruct (Nat.le_gt_cases i a) as [H|H]; [exact H|].
    exfalso. exact (Hbefore a H Hnth). }
  assert (Hal : (a < length o)%nat) by (apply nth_error_Some; congruence).
  destruct (nth_error_lt o i Hi) as (x & Hx).
  unfold pmxSwap.
  rewrite (bind_Ok _ _ _ (index_Ok g i y Hy)).
  unfold getIndex. rewrite Ha. cbn [Z.add].
  rewrite (bind_Ok _ _ _ (index_Ok o i x Hx)).
  rewrite (bind_Ok _ _ _ (index_Ok g i y Hy)).
  rewrite (bind_Ok _ _ _ (setIndex_Ok o a x Hal)).
  rewrite setIndex_Ok by (rewrite length_update; assumption).
  eexists. split; [reflexivity|]. split; [|split].
  - destruct (Nat.eq_dec a i) as [->|Hne].
    + assert (x = y) by congruence. subst x.
      replace (update (update o i y) i y) with o; [reflexivity|].
      apply nth_error_ext.
      * now rewrite !length_update by (rewrite ?length_update; assumption).
      * intros k Hk.
        rewrite !nth_error_update by (rewrite ?length_update; assumption).
        destruct (Nat.eqb_spec k i) as [->|]; congruence.
    + apply swap_Permutation; [lia|assumption|assumption].
  - rewrite nth_error_update by (rewrite length_update; assumption).
    now rewrite Nat.eqb_refl.
  - intros k Hk.
    rewrite !nth_error_update by (rewrite ?length_update; assumption).
    destruct (Nat.eqb_spec k i); [lia|].
    destruct (Nat.eqb_spec k a); [lia|]. reflexivity.
Qed.

(** ** CrossPMX: the loop *)

Lemma crossPMX_step (g o h : list (value F)) (j : nat) :
  Forall (fun v => is_token v = true) g -> NoDup g ->
  Permutation o h -> Permutation h g ->
  (j < length g)%nat ->
  (forall k, (k < j)%nat -> nth_error o k = nth_error g k) ->
  exists o', pmxSwap g o (Z.of_nat j) = Ok o'
             /\ Permutation o' h
             /\ forall k, (k < S j)%nat -> nth_error o' k = nth_error g k.
Proof.
  intros Htok Hnd Hoh Hhg Hj Hdone.
  destruct (nth_error_lt g j Hj) as (y & Hy).
  assert (Hog : Permutation o g) by (etransitivity; eassumption).
  destruct (pmxSwap_spec g o j y Hy) as (o' & Hs & Hp & Hat & Hkeep).
  - eapply Permutation_Forall; [symmetry; exact Hog|exact Htok].
  - eapply Permutation_in; [symmetry; exact Hog|]. eapply nth_error_In; exact Hy.
  - rewrite (Permutation_length Hog). exact Hj.
  - intros k Hk Hko. rewrite (Hdone k Hk) in Hko.
    rewrite NoDup_nth_error in Hnd.
    assert (k = j) by (apply Hnd; [lia|congruence]). lia.
  - exists o'. split; [exact Hs|]. split; [etransitivity; eassumption|].
    intros k Hk. destruct (Nat.eq_dec k j) as [->|Hne].
    + congruence.
    + rewrite Hkeep by lia. apply Hdone. lia.
Qed.

Lemma crossPMX_loop (g1 g2 : list (value F)) (p : nat) :
  Forall (fun v => is_token v = true) g1 -> NoDup g1 -> Permutation g1 g2 ->
  (p <= length g1)%nat ->
  exists o1 o2,
    forLoop p 0 (crossPMXBody g1 g2) (g1, g2) = Ok (o1, o2)
    /\ Permutation o1 g1 /\ Permutation o2 g2
    /\ forall k, (k < p)%nat ->
                 nth_error o1 k = nth_error g2 k /\ nth_error o2 k = nth_error g1 k.
Proof.
  intros Htok Hnd Hperm Hp.
  assert (Htok2 : Forall (fun v => is_token v = true) g2)
    by (eapply Permutation_Forall; eassumption).
  assert (Hnd2 : NoDup g2) by (eapply Permutation_NoDup; eassumption).
  pose proof (Permutation_length Hperm) as Hlen.
  destruct (forLoop_inv (crossPMXInv g1 g2) (crossPMXBody g1 g2) p 0 (g1, g2))
    as ([o1 o2] & Hloop & Hinv).
  - cbn. repeat split; try reflexivity; lia.
  - intros i [o1 o2] Hi (H1 & H2 & Hdone).
    remember (Z.to_nat i) as j eqn:Hj.
    assert (Hij : i = Z.of_nat j) by lia. subst i. clear Hj.
    destruct (crossPMX_step g2 o1 g1 j) as (o1' & Hs1 & Hp1 & Hd1);
      [assumption|assumption|assumption|assumption|lia| |].
    { intros k Hk. apply Hdone. lia. }
    destruct (crossPMX_step g1 o2 g2 j) as (o2' & Hs2 & Hp2 & Hd2);
      [assumption|assumption|assumption|now symmetry|lia| |].
    { intros k Hk. apply Hdone. lia. }
    unfold crossPMXBody.
    rewrite (bind_Ok _ _ _ Hs1), (bind_Ok _ _ _ Hs2).
    eexists. split; [reflexivity|].
    cbn. repeat split; try assumption.
    + apply Hd1. lia.
    + apply Hd2. lia.
  - exists o1, o2. destruct Hinv as (H1 & H2 & Hdone).
    repeat split; try assumption.
    + apply Hdone. lia.
    + apply Hdone. lia.
Qed.

(** [CrossPMX.Apply] on two permutations of one set of at least three
    tokens: the point is interior, the call returns, both offspring are
    permutations of the parents, and the prefix before the point is the
    other parent's. *)
Lemma CrossPMX_Apply_spec (c : CrossPMX) (p1 p2 : Individual F) (rng : Rand F) :
  3 <= len (Genome p1) ->
  forallb is_token (Genome p1) = true ->
  NoDup (Genome p1) -> Permutation (Genome p1) (Genome p2) ->
  exists (p : nat) (g1 g2 : list (value F)),
    pmxPoint (len (Genome p1)) rng = Ok (Z.of_nat p, advance rng)
    /\ 0 < Z.of_nat p < len (Genome p1) - 1
    /\ CrossPMX_Apply c p1 p2 rng =
       Ok ({| Genome := g1; fitnessValid := false |},
           {| Genome := g2; fitnessValid := false |}, advance rng)
    /\ Permutation g1 (Genome p1) /\ Permutation g2 (Genome p2)
    /\ forall k, (k < p)%nat ->
                 nth_error g1 k = nth_error (Genome p2) k
                 /\ nth_error g2 k = nth_error (Genome p1) k.
Proof.
  intros Hn Htok Hnd Hperm.
  assert (Htok' : Forall (fun v => is_token v = true) (Genome p1))
    by (apply Forall_forall; apply forallb_forall; exact Htok).
  pose proof (Permutation_length Hperm) as Hlen.
  destruct (Intn_range rng (len (Genome p1) - 2) ltac:(lia)) as (v & Hv & Hvr).
  set (p := Z.to_nat (v + 1)).
  assert (Hpz : v + 1 = Z.of_nat p) by (unfold p; lia).
  destruct (crossPMX_loop (Genome p1) (Genome p2) p Htok' Hnd Hperm)
    as (g1 & g2 & Hloop & Hp1 & Hp2 & Hpre).
  { unfold len in *. lia. }
  exists p, g1, g2.
  assert (Hpoint : pmxPoint (len (Genome p1)) rng = Ok (Z.of_nat p, advance rng)).
  { unfold pmxPoint. rewrite (bind_Ok _ _ _ Hv). now rewrite Hpz. }
  split; [exact Hpoint|]. split; [lia|]. split; [|auto].
  unfold CrossPMX_Apply. rewrite (bind_Ok _ _ _ Hpoint).
  unfold makeIndividual. cbn [Genome fitnessValid].
  rewrite !copy_same_length
    by (rewrite repeat_length; unfold len; lia).
  rewrite Nat2Z.id, (bind_Ok _ _ _ Hloop). reflexivity.
Qed.

(** ** CrossUniformF: the loop *)

Lemma float64_gene (g : list (value F)) (k : nat) :
  forallb is_float64 g = true -> (k < length g)%nat ->
  exists x, nth_error g k = Some (Float x).
Proof.
  intros Hall Hk. destruct (nth_error_lt g k Hk) as (v & Hv).
  rewrite forallb_forall in Hall.
  pose proof (Hall v (nth_error_In _ _ Hv)) as Hf.
  destruct v; try discriminate. eauto.
Qed.

(** [CrossUniformF.Apply] on two float64 genomes of one length returns; the
    gene at position [k] of each offspring is the blend of the parents' genes
    at [k] weighted by the [k]-th value drawn from the source. *)
Lemma CrossUniformF_Apply_spec (cross : CrossUniformF) (p1 p2 : Individual F)
  (rng : Rand F) :
  length (Genome p2) = length (Genome p1) ->
  forallb is_float64 (Genome p1) = true ->
  forallb is_float64 (Genome p2) = true ->
  exists o1 o2 : list (value F),
    CrossUniformF_Apply cross p1 p2 rng =
    Ok ({| Genome := o1; fitnessValid := false |},
        {| Genome := o2; fitnessValid := false |},
        Nat.iter (length (Genome p1)) advance rng)
    /\ length o1 = length (Genome p1) /\ length o2 = length (Genome p1)
    /\ forall k a b,
        nth_error (Genome p1) k = Some (Float a) ->
        nth_error (Genome p2) k = Some (Float b) ->
        let p := nthFloat64 k rng in
        nth_error o1 k = Some (Float (fadd (fmul p a) (fmul (fsub fone p) b)))
        /\ nth_error o2 k = Some (Float (fadd (fmul (fsub fone p) a) (fmul p b))).
Proof.
  intros Hlen Hf1 Hf2.
  set (g1 := Genome p1) in *. set (g2 := Genome p2) in *.
  destruct (forLoop_inv (crossUniformFInv g1 g2 rng) (crossUniformFBody g1 g2)
              (length g1) 0
              (repeat Nil (length g1), repeat Nil (length g1), rng))
    as ([[o1 o2] r] & Hloop & Hinv).
  - cbn. rewrite !repeat_length. repeat split; intros; lia.
  - intros i [[o1 o2] r] Hi (Ho1 & Ho2 & Hr & Hdone).
    remember (Z.to_nat i) as j eqn:Hj.
    assert (Hij : i = Z.of_nat j) by lia. subst i. clear Hj.
    destruct (float64_gene g1 j Hf1 ltac:(lia)) as (x1 & Hx1).
    destruct (float64_gene g2 j Hf2 ltac:(lia)) as (x2 & Hx2).
    unfold crossUniformFBody, Float64.
    rewrite (index_Ok g1 j _ Hx1), (index_Ok g2 j _ Hx2).
    cbn [assertFloat64 bind].
    rewrite (setIndex_Ok o1) by lia. cbn [bind].
    rewrite (setIndex_Ok o2) by lia. cbn [bind].
    eexists. split; [reflexivity|].
    assert (Hp : floats r (pos r) = nthFloat64 j rng).
    { rewrite nthFloat64_tape, Hr.
      destruct (iter_advance_pos j rng) as (Hpos & _ & Hfl). now rewrite Hfl, Hpos. }
    unfold crossUniformFInv.
    rewrite !length_update by lia.
    replace (Z.to_nat (Z.of_nat j + 1)) with (S j) by lia.
    split; [exact Ho1|]. split; [exact Ho2|]. split; [now rewrite Hr|].
    intros k a b Hk Ha Hb.
    rewrite !nth_error_update by lia.
    destruct (Nat.eqb_spec k j) as [->|Hne].
    + rewrite Hx1 in Ha. rewrite Hx2 in Hb.
      injection Ha as <-. injection Hb as <-.
      rewrite Hp. split; reflexivity.
    + apply Hdone; [lia|assumption|assumption].
  - destruct Hinv as (Ho1 & Ho2 & Hr & Hdone).
    exists o1, o2. split; [|split; [exact Ho1|split; [exact Ho2|]]].
    + unfold CrossUniformF_Apply, makeIndividual. cbn [Genome fitnessValid].
      fold g1 g2. unfold len. rewrite !Nat2Z.id, (bind_Ok _ _ _ Hloop).
      rewrite Hr. now replace (Z.to_nat (0 + Z.of_nat (length g1))) with (length g1) by lia.
    + intros k a b Ha Hb. apply Hdone; [|assumption|assumption].
      assert (k < length g1)%nat by (apply nth_error_Some; congruence). lia.
Qed.

(** * The claims *)

Lemma firstCut_nil (n : nat) : firstCut [] (Z.of_nat n) = n.
Proof. unfold firstCut. cbn. apply Nat2Z.id. Qed.

Lemma cut_at_length {A : Type} (g g' : list A) :
  length g' = length g -> firstn (length g) g ++ skipn (length g) g' = g.
Proof.
  intros H. rewrite firstn_all, <- H, skipn_all. apply app_nil_r.
Qed.

(** C2 (amended): [CrossPoint.Apply] checks none of its preconditions and
    has no error result.  The error of [randomInts] is assigned to the blank
    identifier: the outcome is the same whatever error comes back, so asking
    for more points than there are positions is never reported as such.  The
    genome lengths are never compared: whenever the points handed back lie
    inside parent1's genome (what section 4.2 promises for a request that
    can be met) and parent2 is at least as long as parent1, longer included,
    the call returns two offspring of parent1's length, complementary at
    every position between parent1 and the first genes of parent2, and no
    failure reaches the caller. *)
Theorem C2_preconditions_not_checked
  (helper : Z -> Z -> Z -> Rand F -> (list Z * option error) * Rand F)
  (cross : CrossPoint) (p1 p2 : Individual F) (rng : Rand F)
  (points : list Z) (err : option error) (rng' : Rand F) :
  helper (NbPoints cross) 0 (len (Genome p1)) rng = ((points, err), rng') ->
  Forall (fun x => 0 <= x < len (Genome p1)) points ->
  (length (Genome p1) <= length (Genome p2))%nat ->
  (forall err' : option error,
      CrossPoint_Apply_with (withError err' helper) cross p1 p2 rng
      = CrossPoint_Apply_with helper cross p1 p2 rng)
  /\ exists o1 o2,
      CrossPoint_Apply_with helper cross p1 p2 rng = Ok (o1, o2, rng')
      /\ length (Genome o1) = length (Genome p1)
      /\ length (Genome o2) = length (Genome p1)
      /\ forall k, (k < length (Genome p1))%nat ->
          (nth_error (Genome o1) k = nth_error (Genome p1) k
           /\ nth_error (Genome o2) k = nth_error (Genome p2) k)
          \/ (nth_error (Genome o1) k = nth_error (Genome p2) k
              /\ nth_error (Genome o2) k = nth_error (Genome p1) k).
Proof.
  intros Hh Hrange Hlen. split.
  - intros err'. apply CrossPoint_Apply_withError.
  - eexists _, _. split;
      [apply (CrossPoint_Apply_with_longer helper cross p1 p2 rng points err rng'
                Hh Hrange Hlen)|].
    cbn [Genome].
    set (n := length (Genome p1)).
    set (g2 := firstn n (Genome p2)).
    assert (Hg2 : length g2 = length (Genome p1))
      by (unfold g2, n; rewrite length_firstn; lia).
    pose proof (firstCut_le points n Hrange) as Hc.
    fold (len (Genome p1)) in Hc.
    split; [apply length_cut; assumption|].
    split; [rewrite length_cut; [exact Hg2|now symmetry|rewrite Hg2; exact Hc]|].
    intros k Hk.
    rewrite (nth_error_cut (Genome p1) g2) by assumption.
    rewrite (nth_error_cut g2 (Genome p1)) by (rewrite ?Hg2; auto).
    assert (E : nth_error g2 k = nth_error (Genome p2) k).
    { unfold g2. now rewrite nth_error_firstn, (proj2 (Nat.ltb_lt k n) Hk). }
    rewrite E.
    destruct (Nat.ltb k (firstCut points (len (Genome p1)))); [left|right]; auto.
Qed.

(** C3: for two parents whose genomes are permutations of one set of
    values (at least three, so that an interior point exists; tokens, on
    which [==] is identity), [CrossPMX.Apply] returns, whatever point the
    source draws, and both offspring genomes are permutations of that set:
    the same values, none duplicated, none missing. *)
Theorem C3_pmx_offspring_are_permutations
  (c : CrossPMX) (p1 p2 : Individual F) (rng : Rand F) :
  3 <= len (Genome p1) ->
  forallb is_token (Genome p1) = true ->
  NoDup (Genome p1) -> Permutation (Genome p1) (Genome p2) ->
  exists o1 o2 rng',
    CrossPMX_Apply c p1 p2 rng = Ok (o1, o2, rng')
    /\ Permutation (Genome o1) (Genome p1) /\ NoDup (Genome o1)
    /\ Permutation (Genome o2) (Genome p1) /\ NoDup (Genome o2).
Proof.
  intros Hn Htok Hnd Hperm.
  destruct (CrossPMX_Apply_spec c p1 p2 rng Hn Htok Hnd Hperm)
    as (p & g1 & g2 & _ & _ & Happ & Hp1 & Hp2 & _).
  eexists _, _, _. split; [exact Happ|]. cbn [Genome].
  assert (Hp2' : Permutation g2 (Genome p1))
    by (etransitivity; [exact Hp2|now symmetry]).
  repeat split; try assumption.
  - eapply Permutation_NoDup; [symmetry; exact Hp1|exact Hnd].
  - eapply Permutation_NoDup; [symmetry; exact Hp2'|exact Hnd].
Qed.

(** C4: under the same conditions, with [p] the crossover point drawn by
    [CrossPMX.Apply], offspring1 holds parent2's values and offspring2 holds
    parent1's values at every position of [[0, p)]. *)
Theorem C4_pmx_prefix_from_other_parent
  (c : CrossPMX) (p1 p2 : Individual F) (rng : Rand F) :
  3 <= len (Genome p1) ->
  forallb is_token (Genome p1) = true ->
  NoDup (Genome p1) -> Permutation (Genome p1) (Genome p2) ->
  exists p o1 o2 rng',
    pmxPoint (len (Genome p1)) rng = Ok (p, rng')
    /\ CrossPMX_Apply c p1 p2 rng = Ok (o1, o2, rng')
    /\ forall k : nat, Z.of_nat k < p ->
         nth_error (Genome o1) k = nth_error (Genome p2) k
         /\ nth_error (Genome o2) k = nth_error (Genome p1) k.
Proof.
  intros Hn Htok Hnd Hperm.
  destruct (CrossPMX_Apply_spec c p1 p2 rng Hn Htok Hnd Hperm)
    as (p & g1 & g2 & Hpt & _ & Happ & _ & _ & Hpre).
  eexists _, _, _, _. split; [exact Hpt|]. split; [exact Happ|].
  intros k Hk. cbn [Genome]. apply Hpre. lia.
Qed.

(** C5: for two float64 parents of one length, [CrossUniformF.Apply]
    returns, and at every gene position [k], with [p] the value of the
    [k]-th call of [rng.Float64()] (one fresh call per position, none
    shared), offspring1[k] = p*parent1[k] + (1-p)*parent2[k] and
    offspring2[k] = (1-p)*parent1[k] + p*parent2[k]. *)
Theorem C5_uniformF_blend_per_position
  (cross : CrossUniformF) (p1 p2 : Individual F) (rng : Rand F) :
  length (Genome p2) = length (Genome p1) ->
  forallb is_float64 (Genome p1) = true ->
  forallb is_float64 (Genome p2) = true ->
  exists o1 o2 rng',
    CrossUniformF_Apply cross p1 p2 rng = Ok (o1, o2, rng')
    /\ pos rng' = (pos rng + length (Genome p1))%nat
    /\ forall k a b,
        nth_error (Genome p1) k = Some (Float a) ->
        nth_error (Genome p2) k = Some (Float b) ->
        let p := nthFloat64 k rng in
        nth_error (Genome o1) k
          = Some (Float (fadd (fmul p a) (fmul (fsub fone p) b)))
        /\ nth_error (Genome o2) k
          = Some (Float (fadd (fmul (fsub fone p) a) (fmul p b))).
Proof.
  intros Hlen Hf1 Hf2.
  destruct (CrossUniformF_Apply_spec cross p1 p2 rng Hlen Hf1 Hf2)
    as (o1 & o2 & Happ & _ & _ & Hgenes).
  eexists _, _, _. split; [exact Happ|]. split.
  - apply iter_advance_pos.
  - exact Hgenes.
Qed.

(** C7: on valid parents of one length, every strategy returns offspring
    whose genomes have the parents' length: [CrossPoint] (whatever
    [NbPoints]), [CrossUniformF] (float64 genes) and [CrossPMX] (permutations
    of at least three tokens). *)
Theorem C7_offspring_length
  (cp : CrossPoint) (cu : CrossUniformF) (cx : CrossPMX)
  (a1 a2 b1 b2 c1 c2 : Individual F) (rng : Rand F) :
  length (Genome a2) = length (Genome a1) ->
  length (Genome b2) = length (Genome b1) ->
  forallb is_float64 (Genome b1) = true ->
  forallb is_float64 (Genome b2) = true ->
  3 <= len (Genome c1) ->
  forallb is_token (Genome c1) = true ->
  NoDup (Genome c1) -> Permutation (Genome c1) (Genome c2) ->
  (exists o1 o2 rng',
      CrossPoint_Apply cp a1 a2 rng = Ok (o1, o2, rng')
      /\ length (Genome o1) = length (Genome a1)
      /\ length (Genome o2) = length (Genome a2))
  /\ (exists o1 o2 rng',
      CrossUniformF_Apply cu b1 b2 rng = Ok (o1, o2, rng')
      /\ length (Genome o1) = length (Genome b1)
      /\ length (Genome o2) = length (Genome b2))
  /\ (exists o1 o2 rng',
      CrossPMX_Apply cx c1 c2 rng = Ok (o1, o2, rng')
      /\ length (Genome o1) = length (Genome c1)
      /\ length (Genome o2) = length (Genome c2)).
Proof.
  intros Ha Hb Hb1 Hb2 Hc Htok Hnd Hperm. split; [|split].
  - eexists _, _, _. split; [apply (CrossPoint_Apply_spec cp a1 a2 rng Ha)|].
    cbn [Genome].
    pose proof (randomInts_range (NbPoints cp) 0 (len (Genome a1)) rng) as Hr.
    set (points := fst (fst (randomInts (NbPoints cp) 0 (len (Genome a1)) rng))) in *.
    assert (Hcut : (firstCut points (len (Genome a1)) <= length (Genome a1))%nat).
    { assert (Hn0 : 0 <= len (Genome a1)) by (unfold len; lia).
      pose proof (boundaries_range points _ Hn0 Hr) as Hall.
      rewrite Forall_forall in Hall.
      pose proof (Hall _ (nth_error_In _ _ (boundaries_second points _))) as Hb'.
      unfold firstCut, len in *. lia. }
    split.
    + apply length_cut; assumption.
    + rewrite length_cut; [reflexivity|now symmetry|lia].
  - destruct (CrossUniformF_Apply_spec cu b1 b2 rng Hb Hb1 Hb2)
      as (o1 & o2 & Happ & Hl1 & Hl2 & _).
    eexists _, _, _. split; [exact Happ|]. cbn [Genome]. split; congruence.
  - destruct (CrossPMX_Apply_spec cx c1 c2 rng Hc Htok Hnd Hperm)
      as (p & g1 & g2 & _ & _ & Happ & Hp1 & Hp2 & _).
    eexists _, _, _. split; [exact Happ|]. cbn [Genome].
    split; apply Permutation_length; assumption.
Qed.

(** C8: with [NbPoints = 0] and two parents of one length,
    [CrossPoint.Apply] copies a single segment spanning the whole genome:
    offspring1's genome is parent1's and offspring2's genome is parent2's. *)
Theorem C8_no_point_copies_parents
  (cross : CrossPoint) (p1 p2 : Individual F) (rng : Rand F) :
  NbPoints cross = 0 ->
  length (Genome p2) = length (Genome p1) ->
  boundaries (fst (fst (randomInts (NbPoints cross) 0 (len (Genome p1)) rng)))
             (len (Genome p1)) = [0; len (Genome p1)]
  /\ exists o1 o2 rng',
      CrossPoint_Apply cross p1 p2 rng = Ok (o1, o2, rng')
      /\ Genome o1 = Genome p1 /\ Genome o2 = Genome p2.
Proof.
  intros Hk Hlen.
  assert (Hr : randomInts (NbPoints cross) 0 (len (Genome p1)) rng = (([], None), rng)).
  { rewrite Hk. unfold randomInts.
    destruct (Z.gtb_spec 0 (len (Genome p1) - 0)); [unfold len in *; lia|].
    reflexivity. }
  split; [now rewrite Hr|].
  eexists _, _, _. split; [apply (CrossPoint_Apply_spec cross p1 p2 rng Hlen)|].
  rewrite Hr. cbn [fst snd Genome]. unfold len. rewrite firstCut_nil.
  split.
  - apply cut_at_length; assumption.
  - rewrite <- Hlen. apply cut_at_length. now symmetry.
Qed.

(** C9: on a genome of at least three genes [CrossPMX.Apply] draws its
    crossover point [p] with [0 < p < genomeLength - 1]; on a genome of
    fewer than three genes the call fails (the panic of [rng.Intn] on a
    non-positive argument) and returns no offspring. *)
Theorem C9_pmx_point_interior_or_failure
  (c : CrossPMX) (p1 p2 q1 q2 : Individual F) (rng : Rand F) :
  3 <= len (Genome p1) ->
  len (Genome q1) < 3 ->
  (exists p rng',
      pmxPoint (len (Genome p1)) rng = Ok (p, rng')
      /\ 0 < p < len (Genome p1) - 1
      /\ CrossPMX_Apply c p1 p2 rng =
         '(g1, g2) <- forLoop (Z.to_nat p) 0
                        (crossPMXBody (Genome p1) (Genome p2))
                        (copy (repeat Nil (length (Genome p1))) (Genome p1),
                         copy (repeat Nil (length (Genome p1))) (Genome p2)) ;;
         Ok ({| Genome := g1; fitnessValid := false |},
             {| Genome := g2; fitnessValid := false |}, rng'))
  /\ CrossPMX_Apply c q1 q2 rng = Panic IntnArg.
Proof.
  intros Hp Hq. split.
  - destruct (Intn_range rng (len (Genome p1) - 2) ltac:(lia)) as (v & Hv & Hvr).
    assert (Hpt : pmxPoint (len (Genome p1)) rng = Ok (v + 1, advance rng))
      by (unfold pmxPoint; now rewrite (bind_Ok _ _ _ Hv)).
    exists (v + 1), (advance rng). split; [exact Hpt|]. split; [lia|].
    unfold CrossPMX_Apply. rewrite (bind_Ok _ _ _ Hpt).
    unfold makeIndividual. cbn [Genome fitnessValid].
    unfold len. now rewrite Nat2Z.id.
  - unfold CrossPMX_Apply, pmxPoint, Intn.
    destruct (Z.leb_spec (len (Genome q1) - 2) 0); [reflexivity|lia].
Qed.

End GagoFacts.

(** * Concrete runs on float64 genomes *)

(** C1: with [NbPoints = 2] the points drawn here are 1 and 2, the
    boundary markers 0, 1, 2, 4, hence three segments.  Segment 2 (positions
    2 and 3, an even index) must copy parent1 into offspring1; the code
    copies parent2 there, because the switch is never set back to [true]. *)
Example C1_segment_two_copied_from_parent2 :
  boundaries (fst (fst (randomInts 2 0 4 (constRand 1 0%float)))) 4 = [0; 1; 2; 4]
  /\ CrossPoint_Apply {| NbPoints := 2 |} (individual ints4a) (individual ints4b)
       (constRand 1 0%float)
     = Ok ({| Genome := [Int 1; Int 6; Int 7; Int 8]; fitnessValid := false |},
           {| Genome := [Int 5; Int 2; Int 3; Int 4]; fitnessValid := false |},
           {| ints := fun _ => 1; floats := fun _ => 0%float; pos := 2 |}).
Proof. split; reflexivity. Qed.

(** C2 (counterexample): parent1 has three genes and parent2 four, a
    mismatch of genome lengths; one point is asked and the point drawn is 1.
    No failure is reported: the call returns offspring of three genes and
    parent2's last gene is left out. *)
Lemma C2_counterexample :
  length (Genome (individual [Int 1; Int 2; Int 3]))
    <> length (Genome (individual [Int 4; Int 5; Int 6; Int 7]))
  /\ CrossPoint_Apply {| NbPoints := 1 |}
       (individual [Int 1; Int 2; Int 3]) (individual [Int 4; Int 5; Int 6; Int 7])
       (constRand 1 0%float)
     = Ok ({| Genome := [Int 1; Int 5; Int 6]; fitnessValid := false |},
           {| Genome := [Int 4; Int 2; Int 3]; fitnessValid := false |},
           advance (constRand 1 0%float))
  /\ ~ (exists e,
          CrossPoint_Apply {| NbPoints := 1 |}
            (individual [Int 1; Int 2; Int 3])
            (individual [Int 4; Int 5; Int 6; Int 7])
            (constRand 1 0%float) = Panic e).
Proof.
  split; [cbn; lia|]. split; [reflexivity|].
  intros [e He]. discriminate He.
Qed.

Lemma C2_witness :
  (forall err' : option error,
      CrossPoint_Apply_with (withError err' randomInts) {| NbPoints := 1 |}
        (individual [Int 1; Int 2; Int 3]) (individual [Int 4; Int 5; Int 6; Int 7])
        (constRand 1 0%float)
      = CrossPoint_Apply_with randomInts {| NbPoints := 1 |}
          (individual [Int 1; Int 2; Int 3]) (individual [Int 4; Int 5; Int 6; Int 7])
          (constRand 1 0%float))
  /\ exists o1 o2,
      CrossPoint_Apply_with randomInts {| NbPoints := 1 |}
        (individual [Int 1; Int 2; Int 3]) (individual [Int 4; Int 5; Int 6; Int 7])
        (constRand 1 0%float) = Ok (o1, o2, advance (constRand 1 0%float))
      /\ length (Genome o1) = 3%nat
      /\ length (Genome o2) = 3%nat
      /\ forall k, (k < 3)%nat ->
          (nth_error (Genome o1) k = nth_error [Int 1; Int 2; Int 3] k
           /\ nth_error (Genome o2) k = nth_error [Int 4; Int 5; Int 6; Int 7] k)
          \/ (nth_error (Genome o1) k = nth_error [Int 4; Int 5; Int 6; Int 7] k
              /\ nth_error (Genome o2) k = nth_error [Int 1; Int 2; Int 3] k).
Proof.
  apply (C2_preconditions_not_checked randomInts {| NbPoints := 1 |}
           (individual [Int 1; Int 2; Int 3])
           (individual [Int 4; Int 5; Int 6; Int 7])
           (constRand 1 0%float) [1] None (advance (constRand 1 0%float))).
  - reflexivity.
  - constructor; [cbn; lia|constructor].
  - cbn. lia.
Defined.

Lemma NoDup_tour5 : NoDup tour5.
Proof.
  unfold tour5. repeat constructor; cbn; intuition discriminate.
Defined.

Lemma C3_witness :
  exists o1 o2 rng',
    CrossPMX_Apply Build_CrossPMX (individual tour5) (individual (rev tour5))
      (constRand 1 0%float) = Ok (o1, o2, rng')
    /\ Permutation (Genome o1) tour5 /\ NoDup (Genome o1)
    /\ Permutation (Genome o2) tour5 /\ NoDup (Genome o2).
Proof.
  apply (C3_pmx_offspring_are_permutations Build_CrossPMX
           (individual tour5) (individual (rev tour5)) (constRand 1 0%float)).
  - vm_compute. discriminate.
  - reflexivity.
  - exact NoDup_tour5.
  - apply Permutation_rev.
Defined.

Lemma C4_witness :
  exists p o1 o2 rng',
    pmxPoint 5 (constRand 1 0%float) = Ok (p, rng')
    /\ CrossPMX_Apply Build_CrossPMX (individual tour5) (individual (rev tour5))
         (constRand 1 0%float) = Ok (o1, o2, rng')
    /\ forall k : nat, Z.of_nat k < p ->
         nth_error (Genome o1) k = nth_error (rev tour5) k
         /\ nth_error (Genome o2) k = nth_error tour5 k.
Proof.
  apply (C4_pmx_prefix_from_other_parent Build_CrossPMX
           (individual tour5) (individual (rev tour5)) (constRand 1 0%float)).
  - vm_compute. discriminate.
  - reflexivity.
  - exact NoDup_tour5.
  - apply Permutation_rev.
Defined.

Lemma C5_witness :
  exists o1 o2 rng',
    CrossUniformF_Apply Build_CrossUniformF
      (individual [Float 1%float; Float 2%float])
      (individual [Float 3%float; Float 4%float])
      (constRand 0 0.5%float) = Ok (o1, o2, rng')
    /\ pos rng' = 2%nat
    /\ forall k a b,
        nth_error [Float 1%float; Float 2%float] k = Some (Float a) ->
        nth_error [Float 3%float; Float 4%float] k = Some (Float b) ->
        let p := nthFloat64 k (constRand 0 0.5%float) in
        nth_error (Genome o1) k
          = Some (Float (fadd (fmul p a) (fmul (fsub fone p) b)))
        /\ nth_error (Genome o2) k
          = Some (Float (fadd (fmul (fsub fone p) a) (fmul p b))).
Proof.
  apply (C5_uniformF_blend_per_position Build_CrossUniformF
           (individual [Float 1%float; Float 2%float])
           (individual [Float 3%float; Float 4%float])
           (constRand 0 0.5%float)).
  - reflexivity.
  - reflexivity.
  - reflexivity.
Defined.

(** C6: both parents carry the gene 0.1 and the draw is 0.3, a value of
    [[0, 1)].  The interval spanned by the parents is the single point 0.1;
    in float64, 0.3*0.1 + 0.7*0.1 is 0.09999999999999999, so both offspring
    genes are below it, outside the hyper-rectangle that the comment above
    [CrossUniformF] promises. *)
Example C6_blend_below_both_parents :
  exists x y rng',
    CrossUniformF_Apply Build_CrossUniformF
      (individual [Float f0_1]) (individual [Float f0_1]) (constRand 0 f0_3)
    = Ok ({| Genome := [Float x]; fitnessValid := false |},
          {| Genome := [Float y]; fitnessValid := false |}, rng')
    /\ PrimFloat.leb 0%float f0_3 = true /\ PrimFloat.ltb f0_3 1%float = true
    /\ PrimFloat.ltb x f0_1 = true /\ PrimFloat.ltb y f0_1 = true.
Proof.
  eexists _, _, _. split; [vm_compute; reflexivity|].
  repeat split; vm_compute; reflexivity.
Qed.

(** C10 (counterexample): genes 0.1 and 0.2 with the draw 0.3.  In float64
    the offspring genes are 0.16999999999999998 and 0.13, whose sum is 0.3,
    while 0.1 + 0.2 is 0.30000000000000004. *)
Lemma C10_counterexample :
  exists x y rng',
    CrossUniformF_Apply Build_CrossUniformF
      (individual [Float f0_1]) (individual [Float f0_2]) (constRand 0 f0_3)
    = Ok ({| Genome := [Float x]; fitnessValid := false |},
          {| Genome := [Float y]; fitnessValid := false |}, rng')
    /\ PrimFloat.eqb (PrimFloat.add x y) (PrimFloat.add f0_1 f0_2) = false.
Proof.
  eexists _, _, _. split; [vm_compute; reflexivity|].
  vm_compute. reflexivity.
Qed.

Lemma C7_witness :
  (exists o1 o2 rng',
      CrossPoint_Apply {| NbPoints := 2 |} (individual ints4a) (individual ints4b)
        (constRand 1 0%float) = Ok (o1, o2, rng')
      /\ length (Genome o1) = 4%nat /\ length (Genome o2) = 4%nat)
  /\ (exists o1 o2 rng',
      CrossUniformF_Apply Build_CrossUniformF
        (individual [Float 1%float; Float 2%float])
        (individual [Float 3%float; Float 4%float])
        (constRand 1 0%float) = Ok (o1, o2, rng')
      /\ length (Genome o1) = 2%nat /\ length (Genome o2) = 2%nat)
  /\ (exists o1 o2 rng',
      CrossPMX_Apply Build_CrossPMX (individual tour5) (individual (rev tour5))
        (constRand 1 0%float) = Ok (o1, o2, rng')
      /\ length (Genome o1) = 5%nat /\ length (Genome o2) = 5%nat).
Proof.
  apply (C7_offspring_length {| NbPoints := 2 |} Build_CrossUniformF Build_CrossPMX
           (individual ints4a) (individual ints4b)
           (individual [Float 1%float; Float 2%float])
           (individual [Float 3%float; Float 4%float])
           (individual tour5) (individual (rev tour5)) (constRand 1 0%float)).
  - reflexivity.
  - reflexivity.
  - reflexivity.
  - reflexivity.
  - vm_compute. discriminate.
  - reflexivity.
  - exact NoDup_tour5.
  - apply Permutation_rev.
Defined.

Lemma C8_witness :
  boundaries (fst (fst (randomInts 0 0 3 (constRand 1 0%float)))) 3 = [0; 3]
  /\ exists o1 o2 rng',
      CrossPoint_Apply {| NbPoints := 0 |}
        (individual [Int 1; Int 2; Int 3]) (individual [Int 4; Int 5; Int 6])
        (constRand 1 0%float) = Ok (o1, o2, rng')
      /\ Genome o1 = [Int 1; Int 2; Int 3] /\ Genome o2 = [Int 4; Int 5; Int 6].
Proof.
  apply (C8_no_point_copies_parents {| NbPoints := 0 |}
           (individual [Int 1; Int 2; Int 3]) (individual [Int 4; Int 5; Int 6])
           (constRand 1 0%float)).
  - reflexivity.
  - reflexivity.
Defined.

Lemma C9_witness :
  (exists p rng',
      pmxPoint 5 (constRand 1 0%float) = Ok (p, rng')
      /\ 0 < p < 5 - 1
      /\ CrossPMX_Apply Build_CrossPMX (individual tour5) (individual (rev tour5))
           (constRand 1 0%float) =
         '(g1, g2) <- forLoop (Z.to_nat p) 0
                        (crossPMXBody tour5 (rev tour5))
                        (copy (repeat Nil 5) tour5, copy (repeat Nil 5) (rev tour5)) ;;
         Ok ({| Genome := g1; fitnessValid := false |},
             {| Genome := g2; fitnessValid := false |}, rng'))
  /\ CrossPMX_Apply Build_CrossPMX
       (individual [Int 1; Int 2]) (individual [Int 2; Int 1])
       (constRand 1 0%float) = Panic IntnArg.
Proof.
  apply (C9_pmx_point_interior_or_failure Build_CrossPMX
           (individual tour5) (individual (rev tour5))
           (individual [Int 1; Int 2]) (individual [Int 2; Int 1])
           (constRand 1 0%float)).
  - vm_compute. discriminate.
  - reflexivity.
Defined.

(** * float64 arithmetic

    The rounding of [SpecFloat], followed from the mantissa to the real
    number: every operation of [CrossUniformF.Apply] returns the exact result
    up to a relative error of [2^-53], and up to [2^-1075] when a product
    underflows. *)

(** ** The digits of a mantissa *)

Lemma pow2_succ (k : Z) : 0 <= k -> 2 ^ (k + 1) = 2 * 2 ^ k.
Proof. intros Hk. rewrite Z.pow_add_r by lia. lia. Qed.

Lemma pow2_pos (k : Z) : 0 <= k -> 0 < 2 ^ k.
Proof. intros Hk. apply Z.pow_pos_nonneg; lia. Qed.

Lemma digits2_pos_bounds (m : positive) :
  2 ^ (Zpos (digits2_pos m) - 1) <= Zpos m < 2 ^ Zpos (digits2_pos m).
Proof.
  induction m as [m IH|m IH|]; cbn [digits2_pos].
  - rewrite Pos2Z.inj_succ, (Pos2Z.inj_xI m).
    replace (Z.succ (Zpos (digits2_pos m)) - 1) with (Zpos (digits2_pos m) - 1 + 1) by lia.
    replace (Z.succ (Zpos (digits2_pos m))) with (Zpos (digits2_pos m) + 1) by lia.
    rewrite (pow2_succ (Zpos (digits2_pos m) - 1)), (pow2_succ (Zpos (digits2_pos m))) by lia.
    lia.
  - rewrite Pos2Z.inj_succ, (Pos2Z.inj_xO m).
    replace (Z.succ (Zpos (digits2_pos m)) - 1) with (Zpos (digits2_pos m) - 1 + 1) by lia.
    replace (Z.succ (Zpos (digits2_pos m))) with (Zpos (digits2_pos m) + 1) by lia.
    rewrite (pow2_succ (Zpos (digits2_pos m) - 1)), (pow2_succ (Zpos (digits2_pos m))) by lia.
    lia.
  - cbn. lia.
Qed.

(** ** Shifting a mantissa to the right *)

Lemma iter_pos_inv {A : Type} (f : A -> A) (P : Z -> A -> Prop) :
  (forall k x, 0 <= k -> P k x -> P (k + 1) (f x)) ->
  forall (n : positive) (k : Z) (x : A),
    0 <= k -> P k x -> P (k + Zpos n) (SpecFloat.iter_pos f n x).
Proof.
  intros Hstep. induction n as [n IH|n IH|]; intros k x Hk Hx; cbn [SpecFloat.iter_pos].
  - replace (k + Zpos n~1) with (k + 1 + Zpos n + Zpos n) by lia.
    apply IH; [lia|]. apply IH; [lia|]. now apply Hstep.
  - replace (k + Zpos n~0) with (k + Zpos n + Zpos n) by lia.
    apply IH; [lia|]. now apply IH.
  - now apply Hstep.
Qed.

Lemma shr_1_inv (m k : Z) (mrs : shr_record) :
  0 <= k -> shrInv m k mrs -> shrInv m (k + 1) (shr_1 mrs).
Proof.
  intros Hk (Hq & t & Ht & Hs & Hm). destruct mrs as [q r s]. cbn [shr_m shr_r shr_s] in *.
  assert (Hp : 0 < 2 ^ k) by (apply Z.pow_pos_nonneg; lia).
  assert (E : 2 ^ (k + 1) = 2 * 2 ^ k) by (rewrite Z.pow_add_r by lia; lia).
  set (P := 2 ^ k) in *.
  assert (Hs' : orb r s = negb ((if r then P else 0) + t =? 0)).
  { subst s. destruct r; cbn [orb].
    - symmetry. apply negb_true_iff, Z.eqb_neq. lia.
    - reflexivity. }
  unfold shrInv.
  destruct q as [|p|p]; [|destruct p as [p|p|]|lia]; cbn [shr_1 shr_m shr_r shr_s].
  all: split; [lia|]; exists ((if r then P else 0) + t); rewrite E.
  all: split; [destruct r; lia|]; split; [exact Hs'|].
  - lia.
  - rewrite (Pos2Z.inj_xI p) in Hm. lia.
  - rewrite (Pos2Z.inj_xO p) in Hm. lia.
  - lia.
Qed.

Lemma shr_inv (m : Z) (n : positive) :
  0 <= m ->
  shrInv m (Zpos n) (SpecFloat.iter_pos shr_1 n (Build_shr_record m false false)).
Proof.
  intros Hm.
  apply (iter_pos_inv shr_1 (shrInv m) (shr_1_inv m) n 0); [lia|].
  split; [exact Hm|]. exists 0. cbn. repeat split; lia.
Qed.

(** Rounding to nearest after [k] shifts: the rounded quotient is within
    half a unit of the exact one. *)
Lemma round_nearest_even_inv (m k : Z) (mrs : shr_record) :
  0 <= k -> shrInv m k mrs ->
  let m1 := round_nearest_even (shr_m mrs) (loc_of_shr_record mrs) in
  shr_m mrs <= m1 <= shr_m mrs + 1
  /\ shr_m mrs * 2 ^ k <= m
  /\ 2 * Z.abs (m1 * 2 ^ k - m) <= 2 ^ k.
Proof.
  intros Hk (Hq & t & Ht & Hs & Hm). destruct mrs as [q r s]. cbn [shr_m shr_r shr_s] in *.
  assert (Hp : 0 < 2 ^ k) by (apply Z.pow_pos_nonneg; lia).
  set (P := 2 ^ k) in *.
  destruct r, s; cbn [loc_of_shr_record round_nearest_even]; symmetry in Hs.
  - apply negb_true_iff, Z.eqb_neq in Hs. lia.
  - apply negb_false_iff, Z.eqb_eq in Hs. destruct (Z.even q); lia.
  - apply negb_true_iff, Z.eqb_neq in Hs. lia.
  - apply negb_false_iff, Z.eqb_eq in Hs. lia.
Qed.

(** ** Rounding a mantissa to a binary64 number *)

Lemma shr_fexp_eq (m e : Z) :
  shr_fexp prec emax m e loc_Exact
  = shr (Build_shr_record m false false) e
        (Z.max (Zdigits2 m + e - 53) (-1074) - e).
Proof. reflexivity. Qed.

Lemma binary_round_aux_rounded (s : bool) (m : positive) (e : Z) :
  rounded s m e (binary_round_aux prec emax s (Zpos m) e loc_Exact).
Proof.
  unfold binary_round_aux. rewrite shr_fexp_eq. cbn [Zdigits2].
  pose proof (digits2_pos_bounds m) as Hd.
  set (d := Zpos (digits2_pos m)) in *.
  assert (Hd1 : 1 <= d) by (unfold d; lia).
  unfold shr at 1.
  destruct (Z.max (d + e - 53) (-1074) - e) as [|n|n] eqn:En.
  - (* no shift *)
    cbn [shr_m loc_of_shr_record round_nearest_even].
    rewrite shr_fexp_eq. cbn [Zdigits2]. fold d. rewrite En. cbn [shr shr_m].
    change (emax - prec) with 971.
    destruct (Z.leb_spec e 971); [|left; split; [reflexivity|lia]].
    right. exists (Zpos m), e. split; [right; now exists m|].
    split; [lia|]. left. rewrite Z.sub_diag. cbn. lia.
  - (* a shift by n bits *)
    pose proof (shr_inv (Zpos m) n ltac:(lia)) as Hinv.
    set (mrs := SpecFloat.iter_pos shr_1 n _) in *.
    destruct (round_nearest_even_inv (Zpos m) (Zpos n) mrs ltac:(lia) Hinv)
      as (Hm1 & Hq & Herr).
    destruct Hinv as (Hq0 & _).
    set (m1 := round_nearest_even (shr_m mrs) (loc_of_shr_record mrs)) in *.
    set (q := shr_m mrs) in *.
    set (f := e + Zpos n).
    assert (Hf : f = Z.max (d + e - 53) (-1074)) by (unfold f; lia).
    assert (Hpn : 0 < 2 ^ Zpos n) by (apply pow2_pos; lia).
    (* the quotient has at most 53 bits *)
    assert (Hq53 : q < 2 ^ 53).
    { assert (H1 : 2 ^ d <= 2 ^ (Zpos n + 53)) by (apply Z.pow_le_mono_r; lia).
      rewrite Z.pow_add_r in H1 by lia.
      apply (Z.mul_lt_mono_pos_r (2 ^ Zpos n)); lia. }
    (* the error of the quotient *)
    assert (Hbound : Z.abs (m1 * 2 ^ Zpos n - Zpos m) * 2 ^ 53 <= Zpos m
                     \/ (e < -1074
                         /\ 2 * Z.abs (m1 * 2 ^ Zpos n - Zpos m) <= 2 ^ (-1074 - e))).
    { destruct (Z_le_gt_dec (-1074) (d + e - 53)) as [Hn|Hs].
      - left.
        assert (E1 : 2 ^ Zpos n * 2 ^ 53 = 2 * 2 ^ (d - 1)).
        { rewrite <- Z.pow_add_r by lia. rewrite <- pow2_succ by lia.
          f_equal. lia. }
        set (D := Z.abs (m1 * 2 ^ Zpos n - Zpos m)) in *.
        assert (2 * (D * 2 ^ 53) <= 2 ^ Zpos n * 2 ^ 53).
        { replace (2 * (D * 2 ^ 53)) with (2 * D * 2 ^ 53) by lia.
          apply Z.mul_le_mono_nonneg_r; lia. }
        lia.
      - right. split; [lia|]. replace (-1074 - e) with (Zpos n) by lia. exact Herr. }
    rewrite shr_fexp_eq. fold f.
    destruct m1 as [|p1|p1] eqn:Em1; [| |lia].
    + (* rounded to zero *)
      cbn [Zdigits2].
      unfold shr. destruct (Z.max (0 + f - 53) (-1074) - f) as [|n2|n2] eqn:En2;
        [|lia|]; cbn [shr_m]; right; exists 0, f;
        (split; [now left|]); (split; [unfold f; lia|]); right;
        replace (f - e) with (Zpos n) by (unfold f; lia); exact Hbound.
    + (* rounded to a positive mantissa *)
      cbn [Zdigits2].
      pose proof (digits2_pos_bounds p1) as Hd'.
      set (d1 := Zpos (digits2_pos p1)) in *.
      assert (Hp1 : Zpos p1 <= 2 ^ 53) by lia.
      assert (Hd154 : d1 <= 54).
      { destruct (Z_le_gt_dec d1 54) as [H|H]; [exact H|].
        assert (2 ^ 54 <= 2 ^ (d1 - 1)) by (apply Z.pow_le_mono_r; lia).
        assert (2 ^ 54 = 2 * 2 ^ 53) by reflexivity. lia. }
      unfold shr. destruct (Z.max (d1 + f - 53) (-1074) - f) as [|n2|n2] eqn:En2.
      * cbn [shr_m]. change (emax - prec) with 971.
        destruct (Z.leb_spec f 971); [|left; split; [reflexivity|fold d; lia]].
        right. exists (Zpos p1), f. split; [right; now exists p1|].
        split; [unfold f; lia|]. right.
        replace (f - e) with (Zpos n) by (unfold f; lia). exact Hbound.
      * (* the rounding carried into a 54th bit *)
        assert (Hd1' : d1 = 54) by lia.
        assert (Hn2 : n2 = 1%positive) by lia.
        assert (Ep1 : Zpos p1 = 2 ^ 53).
        { assert (2 ^ 53 <= 2 ^ (d1 - 1)) by (apply Z.pow_le_mono_r; lia). lia. }
        subst n2. injection Ep1 as Ep1. subst p1.
        cbn [SpecFloat.iter_pos shr_1 shr_m].
        change (emax - prec) with 971.
        destruct (Z.leb_spec (f + 1) 971); [|left; split; [reflexivity|fold d; lia]].
        right. eexists _, (f + 1). split; [right; eexists; split; reflexivity|].
        split; [unfold f; lia|]. right.
        replace (f + 1 - e) with (Zpos n + 1) by (unfold f; lia).
        rewrite pow2_succ by lia.
        replace (4503599627370496 * (2 * 2 ^ Zpos n))
          with (9007199254740992 * 2 ^ Zpos n) by lia.
        exact Hbound.
      * cbn [shr_m]. change (emax - prec) with 971.
        destruct (Z.leb_spec f 971); [|left; split; [reflexivity|fold d; lia]].
        right. exists (Zpos p1), f. split; [right; now exists p1|].
        split; [unfold f; lia|]. right.
        replace (f - e) with (Zpos n) by (unfold f; lia). exact Hbound.
  - (* no shift *)
    cbn [shr_m loc_of_shr_record round_nearest_even].
    rewrite shr_fexp_eq. cbn [Zdigits2]. fold d. rewrite En. cbn [shr shr_m].
    change (emax - prec) with 971.
    destruct (Z.leb_spec e 971); [|left; split; [reflexivity|lia]].
    right. exists (Zpos m), e. split; [right; now exists m|].
    split; [lia|]. left. rewrite Z.sub_diag. cbn. lia.
Qed.

(** ** The value of a rounded number *)

Section Binary64.

Local Open Scope R_scope.

Lemma pow2R_pos (e : Z) : 0 < powerRZ 2 e.
Proof. apply powerRZ_lt. lra. Qed.

Lemma pow2R_add (a b : Z) : powerRZ 2 (a + b) = powerRZ 2 a * powerRZ 2 b.
Proof. apply powerRZ_add. lra. Qed.

Lemma IZR_pow2 (k : Z) : (0 <= k)%Z -> IZR (2 ^ k) = powerRZ 2 k.
Proof.
  intros Hk. destruct k as [|p|p]; [reflexivity| |lia].
  unfold powerRZ. rewrite pow_IZR. now rewrite positive_nat_Z.
Qed.

Lemma pow2R_le (a b : Z) : (a <= b)%Z -> powerRZ 2 a <= powerRZ 2 b.
Proof.
  intros Hab. replace b with ((b - a) + a)%Z by lia. rewrite pow2R_add.
  rewrite <- (IZR_pow2 (b - a)) by lia.
  assert (H : (1 <= 2 ^ (b - a))%Z) by (pose proof (pow2_pos (b - a) ltac:(lia)); lia).
  apply IZR_le in H. pose proof (pow2R_pos a). nra.
Qed.

Lemma Rabs_sgn (s : bool) : Rabs (sgn s) = 1.
Proof.
  destruct s; cbn [sgn]; unfold Rabs; destruct (Rcase_abs _); lra.
Qed.

Lemma u64_pos : 0 < u64.
Proof. apply pow2R_pos. Qed.

Lemma eta64_pos : 0 < eta64.
Proof. apply pow2R_pos. Qed.

(** The distance between the rounded number and the exact one. *)
Lemma rounded_err (s : bool) (m : positive) (e : Z) (z : spec_float) :
  rounded s m e z -> SFfinite z = true ->
  let v := IZR (Zpos m) * powerRZ 2 e in
  Rabs (SF2R z - sgn s * v) <= u64 * v
  \/ ((e < -1074)%Z /\ Rabs (SF2R z - sgn s * v) <= eta64).
Proof.
  intros [[-> _]|(m' & e' & Hz & He & Hb)] Hfin v; [discriminate|].
  assert (Hval : SF2R z = sgn s * IZR m' * powerRZ 2 e').
  { destruct Hz as [[-> ->]|(p & -> & ->)]; cbn [SF2R]; ring. }
  assert (E : powerRZ 2 e' = IZR (2 ^ (e' - e)) * powerRZ 2 e).
  { rewrite IZR_pow2 by lia. rewrite <- pow2R_add. f_equal. lia. }
  pose proof (pow2R_pos e) as Hpe.
  set (D := Z.abs (m' * 2 ^ (e' - e) - Zpos m)) in *.
  assert (Herr : Rabs (SF2R z - sgn s * v) = IZR D * powerRZ 2 e).
  { rewrite Hval, E. unfold v, D.
    replace (sgn s * IZR m' * (IZR (2 ^ (e' - e)) * powerRZ 2 e)
             - sgn s * (IZR (Zpos m) * powerRZ 2 e))
      with (sgn s * (IZR (m' * 2 ^ (e' - e) - Zpos m) * powerRZ 2 e))
      by (rewrite minus_IZR, mult_IZR; ring).
    rewrite !Rabs_mult, Rabs_sgn, abs_IZR, (Rabs_pos_eq (powerRZ 2 e)) by lra.
    ring. }
  rewrite Herr.
  assert (Hv : 0 < v) by (unfold v; apply Rmult_lt_0_compat; [apply IZR_lt; lia|exact Hpe]).
  destruct Hb as [Hb|[Hb|[Hlt Hb]]].
  - left. replace D with 0%Z by (unfold D; lia). pose proof u64_pos. nra.
  - left. apply IZR_le in Hb. rewrite mult_IZR, IZR_pow2 in Hb by lia.
    assert (Hu : u64 * powerRZ 2 53 = 1).
    { unfold u64. rewrite <- pow2R_add. reflexivity. }
    pose proof u64_pos as Hu0. pose proof (pow2R_pos 53) as H53.
    unfold v.
    assert (H1 : IZR D * powerRZ 2 53 * (u64 * powerRZ 2 e)
                 <= IZR (Zpos m) * (u64 * powerRZ 2 e)).
    { apply Rmult_le_compat_r; [|exact Hb]. apply Rlt_le, Rmult_lt_0_compat; assumption. }
    replace (IZR D * powerRZ 2 53 * (u64 * powerRZ 2 e))
      with (IZR D * powerRZ 2 e * (u64 * powerRZ 2 53)) in H1 by ring.
    rewrite Hu in H1. lra.
  - right. split; [exact Hlt|].
    apply IZR_le in Hb. rewrite mult_IZR, IZR_pow2 in Hb by lia.
    assert (E2 : powerRZ 2 (-1074 - e) * powerRZ 2 e = 2 * eta64).
    { rewrite <- pow2R_add. unfold eta64.
      replace (-1074 - e + e)%Z with (1 + -1075)%Z by lia.
      rewrite pow2R_add. replace (powerRZ 2 1) with 2 by (unfold powerRZ; simpl; lra). reflexivity. }
    assert (H1 : 2 * IZR D * powerRZ 2 e <= powerRZ 2 (-1074 - e) * powerRZ 2 e).
    { apply Rmult_le_compat_r; [lra|exact Hb]. }
    lra.
Qed.

(** A rounding that overflows: an exponent beyond the format or a magnitude
    of at least [2^1023]. *)
Lemma rounded_overflow (s : bool) (m : positive) (e : Z) (z : spec_float) :
  rounded s m e z -> SFfinite z = false ->
  (971 < e)%Z \/ powerRZ 2 1023 <= IZR (Zpos m) * powerRZ 2 e.
Proof.
  intros [[-> [H|H]]|(m' & e' & Hz & _)] Hfin.
  - now left.
  - right. pose proof (digits2_pos_bounds m) as (Hlo & _).
    set (d := Zpos (digits2_pos m)) in *.
    apply IZR_le in Hlo. rewrite IZR_pow2 in Hlo by lia.
    pose proof (pow2R_pos e) as Hpe.
    apply Rle_trans with (powerRZ 2 (d - 1) * powerRZ 2 e).
    + rewrite <- pow2R_add. apply pow2R_le. lia.
    + apply Rmult_le_compat_r; [lra|exact Hlo].
  - destruct Hz as [[_ ->]|(p & _ & ->)]; discriminate.
Qed.

(** ** Numbers of the format *)

Lemma valid_binary_canonical (x : spec_float) :
  valid_binary x = true -> SFcanonical x.
Proof.
  destruct x as [s|s| |s m e]; cbn [SpecFloat.valid_binary SFcanonical]; try easy.
  unfold bounded, canonical_mantissa. intros H.
  apply andb_true_iff in H. destruct H as (Hc & He).
  apply Z.eqb_eq in Hc. apply Z.leb_le in He.
  change (fexp prec emax (Zpos (digits2_pos m) + e))
    with (Z.max (Zpos (digits2_pos m) + e - 53) (-1074)) in Hc.
  change (emax - prec)%Z with 971%Z in He.
  pose proof (digits2_pos_bounds m) as Hd.
  set (d := Zpos (digits2_pos m)) in *.
  assert (Hd53 : (d <= 53)%Z) by lia.
  assert (H53 : (2 ^ d <= 2 ^ 53)%Z) by (apply Z.pow_le_mono_r; lia).
  split; [lia|]. split; [lia|].
  destruct (Z.eq_dec e (-1074)) as [->|Hne]; [now left|right].
  assert (d = 53%Z) by lia. subst d.
  replace (2 ^ 52)%Z with (2 ^ (Zpos (digits2_pos m) - 1))%Z by (now rewrite H).
  lia.
Qed.

Lemma SF2R_abs (s : bool) (m : positive) (e : Z) :
  Rabs (SF2R (S754_finite s m e)) = IZR (Zpos m) * powerRZ 2 e.
Proof.
  cbn [SF2R]. rewrite !Rabs_mult, Rabs_sgn.
  rewrite (Rabs_pos_eq (IZR (Zpos m))) by (apply IZR_le; lia).
  rewrite (Rabs_pos_eq (powerRZ 2 e)) by (apply Rlt_le, pow2R_pos).
  ring.
Qed.

Lemma sgn_xorb (a b : bool) : sgn (xorb a b) = sgn a * sgn b.
Proof. destruct a, b; cbn; lra. Qed.

(** ** Multiplication *)

Lemma SFmul_exact (sx sy : bool) (mx my : positive) (ex ey : Z) :
  sgn (xorb sx sy) * (IZR (Zpos (mx * my)) * powerRZ 2 (ex + ey))
  = SF2R (S754_finite sx mx ex) * SF2R (S754_finite sy my ey).
Proof.
  cbn [SF2R]. rewrite sgn_xorb, Pos2Z.inj_mul, mult_IZR, pow2R_add. ring.
Qed.

(** A finite product is within the relative error [u64] of the exact
    product, up to [eta64] when it underflows. *)
Lemma SFmul_err (x y : spec_float) :
  SFfinite (SF64mul x y) = true ->
  SFfinite x = true /\ SFfinite y = true
  /\ Rabs (SF2R (SF64mul x y) - SF2R x * SF2R y)
     <= u64 * Rabs (SF2R x * SF2R y) + eta64.
Proof.
  pose proof u64_pos as Hu. pose proof eta64_pos as Heta.
  destruct x as [sx|sx| |sx mx ex], y as [sy|sy| |sy my ey];
    cbn [SF64mul SFmul SFfinite]; try discriminate; intros Hfin;
    (split; [reflexivity|]); (split; [reflexivity|]).
  1-3: cbn [SF2R]; rewrite ?Rmult_0_l, ?Rmult_0_r, Rminus_0_r, Rabs_R0; lra.
  pose proof (binary_round_aux_rounded (xorb sx sy) (mx * my) (ex + ey)) as Hr.
  pose proof (rounded_err _ _ _ _ Hr Hfin) as He. cbv zeta in He.
  rewrite SFmul_exact in He.
  assert (Hv : IZR (Zpos (mx * my)) * powerRZ 2 (ex + ey)
               = Rabs (SF2R (S754_finite sx mx ex) * SF2R (S754_finite sy my ey))).
  { rewrite <- SFmul_exact, Rabs_mult, Rabs_sgn.
    rewrite Rabs_pos_eq; [ring|].
    apply Rmult_le_pos; [apply IZR_le; lia|apply Rlt_le, pow2R_pos]. }
  rewrite Hv in He.
  assert (0 <= u64 * Rabs (SF2R (S754_finite sx mx ex) * SF2R (S754_finite sy my ey)))
    by (apply Rmult_le_pos; [lra|apply Rabs_pos]).
  destruct He as [He|[_ He]]; lra.
Qed.

(** The product of two finite numbers of the format is finite when the
    exact product is below [2^1023]. *)
Lemma SFmul_finite (x y : spec_float) :
  SFcanonical x -> SFcanonical y ->
  SFfinite x = true -> SFfinite y = true ->
  Rabs (SF2R x * SF2R y) < powerRZ 2 1023 ->
  SFfinite (SF64mul x y) = true.
Proof.
  destruct x as [sx|sx| |sx mx ex], y as [sy|sy| |sy my ey];
    cbn [SF64mul SFmul SFfinite]; try discriminate; try reflexivity.
  intros (Hex & Hmx & Hnx) (Hey & Hmy & Hny) _ _ Hlt.
  destruct (SFfinite (binary_round_aux prec emax (xorb sx sy) (Zpos (mx * my))
                        (ex + ey) loc_Exact)) eqn:Hfin; [reflexivity|exfalso].
  pose proof (binary_round_aux_rounded (xorb sx sy) (mx * my) (ex + ey)) as Hr.
  rewrite <- SFmul_exact, Rabs_mult, Rabs_sgn, Rmult_1_l in Hlt.
  rewrite Rabs_pos_eq in Hlt
    by (apply Rmult_le_pos; [apply IZR_le; lia|apply Rlt_le, pow2R_pos]).
  destruct (rounded_overflow _ _ _ _ Hr Hfin) as [Hov|Hov]; [|lra].
  (* exponents that large come from two normal numbers *)
  assert (H52x : (2 ^ 52 <= Zpos mx)%Z) by lia.
  assert (H52y : (2 ^ 52 <= Zpos my)%Z) by lia.
  assert (Hm : (2 ^ 104 <= Zpos (mx * my))%Z).
  { rewrite Pos2Z.inj_mul. change (2 ^ 104)%Z with (2 ^ 52 * 2 ^ 52)%Z.
    apply Z.mul_le_mono_nonneg; lia. }
  apply IZR_le in Hm. rewrite (IZR_pow2 104) in Hm by lia.
  pose proof (pow2R_le 919 (ex + ey) ltac:(lia)) as He.
  pose proof (pow2R_pos 919) as H919. pose proof (pow2R_pos 104) as H104.
  assert (E : powerRZ 2 1023 = powerRZ 2 104 * powerRZ 2 919)
    by (rewrite <- pow2R_add; reflexivity).
  assert (powerRZ 2 104 * powerRZ 2 919
          <= IZR (Zpos (mx * my)) * powerRZ 2 (ex + ey))
    by (apply Rmult_le_compat; lra).
  lra.
Qed.

(** ** Addition and subtraction *)

Lemma iter_xO (m d : positive) :
  Zpos (Pos.iter xO m d) = (Zpos m * 2 ^ Zpos d)%Z.
Proof.
  induction d as [|d IH] using Pos.peano_ind.
  - cbn [Pos.iter]. rewrite (Pos2Z.inj_xO m). change (2 ^ 1)%Z with 2%Z. lia.
  - rewrite Pos.iter_succ, (Pos2Z.inj_xO (Pos.iter xO m d)), IH, Pos2Z.inj_succ.
    rewrite Z.pow_succ_r by lia. lia.
Qed.

(** Aligning a mantissa on a smaller exponent keeps the number. *)
Lemma shl_align_spec (mx : positive) (ex ex' : Z) :
  (snd (shl_align mx ex ex') = ex /\ (ex <= ex')%Z
   \/ snd (shl_align mx ex ex') = ex' /\ (ex' < ex)%Z)
  /\ Zpos (fst (shl_align mx ex ex'))
     = (Zpos mx * 2 ^ (ex - snd (shl_align mx ex ex')))%Z.
Proof.
  unfold shl_align. destruct (ex' - ex)%Z as [|d|d] eqn:E; cbn [fst snd].
  - split; [left; split; lia|]. rewrite Z.sub_diag. cbn. lia.
  - split; [left; split; lia|]. rewrite Z.sub_diag. cbn. lia.
  - split; [right; split; lia|]. rewrite iter_xO. do 2 f_equal. lia.
Qed.

Lemma aligned_value (s : bool) (m : positive) (e ez : Z) :
  (ez <= e)%Z ->
  IZR (cond_Zopp s (Zpos (fst (shl_align m e ez)))) * powerRZ 2 ez
  = SF2R (S754_finite s m e).
Proof.
  intros Hle. destruct (shl_align_spec m e ez) as (Hsnd & Hfst).
  assert (E : (Zpos (fst (shl_align m e ez)) = Zpos m * 2 ^ (e - ez))%Z).
  { rewrite Hfst. destruct Hsnd as [[-> ?]|[-> ?]]; [|reflexivity].
    replace ez with e by lia. reflexivity. }
  cbn [SF2R]. replace e with ((e - ez) + ez)%Z at 2 by lia.
  rewrite pow2R_add, <- (IZR_pow2 (e - ez)) by lia.
  destruct s; cbn [cond_Zopp sgn]; rewrite ?opp_IZR, E, mult_IZR; ring.
Qed.

(** Rounding the integer [M * 2^ez], [ez] an exponent of the format: the
    error is relative (an underflowing sum is exact), and only a magnitude
    of [2^1023] or more overflows. *)
Lemma binary_normalize_spec (M ez : Z) :
  (-1074 <= ez <= 971)%Z ->
  let z := binary_normalize prec emax M ez false in
  let v := IZR M * powerRZ 2 ez in
  (SFfinite z = true -> Rabs (SF2R z - v) <= u64 * Rabs v)
  /\ (Rabs v < powerRZ 2 1023 -> SFfinite z = true).
Proof.
  intros Hez z v. pose proof u64_pos as Hu.
  assert (Hround : forall (s : bool) (pm : positive),
             v = sgn s * (IZR (Zpos pm) * powerRZ 2 ez) ->
             z = binary_round prec emax s pm ez ->
             (SFfinite z = true -> Rabs (SF2R z - v) <= u64 * Rabs v)
             /\ (Rabs v < powerRZ 2 1023 -> SFfinite z = true)).
  { intros s pm Hv Hz. unfold binary_round in Hz.
    destruct (shl_align_spec pm ez (fexp prec emax (Zpos (digits2_pos pm) + ez)))
      as (Hsnd & Hfst).
    destruct (shl_align pm ez (fexp prec emax (Zpos (digits2_pos pm) + ez)))
      as [mz ez'] eqn:Esh. cbn [fst snd] in *.
    change (fexp prec emax (Zpos (digits2_pos pm) + ez))
      with (Z.max (Zpos (digits2_pos pm) + ez - 53) (-1074)) in Hsnd.
    assert (Hez' : (-1074 <= ez' <= ez)%Z) by lia.
    assert (Hval : IZR (Zpos pm) * powerRZ 2 ez = IZR (Zpos mz) * powerRZ 2 ez').
    { rewrite Hfst, mult_IZR, (IZR_pow2 (ez - ez')) by lia.
      replace ez with ((ez - ez') + ez')%Z at 1 by lia.
      rewrite pow2R_add. ring. }
    rewrite Hval in Hv.
    assert (Habs : Rabs v = IZR (Zpos mz) * powerRZ 2 ez').
    { rewrite Hv, Rabs_mult, Rabs_sgn, Rabs_pos_eq; [ring|].
      apply Rmult_le_pos; [apply IZR_le; lia|apply Rlt_le, pow2R_pos]. }
    pose proof (binary_round_aux_rounded s mz ez') as Hr. rewrite <- Hz in Hr.
    split.
    - intros Hfin. pose proof (rounded_err _ _ _ _ Hr Hfin) as He. cbv zeta in He.
      rewrite <- Hv, <- Habs in He. destruct He as [He|[Hlt _]]; [exact He|lia].
    - intros Hlt. destruct (SFfinite z) eqn:Hfin; [reflexivity|exfalso].
      destruct (rounded_overflow _ _ _ _ Hr Hfin) as [Hov|Hov]; [lia|].
      rewrite Habs in Hlt. lra. }
  destruct M as [|pm|pm].
  - subst z v. cbn [binary_normalize SFfinite SF2R].
    rewrite Rmult_0_l, Rminus_0_r, Rabs_R0. split; [lra|reflexivity].
  - apply (Hround false pm); [|reflexivity]. unfold v. cbn [sgn]. ring.
  - apply (Hround true pm); [|reflexivity]. unfold v. cbn [sgn].
    change (Zneg pm) with (- Zpos pm)%Z. rewrite opp_IZR. ring.
Qed.

Lemma SFadd_finite_finite (sx sy : bool) (mx my : positive) (ex ey : Z) :
  SF64add (S754_finite sx mx ex) (S754_finite sy my ey)
  = binary_normalize prec emax
      (cond_Zopp sx (Zpos (fst (shl_align mx ex (Z.min ex ey))))
       + cond_Zopp sy (Zpos (fst (shl_align my ey (Z.min ex ey)))))%Z
      (Z.min ex ey) false.
Proof. reflexivity. Qed.

Lemma SFadd_exact (sx sy : bool) (mx my : positive) (ex ey : Z) :
  IZR (cond_Zopp sx (Zpos (fst (shl_align mx ex (Z.min ex ey))))
       + cond_Zopp sy (Zpos (fst (shl_align my ey (Z.min ex ey)))))
  * powerRZ 2 (Z.min ex ey)
  = SF2R (S754_finite sx mx ex) + SF2R (S754_finite sy my ey).
Proof.
  rewrite plus_IZR, Rmult_plus_distr_r.
  now rewrite !aligned_value by lia.
Qed.

(** A finite sum of two numbers of the format is within the relative error
    [u64] of the exact sum. *)
Lemma SFadd_err (x y : spec_float) :
  SFcanonical x -> SFcanonical y ->
  SFfinite (SF64add x y) = true ->
  SFfinite x = true /\ SFfinite y = true
  /\ Rabs (SF2R (SF64add x y) - (SF2R x + SF2R y))
     <= u64 * Rabs (SF2R x + SF2R y).
Proof.
  pose proof u64_pos as Hu.
  destruct x as [sx|sx| |sx mx ex], y as [sy|sy| |sy my ey]; intros Hx Hy.
  all: try (cbn [SF64add SFadd SFfinite]; discriminate).
  all: try (destruct sx, sy; cbn [SF64add SFadd SFfinite]; discriminate).
  - (* zero + zero *)
    intros _. split; [reflexivity|]. split; [reflexivity|].
    destruct sx, sy; cbn [SF64add SFadd SF2R];
      rewrite Rplus_0_r, Rminus_0_r, Rabs_R0; lra.
  - (* zero + finite *)
    intros _. split; [reflexivity|]. split; [reflexivity|].
    cbn [SF64add SFadd]. cbn [SF2R]. rewrite Rplus_0_l.
    unfold Rminus. rewrite Rplus_opp_r, Rabs_R0.
    apply Rmult_le_pos; [lra|apply Rabs_pos].
  - (* finite + zero *)
    intros _. split; [reflexivity|]. split; [reflexivity|].
    cbn [SF64add SFadd]. cbn [SF2R]. rewrite Rplus_0_r.
    unfold Rminus. rewrite Rplus_opp_r, Rabs_R0.
    apply Rmult_le_pos; [lra|apply Rabs_pos].
  - (* finite + finite *)
    rewrite SFadd_finite_finite. intros Hfin.
    split; [reflexivity|]. split; [reflexivity|].
    destruct Hx as (Hex & _), Hy as (Hey & _).
    pose proof (binary_normalize_spec
                  (cond_Zopp sx (Zpos (fst (shl_align mx ex (Z.min ex ey))))
                   + cond_Zopp sy (Zpos (fst (shl_align my ey (Z.min ex ey)))))
                  (Z.min ex ey) ltac:(lia)) as (He & _).
    cbv zeta in He. rewrite SFadd_exact in He. exact (He Hfin).
Qed.

(** The sum of two finite numbers of the format is finite when the exact
    sum is below [2^1023]. *)
Lemma SFadd_finite (x y : spec_float) :
  SFcanonical x -> SFcanonical y ->
  SFfinite x = true -> SFfinite y = true ->
  Rabs (SF2R x + SF2R y) < powerRZ 2 1023 ->
  SFfinite (SF64add x y) = true.
Proof.
  destruct x as [sx|sx| |sx mx ex], y as [sy|sy| |sy my ey]; intros Hx Hy;
    cbn [SFfinite]; try discriminate; intros _ _ Hlt.
  - now destruct sx, sy.
  - reflexivity.
  - reflexivity.
  - rewrite SFadd_finite_finite.
    destruct Hx as (Hex & _), Hy as (Hey & _).
    pose proof (binary_normalize_spec
                  (cond_Zopp sx (Zpos (fst (shl_align mx ex (Z.min ex ey))))
                   + cond_Zopp sy (Zpos (fst (shl_align my ey (Z.min ex ey)))))
                  (Z.min ex ey) ltac:(lia)) as (_ & Hf).
    cbv zeta in Hf. rewrite SFadd_exact in Hf. exact (Hf Hlt).
Qed.

Lemma SFsub_SFadd_opp (x y : spec_float) :
  SF64sub x y = SF64add x (SFopp y).
Proof.
  destruct x as [sx|sx| |sx mx ex], y as [sy|sy| |sy my ey];
    try reflexivity; destruct sx, sy; reflexivity.
Qed.

Lemma SF2R_opp (y : spec_float) : SF2R (SFopp y) = - SF2R y.
Proof.
  destruct y as [s|s| |s m e]; cbn [SFopp SF2R]; try lra.
  destruct s; cbn [negb sgn]; ring.
Qed.

Lemma SFfinite_opp (y : spec_float) : SFfinite (SFopp y) = SFfinite y.
Proof. now destruct y. Qed.

Lemma SFcanonical_opp (y : spec_float) : SFcanonical y -> SFcanonical (SFopp y).
Proof. now destruct y. Qed.

(** ** The operations of [float64] *)

Lemma Prim2SF_canonical (x : float) : SFcanonical (Prim2SF x).
Proof. apply valid_binary_canonical, Prim2SF_valid. Qed.

Lemma mul64_err (x y : float) :
  finite64 (x * y)%float = true ->
  finite64 x = true /\ finite64 y = true
  /\ Rabs (F2R (x * y)%float - F2R x * F2R y) <= u64 * Rabs (F2R x * F2R y) + eta64.
Proof. unfold finite64, F2R. rewrite mul_spec. apply SFmul_err. Qed.

Lemma mul64_finite (x y : float) :
  finite64 x = true -> finite64 y = true ->
  Rabs (F2R x * F2R y) < powerRZ 2 1023 ->
  finite64 (x * y)%float = true.
Proof.
  unfold finite64, F2R. rewrite mul_spec.
  apply SFmul_finite; apply Prim2SF_canonical.
Qed.

Lemma add64_err (x y : float) :
  finite64 (x + y)%float = true ->
  finite64 x = true /\ finite64 y = true
  /\ Rabs (F2R (x + y)%float - (F2R x + F2R y)) <= u64 * Rabs (F2R x + F2R y).
Proof.
  unfold finite64, F2R. rewrite add_spec.
  apply SFadd_err; apply Prim2SF_canonical.
Qed.

Lemma add64_finite (x y : float) :
  finite64 x = true -> finite64 y = true ->
  Rabs (F2R x + F2R y) < powerRZ 2 1023 ->
  finite64 (x + y)%float = true.
Proof.
  unfold finite64, F2R. rewrite add_spec.
  apply SFadd_finite; apply Prim2SF_canonical.
Qed.

Lemma sub64_err (x y : float) :
  finite64 (x - y)%float = true ->
  finite64 x = true /\ finite64 y = true
  /\ Rabs (F2R (x - y)%float - (F2R x - F2R y)) <= u64 * Rabs (F2R x - F2R y).
Proof.
  unfold finite64, F2R. rewrite sub_spec, SFsub_SFadd_opp.
  intros Hfin.
  destruct (SFadd_err (Prim2SF x) (SFopp (Prim2SF y))
              (Prim2SF_canonical x) (SFcanonical_opp _ (Prim2SF_canonical y)) Hfin)
    as (Hx & Hy & He).
  rewrite SFfinite_opp in Hy. rewrite SF2R_opp in He.
  split; [exact Hx|]. split; [exact Hy|]. exact He.
Qed.

Lemma sub64_finite (x y : float) :
  finite64 x = true -> finite64 y = true ->
  Rabs (F2R x - F2R y) < powerRZ 2 1023 ->
  finite64 (x - y)%float = true.
Proof.
  unfold finite64, F2R. rewrite sub_spec, SFsub_SFadd_opp.
  intros Hx Hy Hlt.
  apply SFadd_finite;
    [apply Prim2SF_canonical|apply SFcanonical_opp, Prim2SF_canonical|exact Hx
    |now rewrite SFfinite_opp|now rewrite SF2R_opp].
Qed.

Lemma F2R_one : F2R 1%float = 1 /\ finite64 1%float = true.
Proof.
  unfold F2R, finite64.
  replace (Prim2SF 1%float) with (S754_finite false 4503599627370496 (-52))
    by (vm_compute; reflexivity).
  split; [|reflexivity]. cbn [SF2R sgn].
  change 4503599627370496%Z with (2 ^ 52)%Z. rewrite IZR_pow2 by lia.
  rewrite Rmult_1_l, <- pow2R_add. reflexivity.
Qed.

(** ** The sum of the two blends *)

Lemma Rabs_le_iff (x y : R) : Rabs x <= y <-> - y <= x <= y.
Proof. unfold Rabs. destruct (Rcase_abs x); split; intros; lra. Qed.

Lemma prod_bound (c x y : R) : 0 <= x <= c -> Rabs (x * y) <= c * Rabs y.
Proof.
  intros Hx. rewrite Rabs_mult, (Rabs_pos_eq x) by lra.
  apply Rmult_le_compat_r; [apply Rabs_pos|lra].
Qed.

Lemma u64_eq : u64 = / 2 ^ 53.
Proof. reflexivity. Qed.

(** An error bound relative to [W], read as a two-sided linear bound once
    [W] itself is bounded. *)
Lemma err_lin (E W c e : R) :
  Rabs E <= u64 * Rabs W + e -> Rabs W <= c ->
  - (/ 2 ^ 53 * c + e) <= E <= / 2 ^ 53 * c + e.
Proof.
  intros HE HW. apply Rabs_le_iff. rewrite <- u64_eq.
  pose proof u64_pos as Hu.
  assert (u64 * Rabs W <= u64 * c) by (apply Rmult_le_compat_l; lra).
  lra.
Qed.

Lemma err_lin0 (E W c : R) :
  Rabs E <= u64 * Rabs W -> Rabs W <= c ->
  - (/ 2 ^ 53 * c) <= E <= / 2 ^ 53 * c.
Proof.
  intros HE HW.
  pose proof (err_lin E W c 0 ltac:(lra) HW). lra.
Qed.

(** The two blends of [a] and [b] with the draw [p], as [float64]
    computes them: their sum is the sum of [a] and [b] up to a few
    roundings, both as real numbers and as float64 sums. *)
Lemma blend_sum_float64 (p a b : float) :
  finite64 p = true -> finite64 a = true -> finite64 b = true ->
  0 <= F2R p <= 1 ->
  Rabs (F2R a) + Rabs (F2R b) <= powerRZ 2 1022 ->
  let q := (1 - p)%float in
  let x := (p * a + q * b)%float in
  let y := (q * a + p * b)%float in
  finite64 x = true /\ finite64 y = true
  /\ Rabs (F2R x + F2R y - (F2R a + F2R b)) <= roundingBound a b
  /\ finite64 (x + y)%float = true /\ finite64 (a + b)%float = true
  /\ Rabs (F2R (x + y)%float - F2R (a + b)%float) <= roundingBound a b.
Proof.
  intros Fp Fa Fb HP HT q x y. unfold roundingBound.
  destruct F2R_one as (E1 & F1).
  (* the constants *)
  assert (HL : powerRZ 2 1023 = 2 * powerRZ 2 1022).
  { replace 1023%Z with (1 + 1022)%Z by lia. rewrite pow2R_add.
    replace (powerRZ 2 1) with 2 by (unfold powerRZ; simpl; lra). reflexivity. }
  assert (HH : 16 <= powerRZ 2 1022).
  { replace 16 with (powerRZ 2 4) by (unfold powerRZ; simpl; lra).
    apply pow2R_le. lia. }
  assert (Heta1 : eta64 <= 1).
  { replace 1 with (powerRZ 2 0) by reflexivity. apply pow2R_le. lia. }
  pose proof eta64_pos as Heta0.
  assert (H50 : powerRZ 2 (-50) = 8 * / 2 ^ 53).
  { replace (-50)%Z with (3 + -53)%Z by lia. rewrite pow2R_add.
    replace (powerRZ 2 3) with 8 by (unfold powerRZ; simpl; lra). reflexivity. }
  assert (H1072 : powerRZ 2 (-1072) = 8 * eta64).
  { replace (-1072)%Z with (3 + -1075)%Z by lia. rewrite pow2R_add.
    replace (powerRZ 2 3) with 8 by (unfold powerRZ; simpl; lra). reflexivity. }
  rewrite H50, H1072.
  set (H := powerRZ 2 1022) in *.
  set (P := F2R p) in *. set (A := F2R a) in *. set (B := F2R b) in *.
  pose proof (Rabs_pos A) as HA0. pose proof (Rabs_pos B) as HB0.
  assert (HAa : - Rabs A <= A <= Rabs A) by (apply Rabs_le_iff; lra).
  assert (HBb : - Rabs B <= B <= Rabs B) by (apply Rabs_le_iff; lra).
  set (al := Rabs A) in *. set (be := Rabs B) in *.
  (* q = 1 - p *)
  assert (Fq : finite64 q = true).
  { apply sub64_finite; [exact F1|exact Fp|]. rewrite E1. fold P.
    apply Rle_lt_trans with 1; [apply Rabs_le; lra|lra]. }
  destruct (sub64_err 1 p Fq) as (_ & _ & Eq). rewrite E1 in Eq. fold P q in Eq.
  set (Q := F2R q) in *.
  assert (B0 : Rabs (1 - P) <= 1 - P) by (apply Rabs_le; lra).
  apply (fun h => err_lin0 _ _ _ h B0) in Eq.
  assert (HQ : 0 <= Q <= 1 + / 2 ^ 53) by lra.
  (* the exact products *)
  assert (B1 : Rabs (P * A) <= al) by (rewrite <- (Rmult_1_l al); apply prod_bound; lra).
  assert (B2 : Rabs (Q * B) <= (1 + / 2 ^ 53) * be) by (apply prod_bound; lra).
  assert (B3 : Rabs (Q * A) <= (1 + / 2 ^ 53) * al) by (apply prod_bound; lra).
  assert (B4 : Rabs (P * B) <= be) by (rewrite <- (Rmult_1_l be); apply prod_bound; lra).
  assert (Bid : Rabs (P * A + Q * B + (Q * A + P * B) - (A + B)) <= / 2 ^ 53 * (al + be)).
  { replace (P * A + Q * B + (Q * A + P * B) - (A + B)) with ((P + Q - 1) * (A + B)) by ring.
    rewrite Rabs_mult. apply Rmult_le_compat; try apply Rabs_pos; apply Rabs_le; lra. }
  pose proof B1 as B1'. pose proof B2 as B2'. pose proof B3 as B3'. pose proof B4 as B4'.
  apply Rabs_le_iff in B1', B2', B3', B4', Bid.
  (* the four rounded products *)
  assert (Fx1 : finite64 (p * a)%float = true)
    by (apply mul64_finite; [exact Fp|exact Fa|fold P A; lra]).
  assert (Fx2 : finite64 (q * b)%float = true)
    by (apply mul64_finite; [exact Fq|exact Fb|fold Q B; lra]).
  assert (Fy1 : finite64 (q * a)%float = true)
    by (apply mul64_finite; [exact Fq|exact Fa|fold Q A; lra]).
  assert (Fy2 : finite64 (p * b)%float = true)
    by (apply mul64_finite; [exact Fp|exact Fb|fold P B; lra]).
  destruct (mul64_err p a Fx1) as (_ & _ & Ex1). fold P A in Ex1.
  destruct (mul64_err q b Fx2) as (_ & _ & Ex2). fold Q B in Ex2.
  destruct (mul64_err q a Fy1) as (_ & _ & Ey1). fold Q A in Ey1.
  destruct (mul64_err p b Fy2) as (_ & _ & Ey2). fold P B in Ey2.
  set (X1 := F2R (p * a)%float) in *. set (X2 := F2R (q * b)%float) in *.
  set (Y1 := F2R (q * a)%float) in *. set (Y2 := F2R (p * b)%float) in *.
  apply (fun h => err_lin _ _ _ _ h B1) in Ex1.
  apply (fun h => err_lin _ _ _ _ h B2) in Ex2.
  apply (fun h => err_lin _ _ _ _ h B3) in Ey1.
  apply (fun h => err_lin _ _ _ _ h B4) in Ey2.
  (* the two blends *)
  assert (BX : Rabs (X1 + X2) <= (1 + / 2 ^ 53) * (1 + / 2 ^ 53) * (al + be) + 2 * eta64)
    by (apply Rabs_le; lra).
  assert (BY : Rabs (Y1 + Y2) <= (1 + / 2 ^ 53) * (1 + / 2 ^ 53) * (al + be) + 2 * eta64)
    by (apply Rabs_le; lra).
  assert (Fx : finite64 x = true).
  { apply add64_finite; [exact Fx1|exact Fx2|]. fold X1 X2.
    eapply Rle_lt_trans; [exact BX|]. lra. }
  assert (Fy : finite64 y = true).
  { apply add64_finite; [exact Fy1|exact Fy2|]. fold Y1 Y2.
    eapply Rle_lt_trans; [exact BY|]. lra. }
  destruct (add64_err _ _ Fx) as (_ & _ & Ex). fold X1 X2 x in Ex.
  destruct (add64_err _ _ Fy) as (_ & _ & Ey). fold Y1 Y2 y in Ey.
  set (X := F2R x) in *. set (Y := F2R y) in *.
  apply (fun h => err_lin0 _ _ _ h BX) in Ex.
  apply (fun h => err_lin0 _ _ _ h BY) in Ey.
  (* their sum, exactly *)
  assert (BS : Rabs (X + Y - (A + B)) <= 11 / 2 * / 2 ^ 53 * (al + be) + 5 * eta64)
    by (apply Rabs_le; lra).
  assert (BXY : Rabs (X + Y) <= (1 + 11 / 2 * / 2 ^ 53) * (al + be) + 5 * eta64).
  { apply Rabs_le_iff in BS. apply Rabs_le. lra. }
  split; [exact Fx|]. split; [exact Fy|].
  split; [eapply Rle_trans; [exact BS|lra]|].
  (* their sum, in float64 *)
  assert (Fs : finite64 (x + y)%float = true).
  { apply add64_finite; [exact Fx|exact Fy|]. fold X Y.
    eapply Rle_lt_trans; [exact BXY|]. lra. }
  assert (BAB : Rabs (A + B) <= al + be) by (apply Rabs_le; lra).
  assert (Fab : finite64 (a + b)%float = true).
  { apply add64_finite; [exact Fa|exact Fb|]. fold A B.
    eapply Rle_lt_trans; [exact BAB|]. lra. }
  split; [exact Fs|]. split; [exact Fab|].
  destruct (add64_err _ _ Fs) as (_ & _ & Es). fold X Y in Es.
  destruct (add64_err _ _ Fab) as (_ & _ & Eab). fold A B in Eab.
  apply (fun h => err_lin0 _ _ _ h BXY) in Es.
  apply (fun h => err_lin0 _ _ _ h BAB) in Eab.
  apply Rabs_le_iff in BS. apply Rabs_le. lra.
Qed.

(** ** One blend *)

(** [c1*a + c2*b] in float64, three roundings away from the exact value. *)
Lemma dot2_float64 (c1 c2 a b : float) (M : R) :
  finite64 c1 = true -> finite64 c2 = true ->
  finite64 a = true -> finite64 b = true ->
  Rabs (F2R c1 * F2R a) + Rabs (F2R c2 * F2R b) <= M ->
  M <= 3 / 2 * powerRZ 2 1022 ->
  finite64 (c1 * a + c2 * b)%float = true
  /\ Rabs (F2R (c1 * a + c2 * b)%float - (F2R c1 * F2R a + F2R c2 * F2R b))
     <= 5 / 2 * / 2 ^ 53 * M + 5 / 2 * eta64.
Proof.
  intros F1 F2 Fa Fb HM HM2.
  assert (HL : powerRZ 2 1023 = 2 * powerRZ 2 1022).
  { replace 1023%Z with (1 + 1022)%Z by lia. rewrite pow2R_add.
    replace (powerRZ 2 1) with 2 by (unfold powerRZ; simpl; lra). reflexivity. }
  assert (HH : 16 <= powerRZ 2 1022).
  { replace 16 with (powerRZ 2 4) by (unfold powerRZ; simpl; lra).
    apply pow2R_le. lia. }
  assert (Heta1 : eta64 <= 1).
  { replace 1 with (powerRZ 2 0) by reflexivity. apply pow2R_le. lia. }
  pose proof eta64_pos as Heta0.
  set (H := powerRZ 2 1022) in *.
  set (U := F2R c1 * F2R a) in *. set (V := F2R c2 * F2R b) in *.
  pose proof (Rabs_pos U) as HU0. pose proof (Rabs_pos V) as HV0.
  assert (BU : Rabs U <= Rabs U) by lra. assert (BV : Rabs V <= Rabs V) by lra.
  assert (HUu : - Rabs U <= U <= Rabs U) by (apply Rabs_le_iff; lra).
  assert (HVv : - Rabs V <= V <= Rabs V) by (apply Rabs_le_iff; lra).
  set (ru := Rabs U) in *. set (rv := Rabs V) in *.
  assert (Fx1 : finite64 (c1 * a)%float = true)
    by (apply mul64_finite; [exact F1|exact Fa|fold U ru; lra]).
  assert (Fx2 : finite64 (c2 * b)%float = true)
    by (apply mul64_finite; [exact F2|exact Fb|fold V rv; lra]).
  destruct (mul64_err c1 a Fx1) as (_ & _ & Ex1). fold U ru in Ex1.
  destruct (mul64_err c2 b Fx2) as (_ & _ & Ex2). fold V rv in Ex2.
  set (X1 := F2R (c1 * a)%float) in *. set (X2 := F2R (c2 * b)%float) in *.
  assert (Ex1' : - (/ 2 ^ 53 * ru + eta64) <= X1 - U <= / 2 ^ 53 * ru + eta64).
  { apply Rabs_le_iff. rewrite <- u64_eq. exact Ex1. }
  assert (Ex2' : - (/ 2 ^ 53 * rv + eta64) <= X2 - V <= / 2 ^ 53 * rv + eta64).
  { apply Rabs_le_iff. rewrite <- u64_eq. exact Ex2. }
  assert (BX : Rabs (X1 + X2) <= (1 + / 2 ^ 53) * M + 2 * eta64)
    by (apply Rabs_le; lra).
  assert (Fx : finite64 (c1 * a + c2 * b)%float = true).
  { apply add64_finite; [exact Fx1|exact Fx2|]. fold X1 X2.
    eapply Rle_lt_trans; [exact BX|]. lra. }
  split; [exact Fx|].
  destruct (add64_err _ _ Fx) as (_ & _ & Ex). fold X1 X2 in Ex.
  apply (fun h => err_lin0 _ _ _ h BX) in Ex.
  apply Rabs_le. lra.
Qed.

(** A convex combination lies between its two ends. *)
Lemma convex_between (t a b : R) :
  0 <= t <= 1 -> Rmin a b <= t * a + (1 - t) * b <= Rmax a b.
Proof.
  intros Ht. unfold Rmin, Rmax. destruct (Rle_dec a b); nra.
Qed.

(** The two blends of [a] and [b] with the draw [p], as float64 computes
    them, leave the interval between [a] and [b] by a few roundings at
    most. *)
Lemma blend_float64 (p a b : float) :
  finite64 p = true -> finite64 a = true -> finite64 b = true ->
  0 <= F2R p <= 1 ->
  Rabs (F2R a) + Rabs (F2R b) <= powerRZ 2 1022 ->
  let q := (1 - p)%float in
  let x := (p * a + q * b)%float in
  let y := (q * a + p * b)%float in
  finite64 x = true /\ finite64 y = true
  /\ Rmin (F2R a) (F2R b) - intervalSlack a b <= F2R x
     <= Rmax (F2R a) (F2R b) + intervalSlack a b
  /\ Rmin (F2R a) (F2R b) - intervalSlack a b <= F2R y
     <= Rmax (F2R a) (F2R b) + intervalSlack a b.
Proof.
  intros Fp Fa Fb HP HT q x y. unfold intervalSlack.
  destruct F2R_one as (E1 & F1).
  assert (HL : powerRZ 2 1023 = 2 * powerRZ 2 1022).
  { replace 1023%Z with (1 + 1022)%Z by lia. rewrite pow2R_add.
    replace (powerRZ 2 1) with 2 by (unfold powerRZ; simpl; lra). reflexivity. }
  assert (HH : 16 <= powerRZ 2 1022).
  { replace 16 with (powerRZ 2 4) by (unfold powerRZ; simpl; lra).
    apply pow2R_le. lia. }
  pose proof eta64_pos as Heta0.
  assert (H51 : powerRZ 2 (-51) = 4 * / 2 ^ 53).
  { replace (-51)%Z with (2 + -53)%Z by lia. rewrite pow2R_add.
    replace (powerRZ 2 2) with 4 by (unfold powerRZ; simpl; lra). reflexivity. }
  assert (H1073 : powerRZ 2 (-1073) = 4 * eta64).
  { replace (-1073)%Z with (2 + -1075)%Z by lia. rewrite pow2R_add.
    replace (powerRZ 2 2) with 4 by (unfold powerRZ; simpl; lra). reflexivity. }
  rewrite H51, H1073.
  set (H := powerRZ 2 1022) in *.
  set (P := F2R p) in *. set (A := F2R a) in *. set (B := F2R b) in *.
  pose proof (Rabs_pos A) as HA0. pose proof (Rabs_pos B) as HB0.
  assert (HAa : - Rabs A <= A <= Rabs A) by (apply Rabs_le_iff; lra).
  assert (HBb : - Rabs B <= B <= Rabs B) by (apply Rabs_le_iff; lra).
  set (al := Rabs A) in *. set (be := Rabs B) in *.
  (* q = 1 - p *)
  assert (Fq : finite64 q = true).
  { apply sub64_finite; [exact F1|exact Fp|]. rewrite E1. fold P.
    apply Rle_lt_trans with 1; [apply Rabs_le; lra|lra]. }
  destruct (sub64_err 1 p Fq) as (_ & _ & Eq). rewrite E1 in Eq. fold P q in Eq.
  set (Q := F2R q) in *.
  assert (B0 : Rabs (1 - P) <= 1 - P) by (apply Rabs_le; lra).
  apply (fun h => err_lin0 _ _ _ h B0) in Eq.
  assert (HQ : 0 <= Q <= 1 + / 2 ^ 53) by lra.
  (* the exact products *)
  assert (B1 : Rabs (P * A) <= al) by (rewrite <- (Rmult_1_l al); apply prod_bound; lra).
  assert (B2 : Rabs (Q * B) <= (1 + / 2 ^ 53) * be) by (apply prod_bound; lra).
  assert (B3 : Rabs (Q * A) <= (1 + / 2 ^ 53) * al) by (apply prod_bound; lra).
  assert (B4 : Rabs (P * B) <= be) by (rewrite <- (Rmult_1_l be); apply prod_bound; lra).
  (* the weight 1 - p is itself rounded *)
  assert (Bqb : Rabs (Q * B - (1 - P) * B) <= / 2 ^ 53 * be).
  { replace (Q * B - (1 - P) * B) with ((Q - (1 - P)) * B) by ring.
    rewrite Rabs_mult. apply Rmult_le_compat; try apply Rabs_pos; [|fold be; lra].
    apply Rabs_le; lra. }
  assert (Bqa : Rabs (Q * A - (1 - P) * A) <= / 2 ^ 53 * al).
  { replace (Q * A - (1 - P) * A) with ((Q - (1 - P)) * A) by ring.
    rewrite Rabs_mult. apply Rmult_le_compat; try apply Rabs_pos; [|fold al; lra].
    apply Rabs_le; lra. }
  apply Rabs_le_iff in Bqb, Bqa.
  destruct (dot2_float64 p q a b ((1 + / 2 ^ 53) * (al + be)) Fp Fq Fa Fb)
    as (Fx & Ex); [fold P A Q B; lra|fold H; lra|].
  destruct (dot2_float64 q p a b ((1 + / 2 ^ 53) * (al + be)) Fq Fp Fa Fb)
    as (Fy & Ey); [fold P A Q B; lra|fold H; lra|].
  fold P A Q B x in Ex. fold P A Q B y in Ey.
  apply Rabs_le_iff in Ex, Ey.
  pose proof (convex_between P A B HP) as Cx.
  pose proof (convex_between P B A HP) as Cy.
  rewrite Rmin_comm, Rmax_comm in Cy.
  split; [exact Fx|]. split; [exact Fy|].
  split; lra.
Qed.


(** ** A draw of exactly 1 *)

Lemma digits2_pos_unique (m : positive) (d : Z) :
  (2 ^ (d - 1) <= Zpos m < 2 ^ d)%Z -> Zpos (digits2_pos m) = d.
Proof.
  intros Hd. pose proof (digits2_pos_bounds m) as H0.
  set (d0 := Zpos (digits2_pos m)) in *.
  assert (Hd0 : (1 <= d0)%Z) by (unfold d0; lia).
  assert (Hdpos : (1 <= d)%Z).
  { destruct (Z_le_gt_dec 1 d) as [H|H]; [exact H|].
    assert (E : (2 ^ d <= 1)%Z).
    { destruct (Z_lt_le_dec d 0) as [Hn|Hn].
      - rewrite Z.pow_neg_r by lia. lia.
      - replace d with 0%Z by lia. cbn. lia. }
    lia. }
  destruct (Z.lt_trichotomy d0 d) as [Hlt|[Heq|Hgt]]; [|exact Heq|].
  - assert ((2 ^ d0 <= 2 ^ (d - 1))%Z) by (apply Z.pow_le_mono_r; lia). lia.
  - assert ((2 ^ d <= 2 ^ (d0 - 1))%Z) by (apply Z.pow_le_mono_r; lia). lia.
Qed.

Lemma canonical_fexp (s : bool) (m : positive) (e : Z) :
  SFcanonical (S754_finite s m e) ->
  Z.max (Zpos (digits2_pos m) + e - 53) (-1074) = e.
Proof.
  intros (He & Hm & Hn).
  pose proof (digits2_pos_bounds m) as Hd.
  set (d := Zpos (digits2_pos m)) in *.
  assert (Hd1 : (1 <= d)%Z) by (unfold d; lia).
  assert (Hd53 : (d <= 53)%Z).
  { destruct (Z_le_gt_dec d 53) as [H|H]; [exact H|].
    assert ((2 ^ 53 <= 2 ^ (d - 1))%Z) by (apply Z.pow_le_mono_r; lia). lia. }
  destruct Hn as [->|Hn]; [lia|].
  assert (d = 53%Z); [|lia].
  destruct (Z.eq_dec d 53) as [E|E]; [exact E|].
  assert ((2 ^ d <= 2 ^ 52)%Z) by (apply Z.pow_le_mono_r; lia). lia.
Qed.

(** A mantissa whose low bits are all clear is rounded without error. *)
Lemma binary_round_aux_exact (s : bool) (mm m0 n : positive) (e : Z) :
  Zpos mm = (Zpos m0 * 2 ^ Zpos n)%Z ->
  SFcanonical (S754_finite s m0 (e + Zpos n)) ->
  binary_round_aux prec emax s (Zpos mm) e loc_Exact = S754_finite s m0 (e + Zpos n).
Proof.
  intros Hmm Hc. pose proof (canonical_fexp _ _ _ Hc) as Hf.
  pose proof (digits2_pos_bounds m0) as Hd0.
  set (d0 := Zpos (digits2_pos m0)) in *.
  assert (Hd01 : (1 <= d0)%Z) by (unfold d0; lia).
  assert (Hpn : (0 < 2 ^ Zpos n)%Z) by (apply pow2_pos; lia).
  assert (Hdm : Zpos (digits2_pos mm) = (d0 + Zpos n)%Z).
  { apply digits2_pos_unique. rewrite Hmm.
    replace (d0 + Zpos n - 1)%Z with ((d0 - 1) + Zpos n)%Z by lia.
    rewrite !Z.pow_add_r by lia. nia. }
  unfold binary_round_aux. rewrite shr_fexp_eq. cbn [Zdigits2]. rewrite Hdm.
  replace (Z.max (d0 + Zpos n + e - 53) (-1074) - e)%Z with (Zpos n) by lia.
  cbn [shr].
  pose proof (shr_inv (Zpos mm) n ltac:(lia)) as (Hq & t & Ht & Hs & Hm).
  destruct (SpecFloat.iter_pos shr_1 n _) as [q r st]. cbn [shr_m shr_r shr_s] in *.
  rewrite Hmm in Hm. set (P := (2 ^ Zpos n)%Z) in *.
  assert (Hk : (P * (2 * Zpos m0 - 2 * q - (if r then 1 else 0)) = t)%Z)
    by (destruct r; lia).
  assert (Hk0 : (2 * Zpos m0 - 2 * q - (if r then 1 else 0) = 0)%Z) by nia.
  assert (Ht0 : t = 0%Z) by (rewrite <- Hk, Hk0; lia).
  assert (Hr : r = false) by (destruct r; [lia|reflexivity]).
  assert (Hq0 : q = Zpos m0) by (rewrite Hr in Hk0; lia).
  rewrite Ht0 in Hs. cbn in Hs. rewrite Hr, Hq0, Hs.
  cbn [loc_of_shr_record round_nearest_even].
  rewrite shr_fexp_eq. cbn [Zdigits2]. fold d0.
  rewrite Hf, Z.sub_diag. cbn [shr shr_m].
  destruct Hc as (He & _). change (emax - prec)%Z with 971%Z.
  destruct (Z.leb_spec (e + Zpos n) 971); [reflexivity|lia].
Qed.

(** Multiplying by 1 changes no finite number. *)
Lemma SFmul_one (x : spec_float) :
  SFcanonical x -> SFfinite x = true ->
  SF64mul (S754_finite false 4503599627370496 (-52)) x = x.
Proof.
  destruct x as [s|s| |s m e]; try discriminate; intros Hc _; [reflexivity|].
  cbn [SF64mul SFmul xorb].
  rewrite (binary_round_aux_exact s (4503599627370496 * m) m 52 (-52 + e)).
  - f_equal. lia.
  - rewrite Pos2Z.inj_mul. change (2 ^ 52)%Z with 4503599627370496%Z. lia.
  - replace (-52 + e + 52)%Z with e by lia. exact Hc.
Qed.

Lemma SFeqb_refl (x : spec_float) : SFfinite x = true -> SFeqb x x = true.
Proof.
  destruct x as [s|s| |s m e]; try discriminate; intros _; [reflexivity|].
  unfold SFeqb, SFcompare.
  destruct s; now rewrite Z.compare_refl, Pos.compare_cont_refl.
Qed.

(** Adding a zero gives a number equal to the other term under [==]. *)
Lemma SFadd_zero_r (x : spec_float) (sz : bool) :
  SFfinite x = true -> SFeqb (SF64add x (S754_zero sz)) x = true.
Proof.
  destruct x as [s|s| |s m e]; try discriminate; intros _.
  - now destruct s, sz.
  - cbn [SF64add SFadd]. now apply SFeqb_refl.
Qed.

Lemma SFadd_zero_l (x : spec_float) (sz : bool) :
  SFfinite x = true -> SFeqb (SF64add (S754_zero sz) x) x = true.
Proof.
  destruct x as [s|s| |s m e]; try discriminate; intros _.
  - now destruct s, sz.
  - cbn [SF64add SFadd]. now apply SFeqb_refl.
Qed.

Lemma SFmul_zero_l (x : spec_float) :
  SFfinite x = true -> exists sz, SF64mul (S754_zero false) x = S754_zero sz.
Proof.
  destruct x as [s|s| |s m e]; try discriminate; intros _; cbn; eauto.
Qed.

(** With the draw 1.0 and finite genes [a] and [b], the two blends are
    equal to [a] and to [b] under float64's [==]. *)
Lemma blend_at_one_float64 (a b : float) :
  finite64 a = true -> finite64 b = true ->
  let q := (1 - 1)%float in
  (1 * a + q * b =? a)%float = true /\ (q * a + 1 * b =? b)%float = true.
Proof.
  intros Fa Fb q.
  assert (Eq : Prim2SF q = S754_zero false) by (vm_compute; reflexivity).
  assert (E1 : Prim2SF 1%float = S754_finite false 4503599627370496 (-52))
    by (vm_compute; reflexivity).
  assert (Ea : Prim2SF (1 * a)%float = Prim2SF a).
  { rewrite mul_spec, E1. apply SFmul_one; [apply Prim2SF_canonical|exact Fa]. }
  assert (Eb : Prim2SF (1 * b)%float = Prim2SF b).
  { rewrite mul_spec, E1. apply SFmul_one; [apply Prim2SF_canonical|exact Fb]. }
  destruct (SFmul_zero_l (Prim2SF a) Fa) as (sa & Hza).
  destruct (SFmul_zero_l (Prim2SF b) Fb) as (sb & Hzb).
  split; rewrite eqb_spec, add_spec, !mul_spec, Eq.
  - rewrite <- mul_spec, Ea, Hzb. now apply SFadd_zero_r.
  - rewrite <- (mul_spec 1 b), Eb, Hza. now apply SFadd_zero_l.
Qed.

(** ** Genes that are not numbers *)

(** A NaN gene makes both blends NaN, whatever the draw and the other gene. *)
Lemma blend_nan_float64 (p a b : float) :
  Prim2SF a = S754_nan \/ Prim2SF b = S754_nan ->
  let q := (1 - p)%float in
  Prim2SF (p * a + q * b)%float = S754_nan
  /\ Prim2SF (q * a + p * b)%float = S754_nan.
Proof.
  intros Hnan q. rewrite !add_spec, !mul_spec.
  destruct Hnan as [-> | ->].
  - split.
    + now destruct (Prim2SF p).
    + now destruct (Prim2SF q), (SF64mul (Prim2SF p) (Prim2SF b)).
  - split.
    + destruct (Prim2SF q); now destruct (SF64mul (Prim2SF p) (Prim2SF a)).
    + destruct (Prim2SF p); now destruct (SF64mul (Prim2SF q) (Prim2SF a)).
Qed.


(** An infinite gene of parent1 met by a draw of zero: the blend that
    weights it by the draw is NaN. *)
Lemma blend_inf_zero_float64 (p a b : float) :
  p = 0%float \/ p = (-0)%float -> a = infinity \/ a = neg_infinity ->
  Prim2SF (p * a + (1 - p) * b)%float = S754_nan.
Proof.
  intros Hp Ha. rewrite add_spec, (mul_spec p a).
  destruct Hp as [-> | ->], Ha as [-> | ->]; reflexivity.
Qed.

Lemma is_nan_Prim2SF (x : float) : is_nan x = true <-> Prim2SF x = S754_nan.
Proof.
  split.
  - intros H. unfold Prim2SF. now rewrite H.
  - intros H. apply (f_equal SF2Prim) in H. rewrite SF2Prim_Prim2SF in H.
    now subst x.
Qed.

(** A finite float64 of exponent [e] is below [2^(e+53)] in magnitude, and
    not negative when its sign bit is clear. *)
Lemma F2R_finite_bound (x : float) (s : bool) (m : positive) (e : Z) :
  Prim2SF x = S754_finite s m e ->
  (Rabs (F2R x) < powerRZ 2 (e + 53) /\ (s = false -> 0 <= F2R x))%R.
Proof.
  intros Hx. pose proof (Prim2SF_canonical x) as Hc.
  unfold F2R. rewrite Hx in *. destruct Hc as (_ & Hm & _).
  pose proof (pow2R_pos e) as He.
  apply IZR_lt in Hm. rewrite (IZR_pow2 53) in Hm by lia.
  split.
  - rewrite SF2R_abs, Z.add_comm, pow2R_add.
    apply Rmult_lt_compat_r; assumption.
  - intros ->. cbn [SF2R sgn]. rewrite Rmult_1_l.
    apply Rmult_le_pos; [apply IZR_le; lia|lra].
Qed.

End Binary64.

(** * The blend in float64 *)

(** C10 (amended): for two float64 parents of one length,
    [CrossUniformF.Apply] returns, and at every position [k] where the two
    genes [a] and [b] are finite with [|a| + |b| <= 2^1022] and the draw is a
    finite number of [[0, 1]], the offspring genes [x] and [y] are finite and
    their sum is the sum of the parents' genes up to rounding error, not
    exactly: as real numbers, [x + y] is within
    [2^-50 * (|a| + |b|) + 2^-1072] of [a + b], and so is the float64 sum of
    [x] and [y] of the float64 sum of [a] and [b]. *)
Theorem C10_float64_sum_conserved_up_to_rounding
  (cross : CrossUniformF) (p1 p2 : Individual float) (rng : Rand float) :
  length (Genome p2) = length (Genome p1) ->
  forallb is_float64 (Genome p1) = true ->
  forallb is_float64 (Genome p2) = true ->
  exists o1 o2 rng',
    CrossUniformF_Apply cross p1 p2 rng = Ok (o1, o2, rng')
    /\ forall k a b,
        nth_error (Genome p1) k = Some (Float a) ->
        nth_error (Genome p2) k = Some (Float b) ->
        finite64 a = true -> finite64 b = true ->
        (Rabs (F2R a) + Rabs (F2R b) <= powerRZ 2 1022)%R ->
        finite64 (nthFloat64 k rng) = true ->
        (0 <= F2R (nthFloat64 k rng) <= 1)%R ->
        exists x y,
          nth_error (Genome o1) k = Some (Float x)
          /\ nth_error (Genome o2) k = Some (Float y)
          /\ finite64 x = true /\ finite64 y = true
          /\ (Rabs (F2R x + F2R y - (F2R a + F2R b)) <= roundingBound a b)%R
          /\ finite64 (x + y)%float = true /\ finite64 (a + b)%float = true
          /\ (Rabs (F2R (x + y)%float - F2R (a + b)%float) <= roundingBound a b)%R.
Proof.
  intros Hlen Hf1 Hf2.
  destruct (CrossUniformF_Apply_spec cross p1 p2 rng Hlen Hf1 Hf2)
    as (o1 & o2 & Happ & _ & _ & Hgenes).
  eexists _, _, _. split; [exact Happ|].
  intros k a b Ha Hb Fa Fb Hsum Fp Hp.
  destruct (Hgenes k a b Ha Hb) as (H1 & H2).
  eexists _, _. split; [exact H1|]. split; [exact H2|].
  cbn [fadd fmul fsub fone ieee754].
  exact (blend_sum_float64 (nthFloat64 k rng) a b Fp Fa Fb Hp Hsum).
Qed.

Lemma C10_witness :
  exists o1 o2 rng',
    CrossUniformF_Apply Build_CrossUniformF
      (individual [Float f0_1]) (individual [Float f0_2]) (constRand 0 f0_3)
    = Ok (o1, o2, rng')
    /\ exists x y,
        nth_error (Genome o1) 0 = Some (Float x)
        /\ nth_error (Genome o2) 0 = Some (Float y)
        /\ finite64 x = true /\ finite64 y = true
        /\ (Rabs (F2R x + F2R y - (F2R f0_1 + F2R f0_2)) <= roundingBound f0_1 f0_2)%R
        /\ finite64 (x + y)%float = true /\ finite64 (f0_1 + f0_2)%float = true
        /\ (Rabs (F2R (x + y)%float - F2R (f0_1 + f0_2)%float)
            <= roundingBound f0_1 f0_2)%R.
Proof.
  destruct (C10_float64_sum_conserved_up_to_rounding Build_CrossUniformF
              (individual [Float f0_1]) (individual [Float f0_2]) (constRand 0 f0_3)
              eq_refl eq_refl eq_refl) as (o1 & o2 & rng' & Happ & Hk).
  exists o1, o2, rng'. split; [exact Happ|].
  destruct (F2R_finite_bound f0_1 false 7205759403792794 (-56) eq_refl) as (Ha & _).
  destruct (F2R_finite_bound f0_2 false 7205759403792794 (-55) eq_refl) as (Hb & _).
  destruct (F2R_finite_bound f0_3 false 5404319552844595 (-54) eq_refl) as (Hp & Hp0).
  pose proof (pow2R_le (-56 + 53) 0 ltac:(lia)) as La.
  pose proof (pow2R_le (-55 + 53) 0 ltac:(lia)) as Lb.
  pose proof (pow2R_le (-54 + 53) 0 ltac:(lia)) as Lp.
  pose proof (pow2R_le 1 1022 ltac:(lia)) as L2.
  change (powerRZ 2 0) with 1%R in La, Lb, Lp.
  replace (powerRZ 2 1) with 2%R in L2 by (unfold powerRZ; simpl; lra).
  apply (Hk 0%nat f0_1 f0_2 eq_refl eq_refl eq_refl eq_refl).
  - lra.
  - reflexivity.
  - specialize (Hp0 eq_refl). split; [exact Hp0|].
    change (F2R f0_3 <= 1)%R. apply Rabs_def2 in Hp. lra.
Defined.

(** ** Further properties of the blend in float64 *)

(** X13: for two float64 parents of one length, at every position [k]
    where the genes [a] and [b] are finite with [|a| + |b| <= 2^1022] and the
    draw is a finite number of [[0, 1]], both offspring genes are finite and
    leave the closed interval between [a] and [b] by rounding error at most:
    they lie in [[min(a,b) - s, max(a,b) + s]] with
    [s = 2^-51 * (|a| + |b|) + 2^-1073]. *)
Theorem X13_uniformF_blend_near_parents_interval
  (cross : CrossUniformF) (p1 p2 : Individual float) (rng : Rand float) :
  length (Genome p2) = length (Genome p1) ->
  forallb is_float64 (Genome p1) = true ->
  forallb is_float64 (Genome p2) = true ->
  exists o1 o2 rng',
    CrossUniformF_Apply cross p1 p2 rng = Ok (o1, o2, rng')
    /\ forall k a b,
        nth_error (Genome p1) k = Some (Float a) ->
        nth_error (Genome p2) k = Some (Float b) ->
        finite64 a = true -> finite64 b = true ->
        (Rabs (F2R a) + Rabs (F2R b) <= powerRZ 2 1022)%R ->
        finite64 (nthFloat64 k rng) = true ->
        (0 <= F2R (nthFloat64 k rng) <= 1)%R ->
        exists x y,
          nth_error (Genome o1) k = Some (Float x)
          /\ nth_error (Genome o2) k = Some (Float y)
          /\ finite64 x = true /\ finite64 y = true
          /\ (Rmin (F2R a) (F2R b) - intervalSlack a b <= F2R x
              <= Rmax (F2R a) (F2R b) + intervalSlack a b)%R
          /\ (Rmin (F2R a) (F2R b) - intervalSlack a b <= F2R y
              <= Rmax (F2R a) (F2R b) + intervalSlack a b)%R.
Proof.
  intros Hlen Hf1 Hf2.
  destruct (CrossUniformF_Apply_spec cross p1 p2 rng Hlen Hf1 Hf2)
    as (o1 & o2 & Happ & _ & _ & Hgenes).
  eexists _, _, _. split; [exact Happ|].
  intros k a b Ha Hb Fa Fb Hsum Fp Hp.
  destruct (Hgenes k a b Ha Hb) as (H1 & H2).
  eexists _, _. split; [exact H1|]. split; [exact H2|].
  cbn [fadd fmul fsub fone ieee754].
  exact (blend_float64 (nthFloat64 k rng) a b Fp Fa Fb Hp Hsum).
Qed.

(** X14: for two float64 parents of one length, at every position [k]
    where the genes are finite and the draw is exactly 1.0, offspring1's
    gene is equal to parent1's and offspring2's gene to parent2's, under
    float64's [==]. *)
Theorem X14_uniformF_draw_one_returns_parents
  (cross : CrossUniformF) (p1 p2 : Individual float) (rng : Rand float) :
  length (Genome p2) = length (Genome p1) ->
  forallb is_float64 (Genome p1) = true ->
  forallb is_float64 (Genome p2) = true ->
  exists o1 o2 rng',
    CrossUniformF_Apply cross p1 p2 rng = Ok (o1, o2, rng')
    /\ forall k a b,
        nth_error (Genome p1) k = Some (Float a) ->
        nth_error (Genome p2) k = Some (Float b) ->
        finite64 a = true -> finite64 b = true ->
        nthFloat64 k rng = 1%float ->
        exists x y,
          nth_error (Genome o1) k = Some (Float x)
          /\ nth_error (Genome o2) k = Some (Float y)
          /\ PrimFloat.eqb x a = true /\ PrimFloat.eqb y b = true.
Proof.
  intros Hlen Hf1 Hf2.
  destruct (CrossUniformF_Apply_spec cross p1 p2 rng Hlen Hf1 Hf2)
    as (o1 & o2 & Happ & _ & _ & Hgenes).
  eexists _, _, _. split; [exact Happ|].
  intros k a b Ha Hb Fa Fb Hp.
  destruct (Hgenes k a b Ha Hb) as (H1 & H2).
  eexists _, _. split; [exact H1|]. split; [exact H2|].
  cbn [fadd fmul fsub fone ieee754]. rewrite Hp.
  exact (blend_at_one_float64 a b Fa Fb).
Qed.

(** X15: for two float64 parents of one length, at every position [k]
    where a gene of either parent is NaN, both offspring genes are NaN,
    whatever the draw and the other gene. *)
Theorem X15_uniformF_nan_gene_spreads
  (cross : CrossUniformF) (p1 p2 : Individual float) (rng : Rand float) :
  length (Genome p2) = length (Genome p1) ->
  forallb is_float64 (Genome p1) = true ->
  forallb is_float64 (Genome p2) = true ->
  exists o1 o2 rng',
    CrossUniformF_Apply cross p1 p2 rng = Ok (o1, o2, rng')
    /\ forall k a b,
        nth_error (Genome p1) k = Some (Float a) ->
        nth_error (Genome p2) k = Some (Float b) ->
        is_nan a = true \/ is_nan b = true ->
        exists x y,
          nth_error (Genome o1) k = Some (Float x)
          /\ nth_error (Genome o2) k = Some (Float y)
          /\ is_nan x = true /\ is_nan y = true.
Proof.
  intros Hlen Hf1 Hf2.
  destruct (CrossUniformF_Apply_spec cross p1 p2 rng Hlen Hf1 Hf2)
    as (o1 & o2 & Happ & _ & _ & Hgenes).
  eexists _, _, _. split; [exact Happ|].
  intros k a b Ha Hb Hnan.
  destruct (Hgenes k a b Ha Hb) as (H1 & H2).
  eexists _, _. split; [exact H1|]. split; [exact H2|].
  cbn [fadd fmul fsub fone ieee754].
  rewrite !is_nan_Prim2SF in *.
  exact (blend_nan_float64 (nthFloat64 k rng) a b Hnan).
Qed.

(** X16: for two float64 parents of one length, at every position [k]
    where parent1's gene is an infinity and the draw is zero, offspring1's
    gene is NaN: the product of the draw and the gene is not a number. *)
Theorem X16_uniformF_infinite_gene_zero_draw
  (cross : CrossUniformF) (p1 p2 : Individual float) (rng : Rand float) :
  length (Genome p2) = length (Genome p1) ->
  forallb is_float64 (Genome p1) = true ->
  forallb is_float64 (Genome p2) = true ->
  exists o1 o2 rng',
    CrossUniformF_Apply cross p1 p2 rng = Ok (o1, o2, rng')
    /\ forall k a b,
        nth_error (Genome p1) k = Some (Float a) ->
        nth_error (Genome p2) k = Some (Float b) ->
        a = infinity \/ a = neg_infinity ->
        nthFloat64 k rng = 0%float \/ nthFloat64 k rng = (-0)%float ->
        exists x,
          nth_error (Genome o1) k = Some (Float x) /\ is_nan x = true.
Proof.
  intros Hlen Hf1 Hf2.
  destruct (CrossUniformF_Apply_spec cross p1 p2 rng Hlen Hf1 Hf2)
    as (o1 & o2 & Happ & _ & _ & Hgenes).
  eexists _, _, _. split; [exact Happ|].
  intros k a b Ha Hb Hinf Hp.
  destruct (Hgenes k a b Ha Hb) as (H1 & _).
  eexists. split; [exact H1|].
  cbn [fadd fmul fsub fone ieee754].
  apply is_nan_Prim2SF. now apply blend_inf_zero_float64.
Qed.

Lemma X13_witness :
  exists o1 o2 rng',
    CrossUniformF_Apply Build_CrossUniformF
      (individual [Float f0_1]) (individual [Float f0_1]) (constRand 0 f0_3)
    = Ok (o1, o2, rng')
    /\ exists x y,
        nth_error (Genome o1) 0 = Some (Float x)
        /\ nth_error (Genome o2) 0 = Some (Float y)
        /\ finite64 x = true /\ finite64 y = true
        /\ (Rmin (F2R f0_1) (F2R f0_1) - intervalSlack f0_1 f0_1 <= F2R x
            <= Rmax (F2R f0_1) (F2R f0_1) + intervalSlack f0_1 f0_1)%R
        /\ (Rmin (F2R f0_1) (F2R f0_1) - intervalSlack f0_1 f0_1 <= F2R y
            <= Rmax (F2R f0_1) (F2R f0_1) + intervalSlack f0_1 f0_1)%R.
Proof.
  destruct (X13_uniformF_blend_near_parents_interval Build_CrossUniformF
              (individual [Float f0_1]) (individual [Float f0_1]) (constRand 0 f0_3)
              eq_refl eq_refl eq_refl) as (o1 & o2 & rng' & Happ & Hk).
  exists o1, o2, rng'. split; [exact Happ|].
  destruct (F2R_finite_bound f0_1 false 7205759403792794 (-56) eq_refl) as (Ha & _).
  destruct (F2R_finite_bound f0_3 false 5404319552844595 (-54) eq_refl) as (Hp & Hp0).
  pose proof (pow2R_le (-56 + 53) 0 ltac:(lia)) as La.
  pose proof (pow2R_le (-54 + 53) 0 ltac:(lia)) as Lp.
  pose proof (pow2R_le 1 1022 ltac:(lia)) as L2.
  change (powerRZ 2 0) with 1%R in La, Lp.
  replace (powerRZ 2 1) with 2%R in L2 by (unfold powerRZ; simpl; lra).
  apply (Hk 0%nat f0_1 f0_1 eq_refl eq_refl eq_refl eq_refl).
  - lra.
  - reflexivity.
  - specialize (Hp0 eq_refl). split; [exact Hp0|].
    change (F2R f0_3 <= 1)%R. apply Rabs_def2 in Hp. lra.
Defined.

Lemma X14_witness :
  exists o1 o2 rng',
    CrossUniformF_Apply Build_CrossUniformF
      (individual [Float f0_1]) (individual [Float f0_2]) (constRand 0 1%float)
    = Ok (o1, o2, rng')
    /\ exists x y,
        nth_error (Genome o1) 0 = Some (Float x)
        /\ nth_error (Genome o2) 0 = Some (Float y)
        /\ PrimFloat.eqb x f0_1 = true /\ PrimFloat.eqb y f0_2 = true.
Proof.
  destruct (X14_uniformF_draw_one_returns_parents Build_CrossUniformF
              (individual [Float f0_1]) (individual [Float f0_2])
              (constRand 0 1%float) eq_refl eq_refl eq_refl)
    as (o1 & o2 & rng' & Happ & Hk).
  exists o1, o2, rng'. split; [exact Happ|].
  apply (Hk 0%nat f0_1 f0_2 eq_refl eq_refl eq_refl eq_refl eq_refl).
Defined.

Lemma X15_witness :
  exists o1 o2 rng',
    CrossUniformF_Apply Build_CrossUniformF
      (individual [Float nan]) (individual [Float f0_2]) (constRand 0 f0_3)
    = Ok (o1, o2, rng')
    /\ exists x y,
        nth_error (Genome o1) 0 = Some (Float x)
        /\ nth_error (Genome o2) 0 = Some (Float y)
        /\ is_nan x = true /\ is_nan y = true.
Proof.
  destruct (X15_uniformF_nan_gene_spreads Build_CrossUniformF
              (individual [Float nan]) (individual [Float f0_2])
              (constRand 0 f0_3) eq_refl eq_refl eq_refl)
    as (o1 & o2 & rng' & Happ & Hk).
  exists o1, o2, rng'. split; [exact Happ|].
  apply (Hk 0%nat nan f0_2 eq_refl eq_refl). left. reflexivity.
Defined.

Lemma X16_witness :
  exists o1 o2 rng',
    CrossUniformF_Apply Build_CrossUniformF
      (individual [Float infinity]) (individual [Float f0_2]) (constRand 0 0%float)
    = Ok (o1, o2, rng')
    /\ exists x, nth_error (Genome o1) 0 = Some (Float x) /\ is_nan x = true.
Proof.
  destruct (X16_uniformF_infinite_gene_zero_draw Build_CrossUniformF
              (individual [Float infinity]) (individual [Float f0_2])
              (constRand 0 0%float) eq_refl eq_refl eq_refl)
    as (o1 & o2 & rng' & Happ & Hk).
  exists o1, o2, rng'. split; [exact Happ|].
  apply (Hk 0%nat infinity f0_2 eq_refl eq_refl); left; reflexivity.
Defined.

(** * Further properties of the operators *)

Section MoreFacts.

Context {F : Type} {FA : Float64Arith F}.

(** ** CrossPoint *)

Lemma sortInts_head_least (points : list Z) (d : Z) :
  points <> [] ->
  In (hd d (sortInts points)) points
  /\ forall x, In x points -> hd d (sortInts points) <= x.
Proof.
  intros Hne.
  pose proof (sortInts_perm points) as Hperm.
  pose proof (sortInts_sorted points) as Hsorted.
  destruct (sortInts points) as [|c rest] eqn:E.
  - apply Permutation_nil in Hperm. contradiction.
  - cbn [hd]. split.
    + eapply Permutation_in; [exact Hperm|]. now left.
    + intros x Hx.
      apply (Permutation_in _ (Permutation_sym Hperm)) in Hx.
      destruct Hx as [->|Hx]; [lia|].
      apply StronglySorted_inv in Hsorted. destruct Hsorted as (_ & Hall).
      rewrite Forall_forall in Hall. now apply Hall.
Qed.

(** A request that can be met ([0 <= NbPoints <= genomeLength]) on parents
    of one length: by the contract of section 4.2 alone the points lie inside
    the genome, and the offspring are the parents cut at one position. *)
Lemma CrossPoint_Apply_valid (cross : CrossPoint) (p1 p2 : Individual F) (rng : Rand F) :
  0 <= NbPoints cross <= len (Genome p1) ->
  length (Genome p2) = length (Genome p1) ->
  exists (c : nat) rng',
    (c <= length (Genome p1))%nat
    /\ CrossPoint_Apply cross p1 p2 rng =
       Ok ({| Genome := firstn c (Genome p1) ++ skipn c (Genome p2);
              fitnessValid := false |},
           {| Genome := firstn c (Genome p2) ++ skipn c (Genome p1);
              fitnessValid := false |},
           rng').
Proof.
  intros Hk Hlen.
  destruct (randomInts_spec (NbPoints cross) 0 (len (Genome p1)) rng ltac:(lia))
    as (xs & Hr & _ & _ & Hrange).
  exists (firstCut xs (len (Genome p1))). eexists. split.
  - apply firstCut_le. exact Hrange.
  - rewrite CrossPoint_Apply_with_randomInts.
    apply (CrossPoint_Apply_with_spec randomInts cross p1 p2 rng xs None _ Hr Hrange Hlen).
Qed.

(** X1: with [1 <= NbPoints <= genomeLength] and parents of one length,
    [CrossPoint.Apply] cuts once, at the smallest of the points drawn:
    offspring1 is parent1 before that point and parent2 from it on, and
    offspring2 the other way round, however many points were asked. *)
Theorem X1_crosspoint_cuts_at_smallest_point
  (cross : CrossPoint) (p1 p2 : Individual F) (rng : Rand F) :
  1 <= NbPoints cross <= len (Genome p1) ->
  length (Genome p2) = length (Genome p1) ->
  exists (c : nat) o1 o2 rng',
    CrossPoint_Apply cross p1 p2 rng = Ok (o1, o2, rng')
    /\ In (Z.of_nat c) (fst (fst (randomInts (NbPoints cross) 0 (len (Genome p1)) rng)))
    /\ (forall x,
          In x (fst (fst (randomInts (NbPoints cross) 0 (len (Genome p1)) rng))) ->
          Z.of_nat c <= x)
    /\ Genome o1 = firstn c (Genome p1) ++ skipn c (Genome p2)
    /\ Genome o2 = firstn c (Genome p2) ++ skipn c (Genome p1).
Proof.
  intros Hk Hlen.
  destruct (randomInts_spec (NbPoints cross) 0 (len (Genome p1)) rng ltac:(lia))
    as (xs & Hr & Hxs & _ & Hrange).
  assert (Hne : xs <> []) by (intros ->; unfold len in Hxs; cbn in Hxs; lia).
  destruct (sortInts_head_least xs (len (Genome p1)) Hne) as (Hin & Hleast).
  exists (firstCut xs (len (Genome p1))).
  eexists _, _, _. split; [apply (CrossPoint_Apply_spec cross p1 p2 rng Hlen)|].
  rewrite Hr. cbn [fst snd Genome].
  assert (Hc : Z.of_nat (firstCut xs (len (Genome p1)))
               = hd (len (Genome p1)) (sortInts xs)).
  { unfold firstCut. rewrite Forall_forall in Hrange.
    pose proof (Hrange _ Hin). lia. }
  rewrite Hc. repeat split; assumption.
Qed.

(** X2: for parents of one length and [0 <= NbPoints <= genomeLength],
    the offspring of [CrossPoint.Apply] are complementary: at every
    position, either offspring1 has parent1's gene and offspring2 parent2's,
    or offspring1 has parent2's gene and offspring2 parent1's. *)
Theorem X2_crosspoint_offspring_complementary
  (cross : CrossPoint) (p1 p2 : Individual F) (rng : Rand F) :
  0 <= NbPoints cross <= len (Genome p1) ->
  length (Genome p2) = length (Genome p1) ->
  exists o1 o2 rng',
    CrossPoint_Apply cross p1 p2 rng = Ok (o1, o2, rng')
    /\ forall k,
        (nth_error (Genome o1) k = nth_error (Genome p1) k
         /\ nth_error (Genome o2) k = nth_error (Genome p2) k)
        \/ (nth_error (Genome o1) k = nth_error (Genome p2) k
            /\ nth_error (Genome o2) k = nth_error (Genome p1) k).
Proof.
  intros Hk Hlen.
  destruct (CrossPoint_Apply_valid cross p1 p2 rng Hk Hlen) as (c & rng' & Hc & Happ).
  eexists _, _, _. split; [exact Happ|].
  cbn [Genome]. intros k.
  rewrite (nth_error_cut (Genome p1) (Genome p2)) by assumption.
  rewrite (nth_error_cut (Genome p2) (Genome p1)) by (rewrite ?Hlen; auto).
  destruct (Nat.ltb k c); [left|right]; auto.
Qed.

(** X3: for parents of one length, exchanging the parents of
    [CrossPoint.Apply] exchanges the offspring: the same source gives the
    same cut. *)
Theorem X3_crosspoint_exchanging_parents
  (cross : CrossPoint) (p1 p2 : Individual F) (rng : Rand F) :
  length (Genome p2) = length (Genome p1) ->
  CrossPoint_Apply cross p2 p1 rng = exchange (CrossPoint_Apply cross p1 p2 rng).
Proof.
  intros Hlen.
  rewrite (CrossPoint_Apply_spec cross p1 p2 rng Hlen).
  rewrite (CrossPoint_Apply_spec cross p2 p1 rng (eq_sym Hlen)).
  unfold len. now rewrite Hlen.
Qed.

(** ** CrossPMX: exchanging the parents *)

Lemma index_panic {A : Type} (l : list A) (i : Z) (e : panic) :
  index l i = Panic e -> e = IndexRange.
Proof.
  unfold index. destruct (i <? 0); [now intros [= <-]|].
  destruct (nth_error l (Z.to_nat i)); [discriminate|now intros [= <-]].
Qed.

Lemma setIndex_panic {A : Type} (l : list A) (i : Z) (x : A) (e : panic) :
  setIndex l i x = Panic e -> e = IndexRange.
Proof.
  unfold setIndex. destruct ((0 <=? i) && (i <? len l))%bool;
    [discriminate|now intros [= <-]].
Qed.

(** The only failure of a swap is an index out of range. *)
Lemma pmxSwap_panic (g o : list (value F)) (i : Z) (e : panic) :
  pmxSwap g o i = Panic e -> e = IndexRange.
Proof.
  unfold pmxSwap.
  destruct (index g i) as [y|e1] eqn:E1; cbn [bind];
    [|intros [= <-]; exact (index_panic _ _ _ E1)].
  destruct (index o i) as [x|e2] eqn:E2; cbn [bind];
    [|intros [= <-]; exact (index_panic _ _ _ E2)].
  destruct (setIndex o (getIndex y o) x) as [o'|e3] eqn:E3; cbn [bind];
    [|intros [= <-]; exact (setIndex_panic _ _ _ _ E3)].
  apply setIndex_panic.
Qed.

Lemma crossPMXBody_exchange (g1 g2 o1 o2 : list (value F)) (i : Z) :
  crossPMXBody g2 g1 i (o2, o1) =
  match crossPMXBody g1 g2 i (o1, o2) with
  | Ok (a, b) => Ok (b, a)
  | Panic e => Panic e
  end.
Proof.
  unfold crossPMXBody.
  destruct (pmxSwap g2 o1 i) as [a|e1] eqn:E1;
    destruct (pmxSwap g1 o2 i) as [b|e2] eqn:E2; cbn [bind]; try reflexivity.
  now rewrite (pmxSwap_panic _ _ _ _ E1), (pmxSwap_panic _ _ _ _ E2).
Qed.

Lemma crossPMX_loop_exchange (g1 g2 : list (value F)) (n : nat) :
  forall (i : Z) (o1 o2 : list (value F)),
    forLoop n i (crossPMXBody g2 g1) (o2, o1) =
    match forLoop n i (crossPMXBody g1 g2) (o1, o2) with
    | Ok (a, b) => Ok (b, a)
    | Panic e => Panic e
    end.
Proof.
  induction n as [|n IH]; intros i o1 o2; cbn [forLoop]; [reflexivity|].
  rewrite crossPMXBody_exchange.
  destruct (crossPMXBody g1 g2 i (o1, o2)) as [[a b]|e]; cbn [bind]; [|reflexivity].
  apply IH.
Qed.

(** X4: for parents of one length, exchanging the parents of
    [CrossPMX.Apply] exchanges the offspring, and the call fails for one
    order exactly when it fails for the other, with the same panic. *)
Theorem X4_pmx_exchanging_parents
  (c : CrossPMX) (p1 p2 : Individual F) (rng : Rand F) :
  length (Genome p2) = length (Genome p1) ->
  CrossPMX_Apply c p2 p1 rng = exchange (CrossPMX_Apply c p1 p2 rng).
Proof.
  intros Hlen. unfold CrossPMX_Apply, len. rewrite Hlen.
  destruct (pmxPoint (Z.of_nat (length (Genome p1))) rng) as [[p rng']|e];
    cbn [bind]; [|reflexivity].
  cbn [Genome fitnessValid makeIndividual].
  rewrite crossPMX_loop_exchange.
  destruct (forLoop (Z.to_nat p) 0 (crossPMXBody (Genome p1) (Genome p2)) _)
    as [[a b]|e]; reflexivity.
Qed.

(** ** CrossPMX: the genes that stay in place *)

(** A swap changes position [i] and the position where [y] was found, and
    nothing else. *)
Lemma pmxSwap_frame (g o : list (value F)) (i : nat) (y : value F) :
  nth_error g i = Some y ->
  Forall (fun v => is_token v = true) o -> In y o ->
  (i < length o)%nat ->
  (forall k, (k < i)%nat -> nth_error o k <> Some y) ->
  exists o', pmxSwap g o (Z.of_nat i) = Ok o'
             /\ Permutation o' o
             /\ nth_error o' i = Some y
             /\ forall k, k <> i -> nth_error o k <> Some y ->
                          nth_error o' k = nth_error o k.
Proof.
  intros Hy Htok Hin Hi Hbefore.
  destruct (pmxSwap_spec g o i y Hy Htok Hin Hi Hbefore) as (o' & Hs & Hp & Hat & _).
  exists o'. split; [exact Hs|]. split; [exact Hp|]. split; [exact Hat|].
  destruct (getIndexFrom_spec y o Htok Hin 0) as (a & Ha & Hnth & Hfirst).
  assert (Hal : (a < length o)%nat) by (apply nth_error_Some; congruence).
  destruct (nth_error_lt o i Hi) as (x & Hx).
  revert Hs. unfold pmxSwap.
  rewrite (bind_Ok _ _ _ (index_Ok g i y Hy)).
  unfold getIndex. rewrite Ha. cbn [Z.add].
  rewrite (bind_Ok _ _ _ (index_Ok o i x Hx)).
  rewrite (bind_Ok _ _ _ (index_Ok g i y Hy)).
  rewrite (bind_Ok _ _ _ (setIndex_Ok o a x Hal)).
  rewrite setIndex_Ok by (rewrite length_update; assumption).
  intros [= <-]. intros k Hki Hky.
  rewrite !nth_error_update by (rewrite ?length_update; assumption).
  destruct (Nat.eqb_spec k i); [contradiction|].
  destruct (Nat.eqb_spec k a) as [->|]; [contradiction|reflexivity].
Qed.

Lemma crossPMX_step_frame (g o h : list (value F)) (j p : nat) :
  Forall (fun v => is_token v = true) g -> NoDup g ->
  Permutation o h -> Permutation h g ->
  (j < p <= length g)%nat ->
  (forall k, (k < j)%nat -> nth_error o k = nth_error g k) ->
  (forall k v, (p <= k)%nat -> nth_error h k = Some v ->
               ~ In v (firstn p g) -> nth_error o k = Some v) ->
  exists o', pmxSwap g o (Z.of_nat j) = Ok o'
             /\ Permutation o' h
             /\ (forall k, (k < S j)%nat -> nth_error o' k = nth_error g k)
             /\ (forall k v, (p <= k)%nat -> nth_error h k = Some v ->
                             ~ In v (firstn p g) -> nth_error o' k = Some v).
Proof.
  intros Htok Hnd Hoh Hhg Hj Hdone Hkept.
  destruct (nth_error_lt g j ltac:(lia)) as (y & Hy).
  assert (Hog : Permutation o g) by (etransitivity; eassumption).
  assert (Hbefore : forall k, (k < j)%nat -> nth_error o k <> Some y).
  { intros k Hk Hko. rewrite (Hdone k Hk) in Hko.
    rewrite NoDup_nth_error in Hnd.
    assert (k = j) by (apply Hnd; [lia|congruence]). lia. }
  destruct (pmxSwap_frame g o j y Hy) as (o' & Hs & Hp & Hat & Hframe).
  - eapply Permutation_Forall; [symmetry; exact Hog|exact Htok].
  - eapply Permutation_in; [symmetry; exact Hog|]. eapply nth_error_In; exact Hy.
  - rewrite (Permutation_length Hog). lia.
  - exact Hbefore.
  - exists o'. split; [exact Hs|]. split; [etransitivity; eassumption|]. split.
    + intros k Hk. destruct (Nat.eq_dec k j) as [->|Hne]; [congruence|].
      rewrite Hframe; [apply Hdone; lia|exact Hne|apply Hbefore; lia].
    + intros k v Hk Hv Hnot.
      rewrite Hframe; [now apply Hkept|lia|].
      rewrite (Hkept k v Hk Hv Hnot). intros [= ->].
      apply Hnot. apply (nth_error_In (firstn p g) j).
      rewrite nth_error_firstn.
      now rewrite (proj2 (Nat.ltb_lt j p)) by lia.
Qed.

Lemma crossPMX_loop_frame (g1 g2 : list (value F)) (p : nat) :
  Forall (fun v => is_token v = true) g1 -> NoDup g1 -> Permutation g1 g2 ->
  (p <= length g1)%nat ->
  exists o1 o2,
    forLoop p 0 (crossPMXBody g1 g2) (g1, g2) = Ok (o1, o2)
    /\ length o1 = length g1 /\ length o2 = length g1
    /\ (forall k, (k < p)%nat ->
          nth_error o1 k = nth_error g2 k /\ nth_error o2 k = nth_error g1 k)
    /\ (forall k v, (p <= k)%nat -> nth_error g1 k = Some v ->
                    ~ In v (firstn p g2) -> nth_error o1 k = Some v)
    /\ (forall k v, (p <= k)%nat -> nth_error g2 k = Some v ->
                    ~ In v (firstn p g1) -> nth_error o2 k = Some v).
Proof.
  intros Htok Hnd Hperm Hp.
  assert (Htok2 : Forall (fun v => is_token v = true) g2)
    by (eapply Permutation_Forall; eassumption).
  assert (Hnd2 : NoDup g2) by (eapply Permutation_NoDup; eassumption).
  pose proof (Permutation_length Hperm) as Hlen.
  destruct (forLoop_inv
              (fun i st =>
                 let '(o1, o2) := st in
                 crossPMXInv g1 g2 i (o1, o2)
                 /\ (forall k v, (p <= k)%nat -> nth_error g1 k = Some v ->
                                 ~ In v (firstn p g2) -> nth_error o1 k = Some v)
                 /\ (forall k v, (p <= k)%nat -> nth_error g2 k = Some v ->
                                 ~ In v (firstn p g1) -> nth_error o2 k = Some v))
              (crossPMXBody g1 g2) p 0 (g1, g2))
    as ([o1 o2] & Hloop & Hinv).
  - cbn. repeat split; try reflexivity; try lia; auto.
  - intros i [o1 o2] Hi ((H1 & H2 & Hdone) & Hk1 & Hk2).
    remember (Z.to_nat i) as j eqn:Hj.
    assert (Hij : i = Z.of_nat j) by lia. subst i. clear Hj.
    destruct (crossPMX_step_frame g2 o1 g1 j p) as (o1' & Hs1 & Hp1 & Hd1 & Hf1);
      [assumption|assumption|assumption|assumption|lia| |assumption|].
    { intros k Hk. apply Hdone. lia. }
    destruct (crossPMX_step_frame g1 o2 g2 j p) as (o2' & Hs2 & Hp2 & Hd2 & Hf2);
      [assumption|assumption|assumption|now symmetry|lia| |assumption|].
    { intros k Hk. apply Hdone. lia. }
    unfold crossPMXBody.
    rewrite (bind_Ok _ _ _ Hs1), (bind_Ok _ _ _ Hs2).
    eexists. split; [reflexivity|].
    cbn. repeat split; try assumption.
    + apply Hd1. lia.
    + apply Hd2. lia.
  - exists o1, o2. destruct Hinv as ((H1 & H2 & Hdone) & Hk1 & Hk2).
    split; [exact Hloop|].
    split; [apply (Permutation_length H1)|].
    split; [rewrite (Permutation_length H2); now symmetry|].
    split; [|split; assumption].
    intros k Hk. apply Hdone. lia.
Qed.

(** [CrossPMX.Apply] on two permutations of one set of at least three
    tokens, position by position: before the point the other parent's gene;
    from the point on, the own parent's gene wherever that gene is not among
    the other parent's genes before the point. *)
Lemma CrossPMX_Apply_frame (c : CrossPMX) (p1 p2 : Individual F) (rng : Rand F) :
  3 <= len (Genome p1) ->
  forallb is_token (Genome p1) = true ->
  NoDup (Genome p1) -> Permutation (Genome p1) (Genome p2) ->
  exists (p : nat) (g1 g2 : list (value F)),
    pmxPoint (len (Genome p1)) rng = Ok (Z.of_nat p, advance rng)
    /\ (0 < p < length (Genome p1) - 1)%nat
    /\ CrossPMX_Apply c p1 p2 rng =
       Ok ({| Genome := g1; fitnessValid := false |},
           {| Genome := g2; fitnessValid := false |}, advance rng)
    /\ length g1 = length (Genome p1) /\ length g2 = length (Genome p1)
    /\ (forall k, (k < p)%nat ->
          nth_error g1 k = nth_error (Genome p2) k
          /\ nth_error g2 k = nth_error (Genome p1) k)
    /\ (forall k v, (p <= k)%nat -> nth_error (Genome p1) k = Some v ->
                    ~ In v (firstn p (Genome p2)) -> nth_error g1 k = Some v)
    /\ (forall k v, (p <= k)%nat -> nth_error (Genome p2) k = Some v ->
                    ~ In v (firstn p (Genome p1)) -> nth_error g2 k = Some v).
Proof.
  intros Hn Htok Hnd Hperm.
  assert (Htok' : Forall (fun v => is_token v = true) (Genome p1))
    by (apply Forall_forall; apply forallb_forall; exact Htok).
  pose proof (Permutation_length Hperm) as Hlen.
  destruct (Intn_range rng (len (Genome p1) - 2) ltac:(lia)) as (v & Hv & Hvr).
  set (p := Z.to_nat (v + 1)).
  assert (Hpz : v + 1 = Z.of_nat p) by (unfold p; lia).
  destruct (crossPMX_loop_frame (Genome p1) (Genome p2) p Htok' Hnd Hperm)
    as (g1 & g2 & Hloop & Hl1 & Hl2 & Hpre & Hk1 & Hk2).
  { unfold len in *. lia. }
  exists p, g1, g2.
  assert (Hpoint : pmxPoint (len (Genome p1)) rng = Ok (Z.of_nat p, advance rng)).
  { unfold pmxPoint. rewrite (bind_Ok _ _ _ Hv). now rewrite Hpz. }
  split; [exact Hpoint|]. split; [unfold len in *; lia|]. split; [|auto 10].
  unfold CrossPMX_Apply. rewrite (bind_Ok _ _ _ Hpoint).
  unfold makeIndividual. cbn [Genome fitnessValid].
  rewrite !copy_same_length
    by (rewrite repeat_length; unfold len; lia).
  rewrite Nat2Z.id, (bind_Ok _ _ _ Hloop). reflexivity.
Qed.

(** X5: when the two parents carry the same permutation (at least three
    distinct tokens), [CrossPMX.Apply] returns two copies of it, whatever
    point is drawn, and draws exactly one integer from the source. *)
Theorem X5_pmx_identical_parents
  (c : CrossPMX) (p1 p2 : Individual F) (rng : Rand F) :
  3 <= len (Genome p1) ->
  forallb is_token (Genome p1) = true ->
  NoDup (Genome p1) -> Genome p2 = Genome p1 ->
  CrossPMX_Apply c p1 p2 rng =
  Ok ({| Genome := Genome p1; fitnessValid := false |},
      {| Genome := Genome p1; fitnessValid := false |}, advance rng).
Proof.
  intros Hn Htok Hnd Heq.
  assert (Hperm : Permutation (Genome p1) (Genome p2)) by (now rewrite Heq).
  destruct (CrossPMX_Apply_frame c p1 p2 rng Hn Htok Hnd Hperm)
    as (p & g1 & g2 & _ & _ & Happ & Hl1 & Hl2 & Hpre & Hk1 & Hk2).
  rewrite Heq in *.
  assert (Hfresh : forall k v, (p <= k)%nat -> nth_error (Genome p1) k = Some v ->
                               ~ In v (firstn p (Genome p1))).
  { intros k v Hk Hv Hin. apply In_nth_error in Hin. destruct Hin as (j & Hjv).
    assert (Hjp : (j < p)%nat).
    { assert (Hlt : (j < length (firstn p (Genome p1)))%nat)
        by (apply nth_error_Some; congruence).
      rewrite length_firstn in Hlt. lia. }
    rewrite nth_error_firstn, (proj2 (Nat.ltb_lt j p) Hjp) in Hjv.
    rewrite NoDup_nth_error in Hnd.
    assert (j = k).
    { apply Hnd; [apply nth_error_Some; congruence|congruence]. }
    lia. }
  assert (E : forall g, length g = length (Genome p1) ->
                (forall k, (k < p)%nat -> nth_error g k = nth_error (Genome p1) k) ->
                (forall k v, (p <= k)%nat -> nth_error (Genome p1) k = Some v ->
                             ~ In v (firstn p (Genome p1)) -> nth_error g k = Some v) ->
                g = Genome p1).
  { intros g Hl Hlow Hhigh. apply nth_error_ext; [exact Hl|].
    intros k Hk. destruct (Nat.lt_ge_cases k p) as [Hkp|Hkp]; [now apply Hlow|].
    destruct (nth_error_lt (Genome p1) k ltac:(lia)) as (v & Hv).
    rewrite Hv. apply Hhigh; [exact Hkp|exact Hv|]. eapply Hfresh; eassumption. }
  rewrite Happ.
  rewrite (E g1 Hl1 (fun k Hk => proj1 (Hpre k Hk)) Hk1).
  rewrite (E g2 Hl2 (fun k Hk => proj2 (Hpre k Hk)) Hk2).
  reflexivity.
Qed.

(** X6: on two permutations of one set of at least three tokens, with [p]
    the point drawn, [CrossPMX.Apply] leaves in place, from position [p] on,
    every gene of parent1 that is not among parent2's genes before [p] (in
    offspring1), and every gene of parent2 that is not among parent1's genes
    before [p] (in offspring2). *)
Theorem X6_pmx_keeps_unconflicting_genes
  (c : CrossPMX) (p1 p2 : Individual F) (rng : Rand F) :
  3 <= len (Genome p1) ->
  forallb is_token (Genome p1) = true ->
  NoDup (Genome p1) -> Permutation (Genome p1) (Genome p2) ->
  exists (p : nat) o1 o2 rng',
    pmxPoint (len (Genome p1)) rng = Ok (Z.of_nat p, rng')
    /\ CrossPMX_Apply c p1 p2 rng = Ok (o1, o2, rng')
    /\ (forall k v, (p <= k)%nat -> nth_error (Genome p1) k = Some v ->
                    ~ In v (firstn p (Genome p2)) ->
                    nth_error (Genome o1) k = Some v)
    /\ (forall k v, (p <= k)%nat -> nth_error (Genome p2) k = Some v ->
                    ~ In v (firstn p (Genome p1)) ->
                    nth_error (Genome o2) k = Some v).
Proof.
  intros Hn Htok Hnd Hperm.
  destruct (CrossPMX_Apply_frame c p1 p2 rng Hn Htok Hnd Hperm)
    as (p & g1 & g2 & Hpt & _ & Happ & _ & _ & _ & Hk1 & Hk2).
  exists p. eexists _, _, _. split; [exact Hpt|]. split; [exact Happ|].
  cbn [Genome]. split; assumption.
Qed.

(** ** Loops that fail *)

(** If some iteration [j] of the loop always panics with [e], and every
    iteration before it either panics with [e] or keeps the invariant, the
    loop panics with [e]. *)
Lemma forLoop_panics {St : Type} (I : Z -> St -> Prop)
  (body : Z -> St -> result St) (e : panic) (j : Z) :
  (forall s, I j s -> body j s = Panic e) ->
  forall (n : nat) (i0 : Z) (s0 : St),
    i0 <= j < i0 + Z.of_nat n ->
    I i0 s0 ->
    (forall i s, i0 <= i < j -> I i s ->
                 body i s = Panic e \/ exists s', body i s = Ok s' /\ I (i + 1) s') ->
    forLoop n i0 body s0 = Panic e.
Proof.
  intros Hj. induction n as [|n IH]; intros i0 s0 Hr H0 Hstep; [lia|].
  cbn [forLoop].
  destruct (Z.eq_dec i0 j) as [->|Hne].
  - now rewrite (Hj s0 H0).
  - destruct (Hstep i0 s0 ltac:(lia) H0) as [Hp|(s1 & Hb & H1)].
    + now rewrite Hp.
    + rewrite (bind_Ok _ _ _ Hb). apply IH; [lia|exact H1|].
      intros i s Hi. apply Hstep. lia.
Qed.

Lemma setIndex_Ok_inv {A : Type} (l : list A) (i : Z) (x : A) (l' : list A) :
  setIndex l i x = Ok l' ->
  0 <= i /\ (Z.to_nat i < length l)%nat /\ l' = update l (Z.to_nat i) x.
Proof.
  unfold setIndex, len.
  destruct (Z.leb_spec 0 i); destruct (Z.ltb_spec i (Z.of_nat (length l)));
    cbn [andb]; try discriminate.
  intros [= <-]. repeat split; lia.
Qed.

(** ** CrossPMX: a gene that cannot be found *)

(** What [getIndex] returns is [-1] or the position of an element equal to
    [y] under [==]. *)
Lemma getIndexFrom_found (y : value F) (l : list (value F)) :
  forall s, getIndexFrom s y l = -1
            \/ (s <= getIndexFrom s y l
                /\ exists v, nth_error l (Z.to_nat (getIndexFrom s y l - s)) = Some v
                             /\ value_eqb v y = true).
Proof.
  induction l as [|v l IH]; intros s; cbn [getIndexFrom]; [now left|].
  destruct (value_eqb v y) eqn:E.
  - right. split; [lia|]. exists v. now rewrite Z.sub_diag.
  - destruct (IH (s + 1)) as [H|(Hle & w & Hw & Hwy)]; [now left|].
    right. split; [lia|]. exists w. split; [|exact Hwy].
    replace (Z.to_nat (getIndexFrom (s + 1) y l - s))
      with (S (Z.to_nat (getIndexFrom (s + 1) y l - (s + 1)))) by lia.
    exact Hw.
Qed.

Lemma update_update_comm {A : Type} (l : list A) (i a : nat) (x y : A) :
  i <> a -> (i < length l)%nat -> (a < length l)%nat ->
  update (update l a x) i y = update (update l i y) a x.
Proof.
  intros Hne Hi Ha. apply nth_error_ext.
  - now rewrite !length_update by (rewrite ?length_update; assumption).
  - intros k _.
    rewrite !nth_error_update by (rewrite ?length_update; assumption).
    destruct (Nat.eqb_spec k i), (Nat.eqb_spec k a); try reflexivity. lia.
Qed.

(** On tokens, a swap that succeeds rearranges the slice. *)
Lemma pmxSwap_Ok_Permutation (g o o' : list (value F)) (i : Z) :
  Forall (fun v => is_token v = true) o ->
  pmxSwap g o i = Ok o' -> Permutation o' o.
Proof.
  intros Htok. unfold pmxSwap.
  destruct (index g i) as [y|] eqn:Ey; cbn [bind]; [|discriminate].
  destruct (index o i) as [x|] eqn:Ex; cbn [bind]; [|discriminate].
  destruct (setIndex o (getIndex y o) x) as [o1|] eqn:E1; cbn [bind]; [|discriminate].
  intros E2.
  apply index_Ok_inv in Ex. destruct Ex as (Hi0 & Hx).
  apply setIndex_Ok_inv in E1. destruct E1 as (Ha0 & Hal & ->).
  apply setIndex_Ok_inv in E2. destruct E2 as (_ & Hil & ->).
  rewrite length_update in Hil by assumption.
  assert (Hy : nth_error o (Z.to_nat (getIndex y o)) = Some y).
  { unfold getIndex in *.
    destruct (getIndexFrom_found y o 0) as [H|(_ & v & Hv & Hvy)]; [lia|].
    rewrite Z.sub_0_r in Hv. rewrite Hv. f_equal.
    apply value_eqb_token; [|exact Hvy].
    rewrite Forall_forall in Htok. apply Htok. eapply nth_error_In; exact Hv. }
  set (a := Z.to_nat (getIndex y o)) in *. set (j := Z.to_nat i) in *.
  destruct (Nat.lt_trichotomy j a) as [Hlt|[Heq|Hgt]].
  - now apply swap_Permutation.
  - assert (x = y) by congruence. subst x. rewrite <- Heq.
    replace (update (update o j y) j y) with o; [reflexivity|].
    apply nth_error_ext.
    + now rewrite !length_update by (rewrite ?length_update; assumption).
    + intros k Hk.
      rewrite !nth_error_update by (rewrite ?length_update; assumption).
      destruct (Nat.eqb_spec k j) as [->|]; congruence.
  - rewrite update_update_comm by lia. now apply swap_Permutation.
Qed.

(** Looking for a token that the slice does not hold makes the swap fail. *)
Lemma pmxSwap_absent (g o : list (value F)) (i : Z) (y : value F) :
  Forall (fun v => is_token v = true) o ->
  index g i = Ok y -> ~ In y o ->
  pmxSwap g o i = Panic IndexRange.
Proof.
  intros Htok Hy Hnot. unfold pmxSwap. rewrite Hy. cbn [bind].
  assert (Ha : getIndex y o = -1).
  { unfold getIndex.
    destruct (getIndexFrom_found y o 0) as [H|(_ & v & Hv & Hvy)]; [exact H|].
    exfalso. apply Hnot.
    assert (v = y).
    { apply value_eqb_token; [|exact Hvy].
      rewrite Forall_forall in Htok. apply Htok. eapply nth_error_In; exact Hv. }
    subst v. eapply nth_error_In; exact Hv. }
  rewrite Ha.
  destruct (index o i) as [x|e] eqn:Ex; cbn [bind].
  - reflexivity.
  - now rewrite (index_panic _ _ _ Ex).
Qed.

(** X7: when parent1's genes are tokens and parent2 has, before the point
    drawn, a gene that parent1 does not have, [CrossPMX.Apply] fails with an
    index out of range and returns no offspring. *)
Theorem X7_pmx_missing_gene_fails
  (c : CrossPMX) (p1 p2 : Individual F) (rng : Rand F)
  (p : Z) (rng' : Rand F) (j : nat) (y : value F) :
  forallb is_token (Genome p1) = true ->
  pmxPoint (len (Genome p1)) rng = Ok (p, rng') ->
  Z.of_nat j < p ->
  nth_error (Genome p2) j = Some y ->
  ~ In y (Genome p1) ->
  CrossPMX_Apply c p1 p2 rng = Panic IndexRange.
Proof.
  intros Htok Hpt Hj Hy Hnot.
  assert (Htok' : Forall (fun v => is_token v = true) (Genome p1))
    by (apply Forall_forall; apply forallb_forall; exact Htok).
  unfold CrossPMX_Apply. rewrite (bind_Ok _ _ _ Hpt).
  unfold makeIndividual. cbn [Genome fitnessValid].
  rewrite (copy_same_length (repeat Nil _) (Genome p1))
    by (rewrite repeat_length; unfold len; lia).
  rewrite (forLoop_panics
             (fun _ st => Permutation (fst st) (Genome p1))
             (crossPMXBody (Genome p1) (Genome p2)) IndexRange (Z.of_nat j));
    [reflexivity| | |reflexivity|].
  - intros [o1 o2] Hperm. cbn [fst] in Hperm. unfold crossPMXBody.
    rewrite (pmxSwap_absent (Genome p2) o1 (Z.of_nat j) y); [reflexivity| | |].
    + eapply Permutation_Forall; [symmetry; exact Hperm|exact Htok'].
    + now apply index_Ok.
    + intros Hin. apply Hnot. eapply Permutation_in; eassumption.
  - lia.
  - intros i [o1 o2] Hi Hperm. cbn [fst] in Hperm. unfold crossPMXBody.
    destruct (pmxSwap (Genome p2) o1 i) as [o1'|e1] eqn:E1; cbn [bind].
    + destruct (pmxSwap (Genome p1) o2 i) as [o2'|e2] eqn:E2; cbn [bind].
      * right. eexists. split; [reflexivity|]. cbn [fst].
        etransitivity; [|exact Hperm].
        eapply pmxSwap_Ok_Permutation; [|exact E1].
        eapply Permutation_Forall; [symmetry; exact Hperm|exact Htok'].
      * left. now rewrite (pmxSwap_panic _ _ _ _ E2).
    + left. now rewrite (pmxSwap_panic _ _ _ _ E1).
Qed.

(** ** CrossUniformF: genes that are not float64, parents of two lengths *)

Lemma forallb_false_nth {A : Type} (f : A -> bool) (l : list A) :
  forallb f l = false -> exists j v, nth_error l j = Some v /\ f v = false.
Proof.
  induction l as [|x l IH]; cbn; [discriminate|].
  destruct (f x) eqn:E; cbn.
  - intros H. destruct (IH H) as (j & v & Hj & Hv). now exists (S j), v.
  - intros _. now exists 0%nat, x.
Qed.

(** One iteration on two genes that are float64. *)
Lemma crossUniformFBody_Ok (g1 g2 o1 o2 : list (value F)) (r : Rand F)
  (i : nat) (x1 x2 : F) :
  nth_error g1 i = Some (Float x1) -> nth_error g2 i = Some (Float x2) ->
  (i < length o1)%nat -> (i < length o2)%nat ->
  exists o1' o2',
    crossUniformFBody g1 g2 (Z.of_nat i) (o1, o2, r) = Ok (o1', o2', advance r)
    /\ length o1' = length o1 /\ length o2' = length o2.
Proof.
  intros H1 H2 Hl1 Hl2. unfold crossUniformFBody, Float64.
  rewrite (index_Ok g1 i _ H1), (index_Ok g2 i _ H2).
  cbn [assertFloat64 bind].
  rewrite (setIndex_Ok o1) by assumption. cbn [bind].
  rewrite (setIndex_Ok o2) by assumption. cbn [bind].
  eexists _, _. split; [reflexivity|].
  now rewrite !length_update by assumption.
Qed.

(** One iteration on a gene that is not float64. *)
Lemma crossUniformFBody_TypeAssertion (g1 g2 o1 o2 : list (value F)) (r : Rand F)
  (i : nat) (v1 v2 : value F) :
  nth_error g1 i = Some v1 -> nth_error g2 i = Some v2 ->
  (is_float64 v1 && is_float64 v2)%bool = false ->
  crossUniformFBody g1 g2 (Z.of_nat i) (o1, o2, r) = Panic TypeAssertion.
Proof.
  intros H1 H2 Hbad. unfold crossUniformFBody, Float64.
  rewrite (index_Ok g1 i _ H1), (index_Ok g2 i _ H2).
  destruct v1; cbn [assertFloat64 bind]; try reflexivity.
  destruct v2; cbn [assertFloat64 bind]; try reflexivity.
  discriminate Hbad.
Qed.

(** X8: when the parents have one length and some gene of either parent is
    not a float64, [CrossUniformF.Apply] fails on the type assertion and
    returns no offspring. *)
Theorem X8_uniformF_non_float64_gene_fails
  (cross : CrossUniformF) (p1 p2 : Individual F) (rng : Rand F) :
  length (Genome p2) = length (Genome p1) ->
  (forallb is_float64 (Genome p1) && forallb is_float64 (Genome p2))%bool = false ->
  CrossUniformF_Apply cross p1 p2 rng = Panic TypeAssertion.
Proof.
  intros Hlen Hbad.
  set (g1 := Genome p1) in *. set (g2 := Genome p2) in *.
  assert (Hj : exists j v1 v2, nth_error g1 j = Some v1 /\ nth_error g2 j = Some v2
                               /\ (is_float64 v1 && is_float64 v2)%bool = false).
  { apply andb_false_iff in Hbad. destruct Hbad as [H|H];
      apply forallb_false_nth in H; destruct H as (j & v & Hv & Hf).
    - assert (Hjl : (j < length g2)%nat)
        by (rewrite Hlen; apply nth_error_Some; congruence).
      destruct (nth_error_lt g2 j Hjl) as (v2 & Hv2).
      exists j, v, v2. now rewrite Hf.
    - assert (Hjl : (j < length g1)%nat)
        by (rewrite <- Hlen; apply nth_error_Some; congruence).
      destruct (nth_error_lt g1 j Hjl) as (v1 & Hv1).
      exists j, v1, v. rewrite Hf. now rewrite andb_false_r. }
  destruct Hj as (j & w1 & w2 & Hw1 & Hw2 & Hw).
  assert (Hjl : (j < length g1)%nat) by (apply nth_error_Some; congruence).
  unfold CrossUniformF_Apply, makeIndividual. cbn [Genome fitnessValid].
  fold g1 g2. unfold len. rewrite !Nat2Z.id.
  rewrite (forLoop_panics
             (fun _ st => length (fst (fst st)) = length g1
                          /\ length (snd (fst st)) = length g1)
             (crossUniformFBody g1 g2) TypeAssertion (Z.of_nat j));
    [reflexivity| | | |].
  - intros [[o1 o2] r] _.
    now apply (crossUniformFBody_TypeAssertion g1 g2 o1 o2 r j w1 w2).
  - lia.
  - cbn. now rewrite !repeat_length.
  - intros i [[o1 o2] r] Hi (Ho1 & Ho2). cbn [fst snd] in *.
    remember (Z.to_nat i) as k eqn:Hk.
    assert (Hik : i = Z.of_nat k) by lia. subst i. clear Hk.
    destruct (nth_error_lt g1 k ltac:(lia)) as (v1 & Hv1).
    destruct (nth_error_lt g2 k ltac:(lia)) as (v2 & Hv2).
    destruct (is_float64 v1 && is_float64 v2)%bool eqn:E.
    + right. apply andb_true_iff in E. destruct E as (E1 & E2).
      destruct v1; try discriminate. destruct v2; try discriminate.
      destruct (crossUniformFBody_Ok g1 g2 o1 o2 r k _ _ Hv1 Hv2)
        as (o1' & o2' & Hb & Hl1 & Hl2); [lia|lia|].
      eexists. split; [exact Hb|]. cbn [fst snd]. split; congruence.
    + left. now apply (crossUniformFBody_TypeAssertion g1 g2 o1 o2 r k v1 v2).
Qed.

(** X9: when every gene is a float64 and parent2 is shorter than parent1,
    [CrossUniformF.Apply] fails with an index out of range at the first
    position parent2 does not have, and returns no offspring. *)
Theorem X9_uniformF_shorter_parent2_fails
  (cross : CrossUniformF) (p1 p2 : Individual F) (rng : Rand F) :
  (length (Genome p2) < length (Genome p1))%nat ->
  forallb is_float64 (Genome p1) = true ->
  forallb is_float64 (Genome p2) = true ->
  CrossUniformF_Apply cross p1 p2 rng = Panic IndexRange.
Proof.
  intros Hlen Hf1 Hf2.
  set (g1 := Genome p1) in *. set (g2 := Genome p2) in *.
  unfold CrossUniformF_Apply, makeIndividual. cbn [Genome fitnessValid].
  fold g1 g2. unfold len. rewrite !Nat2Z.id.
  rewrite (forLoop_panics
             (fun _ st => length (fst (fst st)) = length g1
                          /\ length (snd (fst st)) = length g1)
             (crossUniformFBody g1 g2) IndexRange (Z.of_nat (length g2)));
    [reflexivity| | | |].
  - intros [[o1 o2] r] _.
    destruct (float64_gene g1 (length g2) Hf1 Hlen) as (x1 & Hx1).
    unfold crossUniformFBody, Float64.
    rewrite (index_Ok g1 _ _ Hx1). cbn [assertFloat64 bind].
    unfold index. destruct (Z.ltb_spec (Z.of_nat (length g2)) 0); [reflexivity|].
    rewrite Nat2Z.id.
    now rewrite (proj2 (nth_error_None g2 (length g2)) (Nat.le_refl _)).
  - lia.
  - cbn. now rewrite !repeat_length.
  - intros i [[o1 o2] r] Hi (Ho1 & Ho2). cbn [fst snd] in *.
    remember (Z.to_nat i) as k eqn:Hk.
    assert (Hik : i = Z.of_nat k) by lia. subst i. clear Hk.
    destruct (float64_gene g1 k Hf1 ltac:(lia)) as (x1 & Hx1).
    destruct (float64_gene g2 k Hf2 ltac:(lia)) as (x2 & Hx2).
    right.
    destruct (crossUniformFBody_Ok g1 g2 o1 o2 r k _ _ Hx1 Hx2)
      as (o1' & o2' & Hb & Hl1 & Hl2); [lia|lia|].
    eexists. split; [exact Hb|]. cbn [fst snd]. split; congruence.
Qed.

(** ** A parent2 longer than parent1 *)

Lemma index_firstn {A : Type} (l : list A) (n : nat) (i : Z) :
  i < Z.of_nat n -> index (firstn n l) i = index l i.
Proof.
  intros Hi. unfold index. destruct (Z.ltb_spec i 0); [reflexivity|].
  now rewrite nth_error_firstn, (proj2 (Nat.ltb_lt (Z.to_nat i) n)) by lia.
Qed.


Lemma copy_firstn {A : Type} (dst src : list A) :
  copy dst (firstn (length dst) src) = copy dst src.
Proof.
  unfold copy. rewrite length_firstn, firstn_firstn.
  f_equal; f_equal; lia.
Qed.

Lemma pmxSwap_firstn (g o : list (value F)) (n : nat) (i : Z) :
  i < Z.of_nat n -> pmxSwap (firstn n g) o i = pmxSwap g o i.
Proof.
  intros Hi. unfold pmxSwap. now rewrite (index_firstn g n i Hi).
Qed.

(** X10: none of the three operators reads parent2 beyond parent1's
    length: the outcome is the one obtained with parent2's genome cut down
    to that length.  A longer parent2 is accepted and its extra genes are
    ignored. *)
Theorem X10_parent2_read_up_to_parent1_length
  (cp : CrossPoint) (cu : CrossUniformF) (cx : CrossPMX)
  (p1 p2 : Individual F) (rng : Rand F) :
  CrossPoint_Apply cp p1 p2 rng
    = CrossPoint_Apply cp p1 (cutGenome (length (Genome p1)) p2) rng
  /\ CrossUniformF_Apply cu p1 p2 rng
    = CrossUniformF_Apply cu p1 (cutGenome (length (Genome p1)) p2) rng
  /\ CrossPMX_Apply cx p1 p2 rng
    = CrossPMX_Apply cx p1 (cutGenome (length (Genome p1)) p2) rng.
Proof.
  set (n := length (Genome p1)). split; [|split].
  - unfold CrossPoint_Apply. cbn [cutGenome Genome].
    pose proof (randomInts_range (NbPoints cp) 0 (len (Genome p1)) rng) as Hr.
    destruct (randomInts (NbPoints cp) 0 (len (Genome p1)) rng)
      as [[points err] rng'] eqn:Er. cbn [fst] in Hr.
    change (([0] ++ sortInts points) ++ [len (Genome p1)])
      with (boundaries points (len (Genome p1))).
    assert (Hn0 : 0 <= len (Genome p1)) by (unfold len; lia).
    pose proof (boundaries_range points _ Hn0 Hr) as Hall.
    rewrite Forall_forall in Hall.
    rewrite (forLoop_ext
               (crossPointBody (boundaries points (len (Genome p1))) (Genome p1)
                  (Genome p2))
               (crossPointBody (boundaries points (len (Genome p1))) (Genome p1)
                  (firstn n (Genome p2)))); [reflexivity|].
    intros i [[o1 o2] s] _. unfold crossPointBody.
    destruct (index (boundaries points (len (Genome p1))) i) as [a|] eqn:Ea;
      cbn [bind]; [|reflexivity].
    destruct (index (boundaries points (len (Genome p1))) (i + 1)) as [b|] eqn:Eb;
      cbn [bind]; [|reflexivity].
    apply index_Ok_inv in Eb. destruct Eb as (_ & Eb).
    pose proof (Hall _ (nth_error_In _ _ Eb)) as Hbn.
    unfold copySlice.
    rewrite (slice_firstn (Genome p2) n a b) by (unfold len, n in *; lia).
    reflexivity.
  - unfold CrossUniformF_Apply. cbn [cutGenome Genome].
    rewrite (forLoop_ext
               (crossUniformFBody (Genome p1) (Genome p2))
               (crossUniformFBody (Genome p1) (firstn n (Genome p2))));
      [reflexivity|].
    intros i [[o1 o2] r] Hi. unfold crossUniformFBody.
    rewrite (index_firstn (Genome p2) n i) by (unfold len, n in *; lia).
    reflexivity.
  - unfold CrossPMX_Apply. cbn [cutGenome Genome].
    unfold makeIndividual. cbn [Genome fitnessValid].
    replace (Z.to_nat (len (Genome p1))) with n by (unfold len, n; lia).
    pose proof (copy_firstn (repeat (@Nil F) n) (Genome p2)) as Hcopy.
    rewrite repeat_length in Hcopy. rewrite Hcopy. clear Hcopy.
    destruct (pmxPoint (len (Genome p1)) rng) as [[p rng']|e] eqn:Ept;
      cbn [bind]; [|reflexivity].
    assert (Hp : p < Z.of_nat n).
    { revert Ept. unfold pmxPoint, Intn.
      destruct (Z.leb_spec (len (Genome p1) - 2) 0); [discriminate|].
      cbn [bind]. intros [= <- _].
      pose proof (Z.mod_pos_bound (ints rng (pos rng)) (len (Genome p1) - 2)
                    ltac:(lia)).
      unfold len, n in *. lia. }
    rewrite (forLoop_ext
               (crossPMXBody (Genome p1) (Genome p2))
               (crossPMXBody (Genome p1) (firstn n (Genome p2))));
      [reflexivity|].
    intros i [o1 o2] Hi. unfold crossPMXBody.
    now rewrite (pmxSwap_firstn (Genome p2) o1 n i) by lia.
Qed.

(** ** CrossPoint: what the offspring are made of *)

(** X11: for parents of one length and [0 <= NbPoints <= genomeLength],
    [CrossPoint.Apply] neither loses nor invents a gene: the genes of the
    two offspring taken together are the genes of the two parents taken
    together. *)
Theorem X11_crosspoint_conserves_genes
  (cross : CrossPoint) (p1 p2 : Individual F) (rng : Rand F) :
  0 <= NbPoints cross <= len (Genome p1) ->
  length (Genome p2) = length (Genome p1) ->
  exists o1 o2 rng',
    CrossPoint_Apply cross p1 p2 rng = Ok (o1, o2, rng')
    /\ Permutation (Genome o1 ++ Genome o2) (Genome p1 ++ Genome p2).
Proof.
  intros Hk Hlen.
  destruct (CrossPoint_Apply_valid cross p1 p2 rng Hk Hlen) as (c & rng' & _ & Happ).
  eexists _, _, _. split; [exact Happ|].
  cbn [Genome].
  rewrite <- (firstn_skipn c (Genome p1)) at 3.
  rewrite <- (firstn_skipn c (Genome p2)) at 3.
  rewrite <- !app_assoc. apply Permutation_app_head.
  etransitivity; [apply Permutation_app_comm|].
  rewrite <- app_assoc. apply Permutation_app_swap_app.
Qed.

(** X12: when the two parents carry the same genome and
    [0 <= NbPoints <= genomeLength], [CrossPoint.Apply] returns two copies
    of it, whatever points are drawn. *)
Theorem X12_crosspoint_identical_parents
  (cross : CrossPoint) (p1 p2 : Individual F) (rng : Rand F) :
  0 <= NbPoints cross <= len (Genome p1) ->
  Genome p2 = Genome p1 ->
  exists o1 o2 rng',
    CrossPoint_Apply cross p1 p2 rng = Ok (o1, o2, rng')
    /\ Genome o1 = Genome p1 /\ Genome o2 = Genome p1.
Proof.
  intros Hk Heq.
  destruct (CrossPoint_Apply_valid cross p1 p2 rng Hk (f_equal (@length _) Heq))
    as (c & rng' & _ & Happ).
  eexists _, _, _. split; [exact Happ|].
  cbn [Genome]. rewrite Heq. now rewrite firstn_skipn.
Qed.

End MoreFacts.

(** ** Concrete runs for the further properties *)

Lemma X1_witness :
  exists (c : nat) o1 o2 rng',
    CrossPoint_Apply {| NbPoints := 2 |} (individual ints4a) (individual ints4b)
      (constRand 1 0%float) = Ok (o1, o2, rng')
    /\ In (Z.of_nat c) (fst (fst (randomInts 2 0 4 (constRand 1 0%float))))
    /\ (forall x, In x (fst (fst (randomInts 2 0 4 (constRand 1 0%float)))) ->
                  Z.of_nat c <= x)
    /\ Genome o1 = firstn c ints4a ++ skipn c ints4b
    /\ Genome o2 = firstn c ints4b ++ skipn c ints4a.
Proof.
  apply (X1_crosspoint_cuts_at_smallest_point {| NbPoints := 2 |}
           (individual ints4a) (individual ints4b) (constRand 1 0%float)).
  - vm_compute. split; discriminate.
  - reflexivity.
Defined.

Lemma X2_witness :
  exists o1 o2 rng',
    CrossPoint_Apply {| NbPoints := 2 |} (individual ints4a) (individual ints4b)
      (constRand 1 0%float) = Ok (o1, o2, rng')
    /\ forall k,
        (nth_error (Genome o1) k = nth_error ints4a k
         /\ nth_error (Genome o2) k = nth_error ints4b k)
        \/ (nth_error (Genome o1) k = nth_error ints4b k
            /\ nth_error (Genome o2) k = nth_error ints4a k).
Proof.
  apply (X2_crosspoint_offspring_complementary {| NbPoints := 2 |}
           (individual ints4a) (individual ints4b) (constRand 1 0%float)).
  - vm_compute. split; discriminate.
  - reflexivity.
Defined.

Lemma X3_witness :
  CrossPoint_Apply {| NbPoints := 2 |} (individual ints4b) (individual ints4a)
    (constRand 1 0%float)
  = exchange (CrossPoint_Apply {| NbPoints := 2 |} (individual ints4a)
                (individual ints4b) (constRand 1 0%float)).
Proof.
  apply (X3_crosspoint_exchanging_parents {| NbPoints := 2 |}
           (individual ints4a) (individual ints4b) (constRand 1 0%float)).
  reflexivity.
Defined.

Lemma X4_witness :
  CrossPMX_Apply Build_CrossPMX (individual (rev tour5)) (individual tour5)
    (constRand 1 0%float)
  = exchange (CrossPMX_Apply Build_CrossPMX (individual tour5)
                (individual (rev tour5)) (constRand 1 0%float)).
Proof.
  apply (X4_pmx_exchanging_parents Build_CrossPMX
           (individual tour5) (individual (rev tour5)) (constRand 1 0%float)).
  reflexivity.
Defined.

Lemma X5_witness :
  CrossPMX_Apply Build_CrossPMX (individual tour5) (individual tour5)
    (constRand 1 0%float)
  = Ok ({| Genome := tour5; fitnessValid := false |},
        {| Genome := tour5; fitnessValid := false |},
        advance (constRand 1 0%float)).
Proof.
  apply (X5_pmx_identical_parents Build_CrossPMX
           (individual tour5) (individual tour5) (constRand 1 0%float)).
  - vm_compute. discriminate.
  - reflexivity.
  - exact NoDup_tour5.
  - reflexivity.
Defined.

Lemma X6_witness :
  exists (p : nat) o1 o2 rng',
    pmxPoint 5 (constRand 1 0%float) = Ok (Z.of_nat p, rng')
    /\ CrossPMX_Apply Build_CrossPMX (individual tour5) (individual (rev tour5))
         (constRand 1 0%float) = Ok (o1, o2, rng')
    /\ (forall k v, (p <= k)%nat -> nth_error tour5 k = Some v ->
                    ~ In v (firstn p (rev tour5)) ->
                    nth_error (Genome o1) k = Some v)
    /\ (forall k v, (p <= k)%nat -> nth_error (rev tour5) k = Some v ->
                    ~ In v (firstn p tour5) ->
                    nth_error (Genome o2) k = Some v).
Proof.
  apply (X6_pmx_keeps_unconflicting_genes Build_CrossPMX
           (individual tour5) (individual (rev tour5)) (constRand 1 0%float)).
  - vm_compute. discriminate.
  - reflexivity.
  - exact NoDup_tour5.
  - apply Permutation_rev.
Defined.

Lemma X7_witness :
  CrossPMX_Apply Build_CrossPMX (individual tour5) (individual tour5x)
    (constRand 1 0%float) = Panic IndexRange.
Proof.
  apply (X7_pmx_missing_gene_fails Build_CrossPMX
           (individual tour5) (individual tour5x) (constRand 1 0%float)
           2 (advance (constRand 1 0%float)) 0%nat (Int 9)).
  - reflexivity.
  - reflexivity.
  - reflexivity.
  - reflexivity.
  - cbn. intuition discriminate.
Defined.

Lemma X8_witness :
  CrossUniformF_Apply Build_CrossUniformF
    (individual [Float 1%float; Int 2]) (individual [Float 3%float; Float 4%float])
    (constRand 0 0.5%float) = Panic TypeAssertion.
Proof.
  apply (X8_uniformF_non_float64_gene_fails Build_CrossUniformF
           (individual [Float 1%float; Int 2])
           (individual [Float 3%float; Float 4%float]) (constRand 0 0.5%float)).
  - reflexivity.
  - reflexivity.
Defined.

Lemma X9_witness :
  CrossUniformF_Apply Build_CrossUniformF
    (individual [Float 1%float; Float 2%float]) (individual [Float 3%float])
    (constRand 0 0.5%float) = Panic IndexRange.
Proof.
  apply (X9_uniformF_shorter_parent2_fails Build_CrossUniformF
           (individual [Float 1%float; Float 2%float])
           (individual [Float 3%float]) (constRand 0 0.5%float)).
  - cbn. lia.
  - reflexivity.
  - reflexivity.
Defined.

Lemma X11_witness :
  exists o1 o2 rng',
    CrossPoint_Apply {| NbPoints := 2 |} (individual ints4a) (individual ints4b)
      (constRand 1 0%float) = Ok (o1, o2, rng')
    /\ Permutation (Genome o1 ++ Genome o2) (ints4a ++ ints4b).
Proof.
  apply (X11_crosspoint_conserves_genes {| NbPoints := 2 |}
           (individual ints4a) (individual ints4b) (constRand 1 0%float)).
  - vm_compute. split; discriminate.
  - reflexivity.
Defined.

Lemma X12_witness :
  exists o1 o2 rng',
    CrossPoint_Apply {| NbPoints := 2 |} (individual ints4a) (individual ints4a)
      (constRand 1 0%float) = Ok (o1, o2, rng')
    /\ Genome o1 = ints4a /\ Genome o2 = ints4a.
Proof.
  apply (X12_crosspoint_identical_parents {| NbPoints := 2 |}
           (individual ints4a) (individual ints4a) (constRand 1 0%float)).
  - vm_compute. split; discriminate.
  - reflexivity.
Defined.
